(** * The report aggregation of formatter-html ([result.ts])

    A shallow embedding of the three classes of
    [packages/formatter-html/src/result.ts] -- [HintResult],
    [CategoryResult] and [AnalysisResult] -- and the properties of the
    aggregation they implement.

    Modelling conventions.
    - JavaScript objects have identity.  A [CategoryResult] owns the
      [HintResult] objects it creates and an [AnalysisResult] owns its
      [CategoryResult] objects; the owner carries an allocation table
      ([heap]) and every reference held in an array or in the name cache is
      an index ([loc]) into that table.  Two references denote the same
      instance exactly when they are the same [loc]; a mutation through one
      reference is seen through every other one.  Objects are never freed
      (an unreachable object simply stays in the table).
    - Strings are [string]; [toLowerCase] lower-cases the ASCII letters.
    - Counters are [Z].  The millisecond scan time is an exact rational
      ([Q]), so that [/], [%] and [Math.floor] are the operations of the
      source.
    - The JSON tables and the localisation function that the module loads
      from other packages are collected in [Env]. *)

From Stdlib Require Import ZArith QArith Qround Ascii String DecimalString DecimalPos Lia.
From stdpp Require Import base option list gmap strings.

Local Open Scope string_scope.
Local Open Scope Z_scope.

(** ** Strings *)

Definition lower_ascii (c : ascii) : ascii :=
  let n := nat_of_ascii c in
  if (Nat.leb 65 n && Nat.leb n 90)%bool then ascii_of_nat (n + 32) else c.

(** [String.prototype.toLowerCase], on ASCII. *)
Fixpoint toLowerCase (s : string) : string :=
  match s with
  | EmptyString => EmptyString
  | String c r => String (lower_ascii c) (toLowerCase r)
  end.

(** [s.split('/')[0]]: the text before the first ['/'], all of [s] when it
    has none. *)
Fixpoint splitSlashHead (s : string) : string :=
  match s with
  | EmptyString => EmptyString
  | String c r => if Ascii.eqb c "/" then EmptyString else String c (splitSlashHead r)
  end.

(** [s.substr(1)]. *)
Definition substr1 (s : string) : string :=
  match s with
  | EmptyString => EmptyString
  | String _ r => r
  end.

Fixpoint dropString (n : nat) (s : string) : string :=
  match n, s with
  | O, _ => s
  | S n', String _ r => dropString n' r
  | S _, EmptyString => EmptyString
  end.

(** [s.replace(pat, rep)] for a pattern that is a literal text: the first
    occurrence of [pat] is replaced, the value is a new string. *)
Fixpoint replaceFirst (pat rep s : string) : string :=
  if String.prefix pat s then rep ++ dropString (String.length pat) s
  else match s with
       | EmptyString => EmptyString
       | String c r => String c (replaceFirst pat rep r)
       end.

(** Does [pat] occur in [s]? *)
Fixpoint occurs (pat s : string) : bool :=
  if String.prefix pat s then true
  else match s with
       | EmptyString => false
       | String _ r => occurs pat r
       end.

(** ** Problems ([@hint/utils-types]) *)

(** Modelled from the spec: the enum [Severity] is declared in
    [@hint/utils-types], which is not part of the sources at hand.  The
    data model of the specification gives its members as
    [enum{off, default, warning, error}]; [result.ts] names exactly these
    four. *)
Inductive Severity : Type :=
| off
| default
| warning
| error.

#[export] Instance Severity_eq_dec : EqDecision Severity.
Proof. solve_decision. Defined.

Definition Severity_eqb (a b : Severity) : bool := bool_decide (a = b).

(** [Severity[s]]: the reverse mapping of the enum, the member's name. *)
Definition Severity_name (s : Severity) : string :=
  match s with
  | off => "off"
  | default => "default"
  | warning => "warning"
  | error => "error"
  end.

(** Modelled from the spec: [Problem] is declared in [@hint/utils-types].
    The record has the three fields [result.ts] reads ([hintId] is the
    specification's [ruleId]) and a [message] standing for the diagnostic
    payload. *)
Module Problem.
Record t : Type := mk
  { hintId : string;
    category : string;
    severity : Severity;
    message : string }.
End Problem.

#[export] Instance Problem_eq_dec : EqDecision Problem.t.
Proof. solve_decision. Defined.

(** ** The tables loaded from other files *)

Record ThirdPartyLogo : Type := mkLogo
  { logo_name : string;
    logo_url : string;
    logo_alt : string }.

Record ThirdPartyInfo : Type := mkInfo
  { logo : ThirdPartyLogo;
    link : string;
    details : option bool }.

(** [thirdPartyServices] and [categoryImages] are the two JSON files read by
    [loadJSONFile] (an object used as a map from its own keys);
    [getCategoryName] is the function of [@hint/utils-i18n]. *)
Record Env : Type := mkEnv
  { thirdPartyServices : gmap string ThirdPartyInfo;
    categoryImages : gmap string string;
    getCategoryName : string -> option string -> string }.

Definition hintsWithoutDocs : list string := ["optimize-image"].

(** [Array.prototype.includes] on strings. *)
Definition includes (l : list string) (s : string) : bool :=
  existsb (String.eqb s) l.

(** A reference is the index of the object in its owner's table. *)
Abbreviation loc := nat (only parsing).

(** ** [HintResult] *)

Module HintResult.

Record t : Type := mk
  { status : string;
    count : Z;
    problems : list Problem.t;
    name : string;
    thirdPartyInfo : option ThirdPartyInfo;
    hasDoc : bool }.

(** The body of [if (this.thirdPartyInfo) { ... }].  The value of
    [link.replace(/%URL%/, url)] is computed and dropped, as in the
    source: [replace] returns a new string and the statement does not
    assign it. *)
Definition adjustThirdPartyInfo (url : string) (isScanner : bool)
    (info : ThirdPartyInfo) : ThirdPartyInfo :=
  let _ := replaceFirst "%URL%" url (link info) in
  if negb isScanner
  then {| logo := {| logo_name := logo_name (logo info);
                     logo_url := substr1 (logo_url (logo info));
                     logo_alt := logo_alt (logo info) |};
          link := link info;
          details := details info |}
  else info.

(** [constructor(name, status, url, isScanner)]. *)
Definition new (env : Env) (name status url : string) (isScanner : bool) : t :=
  let baseName := splitSlashHead name in
  {| problems := [];
     name := name;
     status := status;
     count := 0;
     thirdPartyInfo :=
       match thirdPartyServices env !! baseName with
       | Some info => Some (adjustThirdPartyInfo url isScanner info)
       | None => None
       end;
     hasDoc := negb (includes hintsWithoutDocs name) |}.

(** [addProblem(problem)]: [this.problems.push(problem); this.count++]. *)
Definition addProblem (problem : Problem.t) (h : t) : t :=
  {| status := status h;
     count := count h + 1;
     problems := problems h ++ [problem];
     name := name h;
     thirdPartyInfo := thirdPartyInfo h;
     hasDoc := hasDoc h |}.

End HintResult.

(** ** [CategoryResult] *)

Module CategoryResult.

(** The fields of the class, and [heap]: the [HintResult] objects this
    category has created, in creation order.  [passed], [hints] and
    [cache] hold references into [heap]. *)
Record t : Type := mk
  { hintsCount : Z;
    passed : list loc;
    hints : list loc;
    name : string;
    localizedName : string;
    image : option string;
    status : string;
    cache : gmap string loc;
    url : string;
    isScanner : bool;
    heap : list HintResult.t }.

Definition set_hintsCount (v : Z) (c : t) : t :=
  mk v (passed c) (hints c) (name c) (localizedName c) (image c) (status c)
     (cache c) (url c) (isScanner c) (heap c).

Definition set_passed (v : list loc) (c : t) : t :=
  mk (hintsCount c) v (hints c) (name c) (localizedName c) (image c) (status c)
     (cache c) (url c) (isScanner c) (heap c).

Definition set_hints (v : list loc) (c : t) : t :=
  mk (hintsCount c) (passed c) v (name c) (localizedName c) (image c) (status c)
     (cache c) (url c) (isScanner c) (heap c).

Definition set_cache (v : gmap string loc) (c : t) : t :=
  mk (hintsCount c) (passed c) (hints c) (name c) (localizedName c) (image c)
     (status c) v (url c) (isScanner c) (heap c).

Definition set_heap (v : list HintResult.t) (c : t) : t :=
  mk (hintsCount c) (passed c) (hints c) (name c) (localizedName c) (image c)
     (status c) (cache c) (url c) (isScanner c) v.

(** [constructor(name, url, isScanner, language?)]. *)
Definition new (env : Env) (name url : string) (isScanner : bool)
    (language : option string) : t :=
  {| hints := [];
     passed := [];
     name := name;
     localizedName := getCategoryName env (toLowerCase name) language;
     hintsCount := 0;
     image :=
       match categoryImages env !! toLowerCase name with
       | Some img =>
           if (negb (String.eqb img "") && negb isScanner)%bool
           then Some (substr1 img) else Some img
       | None => None
       end;
     isScanner := isScanner;
     status := "finished";
     url := url;
     cache := ∅;
     heap := [] |}.

(** The callback of [this.hints.find]: [hi.name.toLowerCase() ===
    lowerCaseName], for the object [hi] refers to. *)
Definition nameMatches (c : t) (lowerCaseName : string) (hi : loc) : bool :=
  match heap c !! hi with
  | Some h => String.eqb (toLowerCase (HintResult.name h)) lowerCaseName
  | None => false
  end.

(** [getHintByName(name)]: the reference found ([None] for [undefined])
    and the category, whose cache may have been filled. *)
Definition getHintByName (name : string) (c : t) : option loc * t :=
  let lowerCaseName := toLowerCase name in
  match cache c !! lowerCaseName with
  | Some hint => (Some hint, c)
  | None =>
      match List.find (nameMatches c lowerCaseName) (hints c) with
      | Some hint => (Some hint, set_cache (<[lowerCaseName := hint]> (cache c)) c)
      | None => (None, c)
      end
  end.

(** [new HintResult(...)], allocated in this category's table. *)
Definition allocHint (h : HintResult.t) (c : t) : loc * t :=
  (length (heap c), set_heap (heap c ++ [h]) c).

(** [addHint(name, status)]: the reference returned and the category. *)
Definition addHint (env : Env) (name status : string) (c : t) : loc * t :=
  let '(found, c) := getHintByName name c in
  match found with
  | Some hint => (hint, c)
  | None =>
      let '(hint, c) :=
        allocHint (HintResult.new env name status (url c) (isScanner c)) c in
      if String.eqb status "pass"
      then (hint, set_passed (passed c ++ [hint]) c)
      else (hint, set_hints (hints c ++ [hint]) c)
  end.

(** The test of [addProblem]:
    [severity !== Severity.off && severity !== Severity.default]. *)
Definition counted (s : Severity) : bool :=
  (negb (Severity_eqb s off) && negb (Severity_eqb s default))%bool.

(** The hint [addProblem] resolves for [hintId]: the one [getHintByName]
    finds, else a new one whose status is the severity's name, pushed to
    [hints]. *)
Definition resolveHint (env : Env) (problem : Problem.t) (c : t) : loc * t :=
  let hintId := Problem.hintId problem in
  let '(found, c) := getHintByName hintId c in
  match found with
  | Some hint => (hint, c)
  | None =>
      let '(hint, c) :=
        allocHint (HintResult.new env hintId
                     (Severity_name (Problem.severity problem))
                     (url c) (isScanner c)) c in
      (hint, set_hints (hints c ++ [hint]) c)
  end.

(** [addProblem(problem)]. *)
Definition addProblem (env : Env) (problem : Problem.t) (c : t) : t :=
  let '(hint, c) := resolveHint env problem c in
  let c :=
    if counted (Problem.severity problem)
    then set_hintsCount (hintsCount c + 1) c else c in
  set_heap (alter (HintResult.addProblem problem) hint (heap c)) c.

(** A call of one of the three methods, and its effect on the category. *)
Inductive call : Type :=
| GetHintByName (name : string)
| AddHint (name status : string)
| AddProblem (problem : Problem.t).

Definition step (env : Env) (c : t) (k : call) : t :=
  match k with
  | GetHintByName n => snd (getHintByName n c)
  | AddHint n s => snd (addHint env n s c)
  | AddProblem p => addProblem env p c
  end.

Definition run (env : Env) (ks : list call) (c : t) : t :=
  fold_left (step env) ks c.

(** The problems a category holds: those of the hints in [hints], then
    those of the hints in [passed]. *)
Definition problemsAt (hp : list HintResult.t) (hi : loc) : list Problem.t :=
  match hp !! hi with
  | Some h => HintResult.problems h
  | None => []
  end.

Definition heldProblems (c : t) : list Problem.t :=
  concat (map (problemsAt (heap c)) (hints c ++ passed c)).

End CategoryResult.


(** ** [AnalysisResult] *)

(** Modelled from the spec: [FormatterOptions] is declared in the package
    [hint]; the constructor reads these five optional fields. *)
Record FormatterOptions : Type := mkOptions
  { opt_status : option string;
    opt_scanTime : option Q;
    opt_date : option string;
    opt_version : option string;
    opt_isScanner : option bool }.

Module AnalysisResult.

(** The fields of the class, and [heap]: the [CategoryResult] objects this
    result has created, in creation order.  [categories] and [cache] hold
    references into [heap]. *)
Record t : Type := mk
  { hintsCount : Z;
    scanTime : string;
    date : option string;
    version : option string;
    permalink : string;
    categories : list loc;
    url : string;
    isFinish : bool;
    status : string;
    id : string;
    isScanner : bool;
    percentage : Z;
    showError : bool;
    cache : gmap string loc;
    heap : list CategoryResult.t }.

Definition set_hintsCount (v : Z) (a : t) : t :=
  mk v (scanTime a) (date a) (version a) (permalink a) (categories a) (url a)
     (isFinish a) (status a) (id a) (isScanner a) (percentage a) (showError a)
     (cache a) (heap a).

Definition set_categories (v : list loc) (a : t) : t :=
  mk (hintsCount a) (scanTime a) (date a) (version a) (permalink a) v (url a)
     (isFinish a) (status a) (id a) (isScanner a) (percentage a) (showError a)
     (cache a) (heap a).

Definition set_cache (v : gmap string loc) (a : t) : t :=
  mk (hintsCount a) (scanTime a) (date a) (version a) (permalink a)
     (categories a) (url a) (isFinish a) (status a) (id a) (isScanner a)
     (percentage a) (showError a) v (heap a).

Definition set_heap (v : list CategoryResult.t) (a : t) : t :=
  mk (hintsCount a) (scanTime a) (date a) (version a) (permalink a)
     (categories a) (url a) (isFinish a) (status a) (id a) (isScanner a)
     (percentage a) (showError a) (cache a) v.

(** [pad]: a string of length one gets a leading ["0"]. *)
Definition pad (timeString : string) : string :=
  if (negb (String.eqb timeString "") && Nat.eqb (String.length timeString) 1)%bool
  then "0" ++ timeString else timeString.

(** The number-to-string conversion of a template literal, for an integer. *)
Definition numberToString (z : Z) : string :=
  NilZero.string_of_int (Z.to_int z).

(** Rounding towards zero, and the remainder [x % y] of JavaScript (the
    sign of the dividend). *)
Definition Qtrunc (x : Q) : Z :=
  if Qle_bool 0 x then Qfloor x else Qceiling x.

Definition jsRem (x y : Q) : Q :=
  (x - y * inject_Z (Qtrunc (x / y)))%Q.

(** [parseScanTime(scanTime)]. *)
Definition parseScanTime (scanTime : Q) : string :=
  let seconds := Qfloor (jsRem (scanTime / 1000) 60) in
  let minutes := Qfloor (jsRem (scanTime / 1000 / 60) 60) in
  let hours := Qfloor (scanTime / 1000 / 3600) in
  let minutesDisplay := pad (numberToString minutes) in
  let secondsDisplay := pad (numberToString seconds) in
  let time := minutesDisplay ++ ":" ++ secondsDisplay in
  if 0 <? hours
  then let hoursDisplay := pad (numberToString hours) in
       hoursDisplay ++ ":" ++ time
  else time.

(** [options.scanTime || 0]: also [0] when the field is missing. *)
Definition scanTimeOrZero (o : option Q) : Q :=
  match o with
  | Some q => q
  | None => 0%Q
  end.

(** [constructor(target, options)]. *)
Definition new (target : string) (options : FormatterOptions) : t :=
  let status :=
    match opt_status options with
    | Some s => if String.eqb s "" then "finished" else s
    | None => "finished"
    end in
  {| url := target;
     hintsCount := 0;
     status := status;
     isFinish := (String.eqb status "finished" || String.eqb status "error")%bool;
     showError := String.eqb status "error";
     scanTime := parseScanTime (scanTimeOrZero (opt_scanTime options));
     date := opt_date options;
     version := opt_version options;
     permalink := "";
     id := "";
     isScanner :=
       match opt_isScanner options with
       | Some b => b
       | None => false
       end;
     percentage := 0;
     categories := [];
     cache := ∅;
     heap := [] |}.

(** The callback of [this.categories.find]. *)
Definition nameMatches (a : t) (lowerCaseName : string) (cat : loc) : bool :=
  match heap a !! cat with
  | Some c => String.eqb (toLowerCase (CategoryResult.name c)) lowerCaseName
  | None => false
  end.

(** [getCategoryByName(name)]. *)
Definition getCategoryByName (name : string) (a : t) : option loc * t :=
  let lowerCaseName := toLowerCase name in
  match cache a !! lowerCaseName with
  | Some category => (Some category, a)
  | None =>
      match List.find (nameMatches a lowerCaseName) (categories a) with
      | Some category =>
          (Some category, set_cache (<[lowerCaseName := category]> (cache a)) a)
      | None => (None, a)
      end
  end.

(** [new CategoryResult(...)] followed by [this.categories.push(category)]. *)
Definition pushNewCategory (env : Env) (categoryName : string)
    (language : option string) (a : t) : loc * t :=
  let category := length (heap a) in
  let a :=
    set_heap (heap a ++ [CategoryResult.new env categoryName (url a)
                           (isScanner a) language]) a in
  (category, set_categories (categories a ++ [category]) a).

(** The category [addProblem] resolves for [problem.category]. *)
Definition resolveCategory (env : Env) (problem : Problem.t)
    (language : option string) (a : t) : loc * t :=
  let categoryName := Problem.category problem in
  let '(found, a) := getCategoryByName categoryName a in
  match found with
  | Some category => (category, a)
  | None => pushNewCategory env categoryName language a
  end.

(** The test of [addProblem]:
    [severity === Severity.error || severity === Severity.warning]. *)
Definition counted (s : Severity) : bool :=
  (Severity_eqb s error || Severity_eqb s warning)%bool.

(** [addProblem(problem, language?)]. *)
Definition addProblem (env : Env) (problem : Problem.t)
    (language : option string) (a : t) : t :=
  let '(category, a) := resolveCategory env problem language a in
  let a :=
    if counted (Problem.severity problem)
    then set_hintsCount (hintsCount a + 1) a else a in
  set_heap (alter (CategoryResult.addProblem env problem) category (heap a)) a.

(** [addCategory(categoryName, language?)]. *)
Definition addCategory (env : Env) (categoryName : string)
    (language : option string) (a : t) : t :=
  let '(found, a) := getCategoryByName categoryName a in
  match found with
  | Some _ => a
  | None => snd (pushNewCategory env categoryName language a)
  end.

(** [Array.prototype.indexOf]: [-1] when the reference is not in the array. *)
Fixpoint indexOfFrom (x : loc) (l : list loc) (i : Z) : Z :=
  match l with
  | [] => -1
  | y :: r => if Nat.eqb y x then i else indexOfFrom x r (i + 1)
  end.

Definition indexOf (x : loc) (l : list loc) : Z := indexOfFrom x l 0.

(** [l.splice(index, 1)], the array that is left: a negative [index] counts
    from the end. *)
Definition splice1 (index : Z) (l : list loc) : list loc :=
  let len := Z.of_nat (length l) in
  let start := if index <? 0 then Z.max (len + index) 0 else Z.min index len in
  take (Z.to_nat start) l ++ drop (S (Z.to_nat start)) l.

(** [category.hintsCount], read through the reference. *)
Definition categoryHintsCount (a : t) (category : loc) : Z :=
  match heap a !! category with
  | Some c => CategoryResult.hintsCount c
  | None => 0
  end.

(** [removeCategory(categoryName)]. *)
Definition removeCategory (categoryName : string) (a : t) : t :=
  let name := toLowerCase categoryName in
  let '(found, a) := getCategoryByName name a in
  match found with
  | Some category =>
      let a := set_hintsCount (hintsCount a - categoryHintsCount a category) a in
      let index := indexOf category (categories a) in
      let a := set_categories (splice1 index (categories a)) a in
      set_cache (delete name (cache a)) a
  | None => a
  end.

(** A call of one of the four methods, and its effect on the result. *)
Inductive call : Type :=
| GetCategoryByName (name : string)
| AddProblem (problem : Problem.t) (language : option string)
| AddCategory (categoryName : string) (language : option string)
| RemoveCategory (categoryName : string).

Definition step (env : Env) (a : t) (k : call) : t :=
  match k with
  | GetCategoryByName n => snd (getCategoryByName n a)
  | AddProblem p l => addProblem env p l a
  | AddCategory n l => addCategory env n l a
  | RemoveCategory n => removeCategory n a
  end.

Definition run (env : Env) (ks : list call) (a : t) : t :=
  fold_left (step env) ks a.

(** The sum of the [hintsCount] of the categories in [categories]. *)
Definition categoriesTotal (a : t) : Z :=
  foldr Z.add 0 (map (categoryHintsCount a) (categories a)).

End AnalysisResult.

(** ** A configuration for the concrete instances *)

Definition sampleEnv : Env :=
  {| thirdPartyServices :=
       {[ "axe" := {| logo := {| logo_name := "aXe";
                                 logo_url := "/images/axe.png";
                                 logo_alt := "aXe by Deque" |};
                      link := "https://axe.example/check?url=%URL%";
                      details := Some true |} ]};
     categoryImages := {[ "security" := "/images/security.svg" ]};
     getCategoryName := fun key _ => key |}.

Definition sampleOptions : FormatterOptions :=
  {| opt_status := None;
     opt_scanTime := None;
     opt_date := None;
     opt_version := None;
     opt_isScanner := None |}.

Definition optionsWithScanTime (q : Q) : FormatterOptions :=
  {| opt_status := None;
     opt_scanTime := Some q;
     opt_date := None;
     opt_version := None;
     opt_isScanner := None |}.

Definition problemA : Problem.t :=
  {| Problem.hintId := "axe/aria";
     Problem.category := "Security";
     Problem.severity := error;
     Problem.message := "first" |}.

Definition problemB : Problem.t :=
  {| Problem.hintId := "AXE/ARIA";
     Problem.category := "security";
     Problem.severity := warning;
     Problem.message := "second" |}.

Definition problemC : Problem.t :=
  {| Problem.hintId := "no-vulnerable-libraries";
     Problem.category := "SECURITY";
     Problem.severity := error;
     Problem.message := "third" |}.

Definition problemD : Problem.t :=
  {| Problem.hintId := "axe/aria";
     Problem.category := "Security";
     Problem.severity := off;
     Problem.message := "fourth" |}.

(** ** Counting, well-formedness and the statements' vocabulary *)

Local Open Scope list_scope.

(** The number of problems of [ps] that satisfy [f]. *)
Definition countWhere (f : Severity -> bool) (ps : list Problem.t) : Z :=
  Z.of_nat (length (List.filter (fun p => f (Problem.severity p)) ps)).

Arguments countWhere : simpl never.

(** The lower-cased name of the hint a reference denotes. *)
Definition hintLowerNameAt (hp : list HintResult.t) (hint : loc) : string :=
  match hp !! hint with
  | Some h => toLowerCase (HintResult.name h)
  | None => EmptyString
  end.

(** A category is well formed when its references are live and distinct,
    its cache only names hints of [hints] under their lower-cased name, its
    counters agree with the problems stored, and no two hints of [hints]
    have the same lower-cased name. *)
Record CategoryWf (c : CategoryResult.t) : Prop := mkCategoryWf
  { cwf_live : forall l : loc,
      l ∈ CategoryResult.hints c ++ CategoryResult.passed c ->
      (l < length (CategoryResult.heap c))%nat;
    cwf_nodup : NoDup (CategoryResult.hints c ++ CategoryResult.passed c);
    cwf_cache : forall (k : string) (l : loc),
      CategoryResult.cache c !! k = Some l ->
      l ∈ CategoryResult.hints c /\
      exists h, CategoryResult.heap c !! l = Some h /\
                toLowerCase (HintResult.name h) = k;
    cwf_count :
      CategoryResult.hintsCount c =
      countWhere CategoryResult.counted (CategoryResult.heldProblems c);
    cwf_hint_count : forall (l : loc) (h : HintResult.t),
      CategoryResult.heap c !! l = Some h ->
      HintResult.count h = Z.of_nat (length (HintResult.problems h));
    cwf_names :
      NoDup (map (hintLowerNameAt (CategoryResult.heap c))
                 (CategoryResult.hints c)) }.

(** The lower-cased name of the category a reference denotes. *)
Definition lowerNameOf (a : AnalysisResult.t) (category : loc) : string :=
  match AnalysisResult.heap a !! category with
  | Some c => toLowerCase (CategoryResult.name c)
  | None => EmptyString
  end.

(** The result is well formed when its references are live, no two
    categories of [categories] have the same lower-cased name, the cache
    only names categories of [categories] under their lower-cased name, the
    total is the sum of the categories' counts, and every category is well
    formed. *)
Record AnalysisWf (a : AnalysisResult.t) : Prop := mkAnalysisWf
  { awf_live : forall c : loc,
      c ∈ AnalysisResult.categories a ->
      (c < length (AnalysisResult.heap a))%nat;
    awf_names : NoDup (map (lowerNameOf a) (AnalysisResult.categories a));
    awf_cache : forall (k : string) (c : loc),
      AnalysisResult.cache a !! k = Some c ->
      c ∈ AnalysisResult.categories a /\
      exists cat, AnalysisResult.heap a !! c = Some cat /\
                  toLowerCase (CategoryResult.name cat) = k;
    awf_total : AnalysisResult.hintsCount a = AnalysisResult.categoriesTotal a;
    awf_cats : forall (c : loc) (cat : CategoryResult.t),
      AnalysisResult.heap a !! c = Some cat -> CategoryWf cat }.

(** No category of [categories] answers to [name]. *)
Definition categoryAbsent (name : string) (a : AnalysisResult.t) : Prop :=
  forall c : loc, c ∈ AnalysisResult.categories a ->
                  lowerNameOf a c <> toLowerCase name.

(** No hint of [hints] or [passed] answers to [name]. *)
Definition hintAbsent (name : string) (c : CategoryResult.t) : Prop :=
  forall (l : loc) (h : HintResult.t),
    l ∈ CategoryResult.hints c ++ CategoryResult.passed c ->
    CategoryResult.heap c !! l = Some h ->
    toLowerCase (HintResult.name h) <> toLowerCase name.

(** The test "neither [off] nor [default]", spelled out. *)
Definition neitherOffNorDefault (p : Problem.t) : bool :=
  bool_decide (Problem.severity p <> off /\ Problem.severity p <> default).

(** A call that registers the category answering to [name], looks it up,
    or reports a problem in it. *)
Definition targets (name : string) (k : AnalysisResult.call) : Prop :=
  match k with
  | AnalysisResult.GetCategoryByName _ => True
  | AnalysisResult.AddProblem p _ =>
      toLowerCase (Problem.category p) = toLowerCase name
  | AnalysisResult.AddCategory n _ => toLowerCase n = toLowerCase name
  | AnalysisResult.RemoveCategory _ => False
  end.

(** The result has the categories [cats0] and the total [total0], but for
    the category answering to [name], which is the last one when there is
    one, and for its count. *)
Definition grownBy (name : string) (cats0 : list loc) (total0 : Z)
    (a : AnalysisResult.t) : Prop :=
  (AnalysisResult.categories a = cats0 /\
   AnalysisResult.hintsCount a = total0 /\
   categoryAbsent name a) \/
  (exists (c : loc) (cat : CategoryResult.t),
     AnalysisResult.categories a = cats0 ++ [c] /\
     AnalysisResult.heap a !! c = Some cat /\
     toLowerCase (CategoryResult.name cat) = toLowerCase name /\
     AnalysisResult.hintsCount a = total0 + CategoryResult.hintsCount cat).

(** [z] in decimal, with a leading zero below ten. *)
Definition twoDigits (z : Z) : string :=
  if z <? 10
  then ("0" ++ AnalysisResult.numberToString z)%string
  else AnalysisResult.numberToString z.

(** [[hh:]mm:ss] for a whole number [ms] of milliseconds, in integer
    arithmetic: the hours are not reduced and are left out when zero. *)
Definition elapsedFormat (ms : Z) : string :=
  let seconds := (ms / 1000) mod 60 in
  let minutes := (ms / 1000 / 60) mod 60 in
  let hours := ms / 1000 / 3600 in
  let time := (twoDigits minutes ++ ":" ++ twoDigits seconds)%string in
  if 0 <? hours then (twoDigits hours ++ ":" ++ time)%string else time.

(** The problems a sequence of calls reports to a category, in call
    order. *)
Definition categoryReported (ks : list CategoryResult.call) : list Problem.t :=
  flat_map (fun k => match k with
                     | CategoryResult.AddProblem p => [p]
                     | _ => []
                     end) ks.

(** The problems a sequence of calls reports to a result, in call order. *)
Definition analysisReported (ks : list AnalysisResult.call) : list Problem.t :=
  flat_map (fun k => match k with
                     | AnalysisResult.AddProblem p _ => [p]
                     | _ => []
                     end) ks.

(** A call other than [removeCategory]. *)
Definition removesNothing (k : AnalysisResult.call) : Prop :=
  match k with
  | AnalysisResult.RemoveCategory _ => False
  | _ => True
  end.

(** [p] is reported for the hint with the lower-cased name [k]. *)
Definition hintIdIs (k : string) (p : Problem.t) : bool :=
  String.eqb (toLowerCase (Problem.hintId p)) k.

(** [pl] is reported for the category with the lower-cased name [k]. *)
Definition categoryIs (k : string) (pl : Problem.t * option string) : bool :=
  String.eqb (toLowerCase (Problem.category (fst pl))) k.

(** The calls that report the problems [ps] to a category. *)
Definition reportToCategory (ps : list Problem.t) : list CategoryResult.call :=
  map CategoryResult.AddProblem ps.

(** The calls that report the problems [pls], each with its language, to a
    result. *)
Definition reportToAnalysis (pls : list (Problem.t * option string)) :
    list AnalysisResult.call :=
  map (fun pl => AnalysisResult.AddProblem (fst pl) (snd pl)) pls.

(** [h'] is [h] after more problems: the same name, status, third-party
    information and documentation flag, and the problems of [h] followed by
    further ones, counted. *)
Definition hintExtends (h h' : HintResult.t) : Prop :=
  HintResult.name h' = HintResult.name h /\
  HintResult.status h' = HintResult.status h /\
  HintResult.thirdPartyInfo h' = HintResult.thirdPartyInfo h /\
  HintResult.hasDoc h' = HintResult.hasDoc h /\
  exists more : list Problem.t,
    HintResult.problems h' = HintResult.problems h ++ more /\
    HintResult.count h' = HintResult.count h + Z.of_nat (length more).

(** Every hint of the table [hp] is in [hp'] under the same reference,
    after more problems. *)
Definition hintsExtend (hp hp' : list HintResult.t) : Prop :=
  forall (l : loc) (h : HintResult.t),
    hp !! l = Some h -> exists h', hp' !! l = Some h' /\ hintExtends h h'.

(** [cat'] is [cat] after more calls: the same name, localized name, image,
    status, address and scanner flag, hints that only grew, and a count
    that did not go down. *)
Definition categoryKeeps (cat cat' : CategoryResult.t) : Prop :=
  CategoryResult.name cat' = CategoryResult.name cat /\
  CategoryResult.localizedName cat' = CategoryResult.localizedName cat /\
  CategoryResult.image cat' = CategoryResult.image cat /\
  CategoryResult.status cat' = CategoryResult.status cat /\
  CategoryResult.url cat' = CategoryResult.url cat /\
  CategoryResult.isScanner cat' = CategoryResult.isScanner cat /\
  hintsExtend (CategoryResult.heap cat) (CategoryResult.heap cat') /\
  CategoryResult.hintsCount cat <= CategoryResult.hintsCount cat'.

(** Every category of the table [hp] is in [hp'] under the same reference,
    after more calls. *)
Definition categoriesKeep (hp hp' : list CategoryResult.t) : Prop :=
  forall (c : loc) (cat : CategoryResult.t),
    hp !! c = Some cat -> exists cat', hp' !! c = Some cat' /\ categoryKeeps cat cat'.

(** A category created for a result with the address [u] and the scanner
    flag [sc]. *)
Definition configuredFor (u : string) (sc : bool) (cat : CategoryResult.t) : Prop :=
  CategoryResult.url cat = u /\
  CategoryResult.isScanner cat = sc /\
  CategoryResult.status cat = "finished".

(** Every hint of [passed] has the status ["pass"] and no problem. *)
Definition passedClean (c : CategoryResult.t) : Prop :=
  forall l : loc, l ∈ CategoryResult.passed c ->
    exists h, CategoryResult.heap c !! l = Some h /\
              HintResult.status h = "pass" /\
              HintResult.problems h = [] /\
              HintResult.count h = 0.

(** The hints of [c] group the problems [ps] by hint id, without regard to
    case: nothing is in [passed], every problem has its hint in [hints],
    and every hint of [hints] has the id and the severity of the first
    problem reported for it as its name and status, and the problems
    reported for it, in the order of [ps], as its problems. *)
Definition hintsGrouped (ps : list Problem.t) (c : CategoryResult.t) : Prop :=
  CategoryResult.passed c = [] /\
  (forall p : Problem.t, p ∈ ps ->
     exists l : loc,
       l ∈ CategoryResult.hints c /\
       hintLowerNameAt (CategoryResult.heap c) l = toLowerCase (Problem.hintId p)) /\
  (forall (l : loc) (h : HintResult.t),
     l ∈ CategoryResult.hints c -> CategoryResult.heap c !! l = Some h ->
     exists p0 : Problem.t,
       List.find (hintIdIs (toLowerCase (HintResult.name h))) ps = Some p0 /\
       HintResult.name h = Problem.hintId p0 /\
       HintResult.status h = Severity_name (Problem.severity p0) /\
       HintResult.problems h
       = List.filter (hintIdIs (toLowerCase (HintResult.name h))) ps).

(** The categories of [a] group the reports [pls] by category, without
    regard to case: every report has its category in [categories], and
    every category of [categories] is the category created for the first
    report in it, under that report's spelling and language, and given the
    problems reported in it, in the order of [pls]. *)
Definition categoriesGrouped (env : Env) (target : string) (sc : bool)
    (pls : list (Problem.t * option string)) (a : AnalysisResult.t) : Prop :=
  (forall pl : Problem.t * option string, pl ∈ pls ->
     exists c : loc,
       c ∈ AnalysisResult.categories a /\
       lowerNameOf a c = toLowerCase (Problem.category (fst pl))) /\
  (forall (c : loc) (cat : CategoryResult.t),
     c ∈ AnalysisResult.categories a -> AnalysisResult.heap a !! c = Some cat ->
     exists pl0 : Problem.t * option string,
       List.find (categoryIs (toLowerCase (CategoryResult.name cat))) pls = Some pl0 /\
       cat = CategoryResult.run env
               (reportToCategory
                  (map fst (List.filter
                              (categoryIs (toLowerCase (CategoryResult.name cat))) pls)))
               (CategoryResult.new env (Problem.category (fst pl0)) target sc
                  (snd pl0))).

(** * Properties *)

(** ** Strings *)

Lemma lower_ascii_idem (c : ascii) : lower_ascii (lower_ascii c) = lower_ascii c.
Proof. destruct c as [[] [] [] [] [] [] [] []]; reflexivity. Qed.

Lemma toLowerCase_idem (s : string) : toLowerCase (toLowerCase s) = toLowerCase s.
Proof.
  induction s as [|c r IH]; simpl; [reflexivity|].
  now rewrite lower_ascii_idem, IH.
Qed.

Lemma countWhere_app (f : Severity -> bool) (xs ys : list Problem.t) :
  countWhere f (xs ++ ys) = countWhere f xs + countWhere f ys.
Proof.
  unfold countWhere. rewrite List.filter_app, length_app. lia.
Qed.

Lemma countWhere_one (f : Severity -> bool) (p : Problem.t) :
  countWhere f [p] = if f (Problem.severity p) then 1 else 0.
Proof. unfold countWhere. simpl. now destruct (f (Problem.severity p)). Qed.

(** On the four severities the test of the category and the test of the
    result select the same problems. *)
Lemma counted_agree (s : Severity) :
  AnalysisResult.counted s = CategoryResult.counted s.
Proof. now destruct s. Qed.

(** ** [HintResult] *)

Lemma HintResult_addProblems (ps : list Problem.t) (h : HintResult.t) :
  HintResult.problems (fold_left (fun h p => HintResult.addProblem p h) ps h)
    = HintResult.problems h ++ ps /\
  HintResult.count (fold_left (fun h p => HintResult.addProblem p h) ps h)
    = HintResult.count h + Z.of_nat (length ps).
Proof.
  revert h. induction ps as [|p ps IH]; intros h; simpl.
  - rewrite app_nil_r. split; [reflexivity | lia].
  - destruct (IH (HintResult.addProblem p h)) as [Hp Hc].
    rewrite Hp, Hc. simpl. rewrite <- app_assoc. simpl. split; [reflexivity | lia].
Qed.
(** ** [CategoryResult] *)

Lemma problemsAt_ext (hp1 hp2 : list HintResult.t) (ls : list loc) :
  (forall l : loc, l ∈ ls -> hp1 !! l = hp2 !! l) ->
  map (CategoryResult.problemsAt hp1) ls = map (CategoryResult.problemsAt hp2) ls.
Proof.
  intros H. apply map_ext_in. intros l Hl.
  unfold CategoryResult.problemsAt. rewrite H; [reflexivity|].
  now apply list_elem_of_In.
Qed.

Lemma problemsAt_alter_ne (f : HintResult.t -> HintResult.t)
    (hp : list HintResult.t) (l x : loc) :
  l <> x ->
  CategoryResult.problemsAt (alter f l hp) x = CategoryResult.problemsAt hp x.
Proof.
  intros Hne. unfold CategoryResult.problemsAt.
  now rewrite list_lookup_alter_ne.
Qed.

Lemma problemsAt_alter_eq (p : Problem.t) (hp : list HintResult.t) (l : loc) :
  (l < length hp)%nat ->
  CategoryResult.problemsAt (alter (HintResult.addProblem p) l hp) l
  = CategoryResult.problemsAt hp l ++ [p].
Proof.
  intros Hlt. unfold CategoryResult.problemsAt.
  rewrite list_lookup_alter_eq.
  destruct (lookup_lt_is_Some_2 hp l Hlt) as [h Hh].
  now rewrite Hh.
Qed.

Lemma held_alter_count (g : Severity -> bool) (p : Problem.t)
    (hp : list HintResult.t) (l : loc) (ls : list loc) :
  NoDup ls -> l ∈ ls -> (l < length hp)%nat ->
  countWhere g (concat (map (CategoryResult.problemsAt
                               (alter (HintResult.addProblem p) l hp)) ls))
  = countWhere g (concat (map (CategoryResult.problemsAt hp) ls))
    + countWhere g [p].
Proof.
  intros Hnd Hin Hlt. induction ls as [|x r IH]; [inversion Hin|].
  apply NoDup_cons in Hnd as [Hx Hr]. simpl. rewrite !countWhere_app.
  destruct (decide (x = l)) as [->|Hne].
  - rewrite (problemsAt_ext (alter (HintResult.addProblem p) l hp) hp r).
    + rewrite problemsAt_alter_eq by assumption.
      rewrite countWhere_app. lia.
    + intros l' Hl'. apply list_lookup_alter_ne. intros ->. contradiction.
  - apply elem_of_cons in Hin as [->|Hin]; [contradiction|].
    rewrite (IH Hr Hin).
    rewrite problemsAt_alter_ne by congruence. lia.
Qed.

Lemma CategoryResult_new_wf env name url isScanner language :
  CategoryWf (CategoryResult.new env name url isScanner language).
Proof.
  constructor; simpl.
  - intros l Hl. inversion Hl.
  - constructor.
  - intros k l Hk. rewrite lookup_empty in Hk. discriminate.
  - reflexivity.
  - intros l h Hl. rewrite lookup_nil in Hl. discriminate.
  - constructor.
Qed.

Lemma hintLowerNameAt_ext (hp1 hp2 : list HintResult.t) (ls : list loc) :
  (forall l : loc, l ∈ ls ->
     HintResult.name <$> hp1 !! l = HintResult.name <$> hp2 !! l) ->
  map (hintLowerNameAt hp1) ls = map (hintLowerNameAt hp2) ls.
Proof.
  intros H. apply map_ext_in. intros l Hl. apply list_elem_of_In in Hl.
  specialize (H l Hl). unfold hintLowerNameAt.
  destruct (hp1 !! l), (hp2 !! l); simpl in H; congruence.
Qed.

Lemma nameMatches_false (c : CategoryResult.t) (k : string) (l : loc) :
  CategoryWf c -> l ∈ CategoryResult.hints c ->
  CategoryResult.nameMatches c k l = false ->
  hintLowerNameAt (CategoryResult.heap c) l <> k.
Proof.
  intros W Hl Hm.
  assert (Hlt : (l < length (CategoryResult.heap c))%nat).
  { apply (cwf_live c W), elem_of_app. now left. }
  destruct (lookup_lt_is_Some_2 _ _ Hlt) as [h Hh].
  unfold CategoryResult.nameMatches in Hm. unfold hintLowerNameAt.
  rewrite Hh in *. now apply String.eqb_neq.
Qed.

(** What [getHintByName] returns on a well-formed category: a hint of
    [hints] with that name, or nothing when [hints] has none; only the
    cache may change. *)
Lemma getHintByName_wf (n : string) (c : CategoryResult.t) :
  CategoryWf c ->
  CategoryWf (snd (CategoryResult.getHintByName n c)) /\
  snd (CategoryResult.getHintByName n c)
    = CategoryResult.set_cache
        (CategoryResult.cache (snd (CategoryResult.getHintByName n c))) c /\
  match fst (CategoryResult.getHintByName n c) with
  | Some l => l ∈ CategoryResult.hints c /\
              exists h, CategoryResult.heap c !! l = Some h /\
                        toLowerCase (HintResult.name h) = toLowerCase n
  | None => snd (CategoryResult.getHintByName n c) = c /\
            forall l, l ∈ CategoryResult.hints c ->
                      CategoryResult.nameMatches c (toLowerCase n) l = false
  end.
Proof.
  intros W. unfold CategoryResult.getHintByName.
  destruct (CategoryResult.cache c !! toLowerCase n) as [l|] eqn:Hc; simpl.
  - split; [exact W|]. split; [now destruct c|]. exact (cwf_cache c W _ _ Hc).
  - destruct (List.find _ _) as [l|] eqn:Hf; simpl.
    + apply List.find_some in Hf as [Hin Hm].
      apply list_elem_of_In in Hin.
      unfold CategoryResult.nameMatches in Hm.
      destruct (CategoryResult.heap c !! l) as [h|] eqn:Hh; [|discriminate].
      apply String.eqb_eq in Hm.
      split; [|split; [reflexivity|]; split; [exact Hin|]; eauto].
      destruct W as [W1 W2 W3 W4 W5 W6]. constructor; simpl; try assumption.
      intros k l' Hk. apply lookup_insert_Some in Hk as [[<- <-]|[_ Hk]].
      * split; [exact Hin|]. eauto.
      * now apply W3.
    + split; [exact W|]. split; [now destruct c|]. split; [reflexivity|].
      intros l Hl. apply (List.find_none _ _ Hf). now apply list_elem_of_In.
Qed.

Lemma fresh_not_live (c : CategoryResult.t) :
  CategoryWf c ->
  length (CategoryResult.heap c)
    ∉ CategoryResult.hints c ++ CategoryResult.passed c.
Proof. intros W Hin. apply (cwf_live c W) in Hin. lia. Qed.

Lemma held_after_alloc (hp : list HintResult.t) (h0 : HintResult.t)
    (ls : list loc) :
  (forall l : loc, l ∈ ls -> (l < length hp)%nat) ->
  map (CategoryResult.problemsAt (hp ++ [h0])) ls
  = map (CategoryResult.problemsAt hp) ls.
Proof.
  intros H. apply problemsAt_ext. intros l Hl. apply lookup_app_l. auto.
Qed.

Lemma problemsAt_fresh (hp : list HintResult.t) (h0 : HintResult.t) :
  CategoryResult.problemsAt (hp ++ [h0]) (length hp) = HintResult.problems h0.
Proof.
  unfold CategoryResult.problemsAt.
  now rewrite lookup_app_r, Nat.sub_diag by lia.
Qed.

(** Filing a new hint without problems keeps the category well formed:
    in [passed], and in [hints] when no hint of [hints] has its name. *)
Lemma push_hint_wf (toPassed : bool) (h0 : HintResult.t) (c : CategoryResult.t) :
  CategoryWf c ->
  HintResult.problems h0 = [] -> HintResult.count h0 = 0 ->
  (toPassed = false ->
   forall l : loc, l ∈ CategoryResult.hints c ->
     hintLowerNameAt (CategoryResult.heap c) l <> toLowerCase (HintResult.name h0)) ->
  let hint := length (CategoryResult.heap c) in
  let c1 := CategoryResult.set_heap (CategoryResult.heap c ++ [h0]) c in
  CategoryWf (if toPassed
              then CategoryResult.set_passed (CategoryResult.passed c1 ++ [hint]) c1
              else CategoryResult.set_hints (CategoryResult.hints c1 ++ [hint]) c1).
Proof.
  intros W Hp Hc Hname hint c1.
  pose proof (fresh_not_live c W) as Hfresh.
  destruct W as [W1 W2 W3 W4 W5 W6].
  assert (Hnames : map (hintLowerNameAt (CategoryResult.heap c ++ [h0]))
                       (CategoryResult.hints c)
                   = map (hintLowerNameAt (CategoryResult.heap c))
                       (CategoryResult.hints c)).
  { apply hintLowerNameAt_ext. intros l Hl. f_equal. apply lookup_app_l.
    apply W1, elem_of_app. now left. }
  assert (Hold : forall l, l ∈ CategoryResult.hints c ++ CategoryResult.passed c ->
                           (l < length (CategoryResult.heap c ++ [h0]))%nat).
  { intros l Hl. rewrite length_app. specialize (W1 l Hl). simpl. lia. }
  assert (Hnew : (hint < length (CategoryResult.heap c ++ [h0]))%nat).
  { subst hint. rewrite length_app. simpl. lia. }
  assert (Hheld :
    forall xs ys,
      (forall l, l ∈ xs ++ ys -> (l < length (CategoryResult.heap c))%nat) ->
      concat (map (CategoryResult.problemsAt (CategoryResult.heap c ++ [h0]))
                  (xs ++ [hint] ++ ys))
      = concat (map (CategoryResult.problemsAt (CategoryResult.heap c)) (xs ++ ys))).
  { intros xs ys Hsub. rewrite !map_app, !concat_app. simpl.
    subst hint. rewrite problemsAt_fresh, Hp. simpl.
    rewrite !held_after_alloc; [reflexivity| |].
    - intros l Hl. apply Hsub, elem_of_app. now right.
    - intros l Hl. apply Hsub, elem_of_app. now left. }
  destruct toPassed; constructor; simpl.
  - intros l Hl. rewrite app_assoc in Hl.
    apply elem_of_app in Hl as [Hl|Hl]; [auto|].
    apply list_elem_of_singleton in Hl as ->. exact Hnew.
  - rewrite app_assoc. apply NoDup_app. split; [exact W2|].
    split; [|apply NoDup_singleton].
    intros x Hx Hx'. apply list_elem_of_singleton in Hx' as ->. contradiction.
  - intros k l Hk. destruct (W3 k l Hk) as [Hin [h [Hh Hn]]].
    split; [exact Hin|]. exists h. split; [|exact Hn].
    now apply lookup_app_l_Some.
  - unfold CategoryResult.heldProblems. simpl.
    rewrite W4. unfold CategoryResult.heldProblems.
    f_equal. symmetry.
    rewrite app_assoc.
    replace ((CategoryResult.hints c ++ CategoryResult.passed c) ++ [hint])
      with ((CategoryResult.hints c ++ CategoryResult.passed c) ++ [hint] ++ [])
      by reflexivity.
    rewrite Hheld; [now rewrite app_nil_r|].
    intros l Hl. rewrite app_nil_r in Hl. auto.
  - intros l h Hl. apply lookup_app_Some in Hl as [Hl|[_ Hl]]; [eauto|].
    apply list_lookup_singleton_Some in Hl as [_ <-]. rewrite Hp, Hc. reflexivity.
  - now rewrite Hnames.
  - intros l Hl. rewrite <- app_assoc in Hl.
    apply elem_of_app in Hl as [Hl|Hl];
      [apply Hold, elem_of_app; now left|].
    apply elem_of_cons in Hl as [->|Hl];
      [exact Hnew|apply Hold, elem_of_app; now right].
  - rewrite <- app_assoc. simpl. apply NoDup_app in W2 as (Wh & Wd & Wp).
    apply NoDup_app. split; [exact Wh|]. split.
    + intros x Hx Hx'. apply elem_of_cons in Hx' as [->|Hx'].
      * apply Hfresh, elem_of_app. now left.
      * exact (Wd x Hx Hx').
    + apply NoDup_cons. split; [|exact Wp].
      intros Hx. apply Hfresh, elem_of_app. now right.
  - intros k l Hk. destruct (W3 k l Hk) as [Hin [h [Hh Hn]]].
    split; [apply elem_of_app; now left|]. exists h. split; [|exact Hn].
    now apply lookup_app_l_Some.
  - unfold CategoryResult.heldProblems. simpl.
    rewrite W4. unfold CategoryResult.heldProblems.
    f_equal. symmetry. rewrite <- app_assoc.
    apply Hheld. exact W1.
  - intros l h Hl. apply lookup_app_Some in Hl as [Hl|[_ Hl]]; [eauto|].
    apply list_lookup_singleton_Some in Hl as [_ <-]. rewrite Hp, Hc. reflexivity.
  - rewrite map_app, Hnames. apply NoDup_app. split; [exact W6|].
    split; [|apply NoDup_singleton].
    intros x Hx Hx'. apply list_elem_of_singleton in Hx'.
    apply list_elem_of_In, in_map_iff in Hx as (l & Hlx & Hl).
    apply list_elem_of_In in Hl. apply (Hname eq_refl l Hl).
    rewrite Hlx, Hx'. unfold hintLowerNameAt. subst hint.
    now rewrite lookup_app_r, Nat.sub_diag by lia.
Qed.

Lemma addHint_wf env (n s : string) (c : CategoryResult.t) :
  CategoryWf c -> CategoryWf (snd (CategoryResult.addHint env n s c)).
Proof.
  intros W. unfold CategoryResult.addHint.
  destruct (getHintByName_wf n c W) as (W1 & _ & Hres).
  destruct (CategoryResult.getHintByName n c) as [[l|] c1]; simpl in *;
    [exact W1|].
  unfold CategoryResult.allocHint.
  destruct Hres as [-> Hres].
  pose proof (push_hint_wf (String.eqb s "pass")
                (HintResult.new env n s (CategoryResult.url c)
                   (CategoryResult.isScanner c)) c W eq_refl eq_refl) as H.
  simpl in H. destruct (String.eqb s "pass"); apply H; try discriminate;
    intros _ l Hl; now apply nameMatches_false, Hres.
Qed.

(** The hint [addProblem] resolves is a live hint of [hints]; resolving
    changes neither the count nor the name of the category. *)
Lemma resolveHint_wf env (p : Problem.t) (c : CategoryResult.t) :
  CategoryWf c ->
  CategoryWf (snd (CategoryResult.resolveHint env p c)) /\
  fst (CategoryResult.resolveHint env p c)
    ∈ CategoryResult.hints (snd (CategoryResult.resolveHint env p c)).
Proof.
  intros W. unfold CategoryResult.resolveHint.
  destruct (getHintByName_wf (Problem.hintId p) c W) as (W1 & Hsame & Hres).
  destruct (CategoryResult.getHintByName (Problem.hintId p) c) as [[l|] c1];
    simpl in *.
  - split; [exact W1|]. rewrite Hsame. simpl. tauto.
  - destruct Hres as [-> Hres]. split.
    + apply (push_hint_wf false
               (HintResult.new env (Problem.hintId p)
                  (Severity_name (Problem.severity p))
                  (CategoryResult.url c) (CategoryResult.isScanner c))
               c W eq_refl eq_refl).
      intros _ l Hl. now apply nameMatches_false, Hres.
    + apply elem_of_app. right. now apply list_elem_of_singleton.
Qed.

(** Appending a problem to a hint of [hints], with the count raised when
    the severity counts, keeps the category well formed. *)
Lemma append_wf (p : Problem.t) (l : loc) (c : CategoryResult.t) :
  CategoryWf c -> l ∈ CategoryResult.hints c ->
  CategoryWf
    (CategoryResult.set_heap
       (alter (HintResult.addProblem p) l
          (CategoryResult.heap
             (if CategoryResult.counted (Problem.severity p)
              then CategoryResult.set_hintsCount (CategoryResult.hintsCount c + 1) c
              else c)))
       (if CategoryResult.counted (Problem.severity p)
        then CategoryResult.set_hintsCount (CategoryResult.hintsCount c + 1) c
        else c)).
Proof.
  intros W Hl.
  assert (Hl' : l ∈ CategoryResult.hints c ++ CategoryResult.passed c)
    by (apply elem_of_app; now left).
  pose proof (cwf_live c W l Hl') as Hlt.
  pose proof (held_alter_count CategoryResult.counted p
                (CategoryResult.heap c) l _ (cwf_nodup c W) Hl' Hlt) as Hcnt.
  rewrite countWhere_one in Hcnt.
  destruct W as [W1 W2 W3 W4 W5 W6].
  assert (Hnames : map (hintLowerNameAt
                          (alter (HintResult.addProblem p) l (CategoryResult.heap c)))
                       (CategoryResult.hints c)
                   = map (hintLowerNameAt (CategoryResult.heap c))
                       (CategoryResult.hints c)).
  { apply hintLowerNameAt_ext. intros x _. destruct (decide (l = x)) as [<-|Hne].
    - rewrite list_lookup_alter_eq. now destruct (CategoryResult.heap c !! l).
    - now rewrite list_lookup_alter_ne. }
  assert (Hlook : forall i h,
            alter (HintResult.addProblem p) l (CategoryResult.heap c) !! i = Some h ->
            exists h0, CategoryResult.heap c !! i = Some h0 /\
                       HintResult.name h = HintResult.name h0 /\
                       (HintResult.count h0 = Z.of_nat (length (HintResult.problems h0)) ->
                        HintResult.count h = Z.of_nat (length (HintResult.problems h)))).
  { intros i h Hi. destruct (decide (l = i)) as [<-|Hne].
    - rewrite list_lookup_alter_eq in Hi.
      destruct (CategoryResult.heap c !! l) as [h0|]; simpl in Hi; [|discriminate].
      injection Hi as <-. exists h0. split; [reflexivity|]. split; [reflexivity|].
      simpl. rewrite length_app. simpl. lia.
    - rewrite list_lookup_alter_ne in Hi by assumption. eauto. }
  assert (Hname : forall i h0,
            CategoryResult.heap c !! i = Some h0 ->
            exists h, alter (HintResult.addProblem p) l (CategoryResult.heap c) !! i
                      = Some h /\ HintResult.name h = HintResult.name h0).
  { intros i h0 Hi. destruct (decide (l = i)) as [<-|Hne].
    - rewrite list_lookup_alter_eq, Hi. simpl. eauto.
    - rewrite list_lookup_alter_ne by assumption. eauto. }
  destruct (CategoryResult.counted (Problem.severity p)); constructor; simpl;
    try assumption;
    try (intros x Hx; rewrite length_alter; now apply W1);
    try (intros k x Hk; destruct (W3 k x Hk) as (Hin & h0 & Hh0 & Hn);
         split; [exact Hin|]; destruct (Hname x h0 Hh0) as (h & Hh & Hnm);
         exists h; split; [exact Hh|congruence]);
    try (intros i h Hi; destruct (Hlook i h Hi) as (h0 & Hh0 & _ & Hc);
         apply Hc; eauto);
    try (now rewrite Hnames).
  - unfold CategoryResult.heldProblems in *. simpl. rewrite Hcnt. lia.
  - unfold CategoryResult.heldProblems in *. simpl. rewrite Hcnt. lia.
Qed.

Lemma addProblem_wf env (p : Problem.t) (c : CategoryResult.t) :
  CategoryWf c -> CategoryWf (CategoryResult.addProblem env p c).
Proof.
  intros W. unfold CategoryResult.addProblem.
  destruct (resolveHint_wf env p c W) as [W1 Hin].
  destruct (CategoryResult.resolveHint env p c) as [l c1]. simpl in *.
  now apply append_wf.
Qed.

Lemma CategoryResult_step_wf env (c : CategoryResult.t) (k : CategoryResult.call) :
  CategoryWf c -> CategoryWf (CategoryResult.step env c k).
Proof.
  intros W. destruct k as [n|n s|p]; simpl.
  - now apply getHintByName_wf.
  - now apply addHint_wf.
  - now apply addProblem_wf.
Qed.

Lemma CategoryResult_run_wf env (ks : list CategoryResult.call)
    (c : CategoryResult.t) :
  CategoryWf c -> CategoryWf (CategoryResult.run env ks c).
Proof.
  revert c. induction ks as [|k ks IH]; intros c W; simpl; [exact W|].
  apply IH. now apply CategoryResult_step_wf.
Qed.

(** [addProblem] never renames a category, and raises its count by one
    exactly for the counted severities. *)
Lemma addProblem_name env (p : Problem.t) (c : CategoryResult.t) :
  CategoryResult.name (CategoryResult.addProblem env p c) = CategoryResult.name c.
Proof.
  unfold CategoryResult.addProblem, CategoryResult.resolveHint,
    CategoryResult.getHintByName, CategoryResult.allocHint.
  destruct (CategoryResult.cache c !! _); [|destruct (List.find _ _)];
    destruct (CategoryResult.counted _); reflexivity.
Qed.

Lemma addProblem_hintsCount env (p : Problem.t) (c : CategoryResult.t) :
  CategoryResult.hintsCount (CategoryResult.addProblem env p c)
  = CategoryResult.hintsCount c
    + (if CategoryResult.counted (Problem.severity p) then 1 else 0).
Proof.
  unfold CategoryResult.addProblem, CategoryResult.resolveHint,
    CategoryResult.getHintByName, CategoryResult.allocHint.
  destruct (CategoryResult.cache c !! _); [|destruct (List.find _ _)];
    destruct (CategoryResult.counted _); simpl; lia.
Qed.
(** ** [AnalysisResult] *)

Lemma indexOfFrom_split (x : loc) (l1 l2 : list loc) (i : Z) :
  x ∉ l1 ->
  AnalysisResult.indexOfFrom x (l1 ++ x :: l2) i = i + Z.of_nat (length l1).
Proof.
  revert i. induction l1 as [|y r IH]; intros i Hx; simpl.
  - rewrite Nat.eqb_refl. lia.
  - apply not_elem_of_cons in Hx as [Hne Hx].
    destruct (Nat.eqb_spec y x) as [->|_]; [contradiction|].
    rewrite IH by assumption. lia.
Qed.

(** [splice(indexOf(c), 1)] takes the first occurrence of [c] out. *)
Lemma splice1_indexOf (c : loc) (l1 l2 : list loc) :
  c ∉ l1 ->
  AnalysisResult.splice1 (AnalysisResult.indexOf c (l1 ++ c :: l2)) (l1 ++ c :: l2)
  = l1 ++ l2.
Proof.
  intros Hc. unfold AnalysisResult.indexOf, AnalysisResult.splice1.
  rewrite indexOfFrom_split by assumption.
  rewrite length_app. simpl.
  destruct (Z.ltb_spec (0 + Z.of_nat (length l1)) 0) as [H|_]; [lia|].
  replace (Z.to_nat (Z.min (0 + Z.of_nat (length l1))
                       (Z.of_nat (length l1 + S (length l2)))))
    with (length l1) by lia.
  rewrite take_app_length.
  replace (l1 ++ c :: l2) with ((l1 ++ [c]) ++ l2) by now rewrite <- app_assoc.
  rewrite drop_app_length'; [reflexivity|].
  rewrite length_app. simpl. lia.
Qed.

Lemma lowerNameOf_ext (a1 a2 : AnalysisResult.t) (ls : list loc) :
  (forall c : loc, c ∈ ls ->
     CategoryResult.name <$> AnalysisResult.heap a1 !! c
     = CategoryResult.name <$> AnalysisResult.heap a2 !! c) ->
  map (lowerNameOf a1) ls = map (lowerNameOf a2) ls.
Proof.
  intros H. apply map_ext_in. intros c Hc. apply list_elem_of_In in Hc.
  specialize (H c Hc). unfold lowerNameOf.
  destruct (AnalysisResult.heap a1 !! c), (AnalysisResult.heap a2 !! c);
    simpl in H; congruence.
Qed.

Lemma categoriesTotal_ext (a1 a2 : AnalysisResult.t) (ls : list loc) :
  (forall c : loc, c ∈ ls ->
     AnalysisResult.heap a1 !! c = AnalysisResult.heap a2 !! c) ->
  map (AnalysisResult.categoryHintsCount a1) ls
  = map (AnalysisResult.categoryHintsCount a2) ls.
Proof.
  intros H. apply map_ext_in. intros c Hc. apply list_elem_of_In in Hc.
  unfold AnalysisResult.categoryHintsCount. now rewrite (H c Hc).
Qed.

Lemma sum_app (xs ys : list Z) :
  foldr Z.add 0 (xs ++ ys) = foldr Z.add 0 xs + foldr Z.add 0 ys.
Proof. induction xs as [|x r IH]; simpl; lia. Qed.

(** Changing one category of a duplicate-free list changes the sum by the
    difference of its counts. *)
Lemma total_alter (f : CategoryResult.t -> CategoryResult.t)
    (a a' : AnalysisResult.t) (c : loc) (cat : CategoryResult.t)
    (ls : list loc) :
  AnalysisResult.heap a' = alter f c (AnalysisResult.heap a) ->
  AnalysisResult.heap a !! c = Some cat ->
  NoDup ls -> c ∈ ls ->
  foldr Z.add 0 (map (AnalysisResult.categoryHintsCount a') ls)
  = foldr Z.add 0 (map (AnalysisResult.categoryHintsCount a) ls)
    + (CategoryResult.hintsCount (f cat) - CategoryResult.hintsCount cat).
Proof.
  intros Hheap Hcat Hnd Hin.
  apply list_elem_of_split in Hin as (l1 & l2 & ->).
  apply NoDup_app in Hnd as (_ & Hd & Hnd2).
  apply NoDup_cons in Hnd2 as [Hc2 _].
  assert (Hc1 : c ∉ l1) by (intros Hc; apply (Hd c Hc); now left).
  rewrite !map_app, !sum_app. simpl.
  rewrite (categoriesTotal_ext a' a l1), (categoriesTotal_ext a' a l2).
  - unfold AnalysisResult.categoryHintsCount at 2 5.
    rewrite Hheap, list_lookup_alter_eq, Hcat. simpl. lia.
  - intros x Hx. rewrite Hheap. apply list_lookup_alter_ne. congruence.
  - intros x Hx. rewrite Hheap. apply list_lookup_alter_ne. congruence.
Qed.

Lemma AnalysisResult_new_wf (target : string) (options : FormatterOptions) :
  AnalysisWf (AnalysisResult.new target options).
Proof.
  constructor; simpl.
  - intros c Hc. inversion Hc.
  - constructor.
  - intros k c Hk. rewrite lookup_empty in Hk. discriminate.
  - reflexivity.
  - intros c cat Hc. rewrite lookup_nil in Hc. discriminate.
Qed.

(** What [getCategoryByName] returns on a well-formed result: a category of
    [categories] with that name, or nothing when there is none; only the
    cache may change. *)
Lemma getCategoryByName_wf (n : string) (a : AnalysisResult.t) :
  AnalysisWf a ->
  AnalysisWf (snd (AnalysisResult.getCategoryByName n a)) /\
  snd (AnalysisResult.getCategoryByName n a)
    = AnalysisResult.set_cache
        (AnalysisResult.cache (snd (AnalysisResult.getCategoryByName n a))) a /\
  match fst (AnalysisResult.getCategoryByName n a) with
  | Some c => c ∈ AnalysisResult.categories a /\
              exists cat, AnalysisResult.heap a !! c = Some cat /\
                          toLowerCase (CategoryResult.name cat) = toLowerCase n
  | None => snd (AnalysisResult.getCategoryByName n a) = a /\
            categoryAbsent n a
  end.
Proof.
  intros W. unfold AnalysisResult.getCategoryByName.
  destruct (AnalysisResult.cache a !! toLowerCase n) as [c|] eqn:Hc; simpl.
  - split; [exact W|]. split; [now destruct a|]. exact (awf_cache a W _ _ Hc).
  - destruct (List.find _ _) as [c|] eqn:Hf; simpl.
    + apply List.find_some in Hf as [Hin Hm].
      apply list_elem_of_In in Hin.
      unfold AnalysisResult.nameMatches in Hm.
      destruct (AnalysisResult.heap a !! c) as [cat|] eqn:Hh; [|discriminate].
      apply String.eqb_eq in Hm.
      split; [|split; [reflexivity|]; split; [exact Hin|]; eauto].
      destruct W as [W1 W2 W3 W4 W5]. constructor; simpl; try assumption.
      intros k c' Hk. apply lookup_insert_Some in Hk as [[<- <-]|[_ Hk]].
      * split; [exact Hin|]. eauto.
      * now apply W3.
    + split; [exact W|]. split; [now destruct a|]. split; [reflexivity|].
      intros c Hin. apply list_elem_of_In in Hin.
      pose proof (List.find_none _ _ Hf c Hin) as Hm.
      apply list_elem_of_In in Hin.
      unfold AnalysisResult.nameMatches in Hm. unfold lowerNameOf.
      destruct (lookup_lt_is_Some_2 _ _ (awf_live a W c Hin)) as [cat Hcat].
      rewrite Hcat in *. now apply String.eqb_neq.
Qed.

Lemma pushNewCategory_wf env (n : string) (language : option string)
    (a : AnalysisResult.t) :
  AnalysisWf a -> categoryAbsent n a ->
  AnalysisWf (snd (AnalysisResult.pushNewCategory env n language a)).
Proof.
  intros W Habs. unfold AnalysisResult.pushNewCategory. simpl.
  set (cat0 := CategoryResult.new env n (AnalysisResult.url a)
                 (AnalysisResult.isScanner a) language).
  set (a1 := AnalysisResult.set_heap (AnalysisResult.heap a ++ [cat0]) a).
  assert (Hold : forall c, c ∈ AnalysisResult.categories a ->
                   AnalysisResult.heap a1 !! c = AnalysisResult.heap a !! c).
  { intros c Hc. simpl. apply lookup_app_l. exact (awf_live a W c Hc). }
  assert (Hnew : AnalysisResult.heap a1 !! length (AnalysisResult.heap a) = Some cat0).
  { simpl. now rewrite lookup_app_r, Nat.sub_diag by lia. }
  destruct W as [W1 W2 W3 W4 W5]. constructor; simpl.
  - intros c Hc. rewrite length_app. simpl.
    apply elem_of_app in Hc as [Hc|Hc].
    + specialize (W1 c Hc). lia.
    + apply list_elem_of_singleton in Hc as ->. lia.
  - rewrite map_app. simpl.
    change (AnalysisResult.set_categories _ a1) with
      (AnalysisResult.set_categories
         (AnalysisResult.categories a ++ [length (AnalysisResult.heap a)]) a1).
    rewrite (lowerNameOf_ext _ a (AnalysisResult.categories a)).
    + apply NoDup_app. split; [exact W2|]. split; [|apply NoDup_singleton].
      intros x Hx Hx'. apply list_elem_of_singleton in Hx'.
      apply list_elem_of_In, in_map_iff in Hx as (c & Hcx & Hc).
      apply list_elem_of_In in Hc. apply (Habs c Hc).
      rewrite Hcx, Hx'. unfold lowerNameOf. simpl.
      now rewrite lookup_app_r, Nat.sub_diag by lia.
    + intros c Hc. simpl. f_equal. apply lookup_app_l. exact (W1 c Hc).
  - intros k c Hk. destruct (W3 k c Hk) as (Hin & cat & Hcat & Hn).
    split; [apply elem_of_app; now left|]. exists cat. split; [|exact Hn].
    now apply lookup_app_l_Some.
  - unfold AnalysisResult.categoriesTotal. simpl. rewrite map_app, sum_app.
    change (AnalysisResult.set_categories _ a1) with
      (AnalysisResult.set_categories
         (AnalysisResult.categories a ++ [length (AnalysisResult.heap a)]) a1).
    rewrite (categoriesTotal_ext _ a (AnalysisResult.categories a)).
    + simpl. unfold AnalysisResult.categoryHintsCount at 2. simpl.
      rewrite lookup_app_r, Nat.sub_diag by lia. simpl.
      rewrite W4. unfold AnalysisResult.categoriesTotal. lia.
    + intros c Hc. simpl. apply lookup_app_l. exact (W1 c Hc).
  - intros c cat Hc. apply lookup_app_Some in Hc as [Hc|[_ Hc]]; [eauto|].
    apply list_lookup_singleton_Some in Hc as [_ <-].
    apply CategoryResult_new_wf.
Qed.

(** The category [addProblem] resolves is a live category of
    [categories]. *)
Lemma resolveCategory_wf env (p : Problem.t) (language : option string)
    (a : AnalysisResult.t) :
  AnalysisWf a ->
  AnalysisWf (snd (AnalysisResult.resolveCategory env p language a)) /\
  fst (AnalysisResult.resolveCategory env p language a)
    ∈ AnalysisResult.categories
        (snd (AnalysisResult.resolveCategory env p language a)) /\
  AnalysisResult.hintsCount (snd (AnalysisResult.resolveCategory env p language a))
    = AnalysisResult.hintsCount a.
Proof.
  intros W. unfold AnalysisResult.resolveCategory.
  destruct (getCategoryByName_wf (Problem.category p) a W) as (W1 & Hsame & Hres).
  destruct (AnalysisResult.getCategoryByName (Problem.category p) a)
    as [[c|] a1]; simpl in *.
  - split; [exact W1|]. rewrite Hsame. simpl. tauto.
  - destruct Hres as [-> Habs]. split; [|split].
    + now apply pushNewCategory_wf.
    + apply elem_of_app. right. now apply list_elem_of_singleton.
    + reflexivity.
Qed.

Lemma categories_nodup (a : AnalysisResult.t) :
  AnalysisWf a -> NoDup (AnalysisResult.categories a).
Proof.
  intros W. pose proof (awf_names a W) as H.
  induction (AnalysisResult.categories a) as [|x r IH]; [constructor|].
  simpl in H. apply NoDup_cons in H as [Hx Hr]. apply NoDup_cons.
  split; [|auto]. intros Hin. apply Hx.
  apply list_elem_of_In, in_map, list_elem_of_In. exact Hin.
Qed.

(** Forwarding a problem to a category of [categories], with the total
    raised when the severity counts, keeps the result well formed. *)
Lemma forward_wf_gen env (p : Problem.t) (c : loc) (v : Z)
    (a : AnalysisResult.t) :
  AnalysisWf a -> c ∈ AnalysisResult.categories a ->
  v = AnalysisResult.hintsCount a
      + (if AnalysisResult.counted (Problem.severity p) then 1 else 0) ->
  AnalysisWf
    (AnalysisResult.set_heap
       (alter (CategoryResult.addProblem env p) c (AnalysisResult.heap a))
       (AnalysisResult.set_hintsCount v a)).
Proof.
  intros W Hc Hv.
  destruct (lookup_lt_is_Some_2 _ _ (awf_live a W c Hc)) as [cat Hcat].
  set (a' := AnalysisResult.set_heap
               (alter (CategoryResult.addProblem env p) c (AnalysisResult.heap a))
               (AnalysisResult.set_hintsCount v a)).
  pose proof (categories_nodup a W) as Hnd.
  pose proof (total_alter (CategoryResult.addProblem env p) a a' c cat
                (AnalysisResult.categories a) eq_refl Hcat Hnd Hc) as Htot.
  rewrite addProblem_hintsCount, <- counted_agree in Htot.
  assert (Hnames : map (lowerNameOf a') (AnalysisResult.categories a)
                   = map (lowerNameOf a) (AnalysisResult.categories a)).
  { apply lowerNameOf_ext. intros x _. simpl.
    destruct (decide (c = x)) as [<-|Hne].
    - rewrite list_lookup_alter_eq, Hcat. simpl. now rewrite addProblem_name.
    - now rewrite list_lookup_alter_ne. }
  assert (Hlook : forall x cx,
            AnalysisResult.heap a' !! x = Some cx ->
            exists c0, AnalysisResult.heap a !! x = Some c0 /\
                       CategoryResult.name cx = CategoryResult.name c0 /\
                       (CategoryWf c0 -> CategoryWf cx)).
  { intros x cx Hx. simpl in Hx. destruct (decide (c = x)) as [<-|Hne].
    - rewrite list_lookup_alter_eq, Hcat in Hx. simpl in Hx. injection Hx as <-.
      exists cat. split; [exact Hcat|]. split; [apply addProblem_name|].
      apply addProblem_wf.
    - rewrite list_lookup_alter_ne in Hx by assumption. eauto. }
  assert (Hkeep : forall x c0,
            AnalysisResult.heap a !! x = Some c0 ->
            exists cx, AnalysisResult.heap a' !! x = Some cx /\
                       CategoryResult.name cx = CategoryResult.name c0).
  { intros x c0 Hx. simpl. destruct (decide (c = x)) as [<-|Hne].
    - rewrite list_lookup_alter_eq, Hx. simpl. eauto using addProblem_name.
    - rewrite list_lookup_alter_ne by assumption. eauto. }
  destruct W as [W1 W2 W3 W4 W5]. constructor.
  - intros x Hx. simpl. rewrite length_alter. now apply W1.
  - change (AnalysisResult.categories a') with (AnalysisResult.categories a).
    now rewrite Hnames.
  - intros k x Hk. destruct (W3 k x Hk) as (Hin & c0 & Hc0 & Hn).
    split; [exact Hin|]. destruct (Hkeep x c0 Hc0) as (cx & Hcx & Hnm).
    exists cx. split; [exact Hcx|congruence].
  - unfold AnalysisResult.categoriesTotal in *.
    change (AnalysisResult.categories a') with (AnalysisResult.categories a).
    rewrite Htot. simpl. lia.
  - intros x cx Hx. destruct (Hlook x cx Hx) as (c0 & Hc0 & _ & Hw).
    apply Hw. eauto.
Qed.

Lemma AnalysisResult_addProblem_wf env (p : Problem.t)
    (language : option string) (a : AnalysisResult.t) :
  AnalysisWf a -> AnalysisWf (AnalysisResult.addProblem env p language a).
Proof.
  intros W. unfold AnalysisResult.addProblem.
  destruct (resolveCategory_wf env p language a W) as (W1 & Hin & _).
  destruct (AnalysisResult.resolveCategory env p language a) as [c a1].
  simpl in *.
  destruct (AnalysisResult.counted (Problem.severity p)) eqn:E.
  - refine (forward_wf_gen env p c _ a1 W1 Hin _). now rewrite E.
  - replace a1 with (AnalysisResult.set_hintsCount (AnalysisResult.hintsCount a1) a1)
      at 2 by now destruct a1.
    refine (forward_wf_gen env p c _ a1 W1 Hin _). rewrite E. lia.
Qed.

Lemma addCategory_wf env (n : string) (language : option string)
    (a : AnalysisResult.t) :
  AnalysisWf a -> AnalysisWf (AnalysisResult.addCategory env n language a).
Proof.
  intros W. unfold AnalysisResult.addCategory.
  destruct (getCategoryByName_wf n a W) as (W1 & _ & Hres).
  destruct (AnalysisResult.getCategoryByName n a) as [[c|] a1]; simpl in *;
    [exact W1|].
  destruct Hres as [-> Habs]. now apply pushNewCategory_wf.
Qed.

Lemma getCategoryByName_lower (n : string) (a : AnalysisResult.t) :
  AnalysisResult.getCategoryByName (toLowerCase n) a
  = AnalysisResult.getCategoryByName n a.
Proof.
  unfold AnalysisResult.getCategoryByName. now rewrite toLowerCase_idem.
Qed.

Lemma getCategoryByName_absent (n : string) (a : AnalysisResult.t) :
  AnalysisWf a -> categoryAbsent n a ->
  AnalysisResult.getCategoryByName n a = (None, a).
Proof.
  intros W Habs. destruct (getCategoryByName_wf n a W) as (_ & _ & Hres).
  destruct (AnalysisResult.getCategoryByName n a) as [[c|] a1]; simpl in *.
  - destruct Hres as (Hin & cat & Hcat & Hn). exfalso. apply (Habs c Hin).
    unfold lowerNameOf. now rewrite Hcat.
  - now destruct Hres as [-> _].
Qed.

Lemma names_unique (a : AnalysisResult.t) (c c' : loc) :
  AnalysisWf a ->
  c ∈ AnalysisResult.categories a -> c' ∈ AnalysisResult.categories a ->
  lowerNameOf a c = lowerNameOf a c' -> c = c'.
Proof.
  intros W. pose proof (awf_names a W) as H. revert H.
  induction (AnalysisResult.categories a) as [|x r IH]; intros H Hc Hc' He;
    [inversion Hc|].
  simpl in H. apply NoDup_cons in H as [Hx Hr].
  assert (Hmem : forall y, y ∈ r -> lowerNameOf a y ∈ map (lowerNameOf a) r).
  { intros y Hy. apply list_elem_of_In, in_map, list_elem_of_In. exact Hy. }
  apply elem_of_cons in Hc as [->|Hc]; apply elem_of_cons in Hc' as [->|Hc'].
  - reflexivity.
  - exfalso. apply Hx. rewrite He. auto.
  - exfalso. apply Hx. rewrite <- He. auto.
  - auto.
Qed.

(** [removeCategory] for a name that is present: the category is taken out
    of [categories], its count out of the total and its key out of the
    cache. *)
Lemma removeCategory_present (n : string) (a : AnalysisResult.t) (c : loc)
    (cat : CategoryResult.t) :
  AnalysisWf a ->
  c ∈ AnalysisResult.categories a ->
  AnalysisResult.heap a !! c = Some cat ->
  toLowerCase (CategoryResult.name cat) = toLowerCase n ->
  exists l1 l2,
    AnalysisResult.categories a = l1 ++ c :: l2 /\ (c ∉ l1 ++ l2) /\
    AnalysisResult.removeCategory n a
    = AnalysisResult.set_cache (delete (toLowerCase n) (AnalysisResult.cache a))
        (AnalysisResult.set_categories (l1 ++ l2)
           (AnalysisResult.set_hintsCount
              (AnalysisResult.hintsCount a - CategoryResult.hintsCount cat) a)).
Proof.
  intros W Hc Hcat Hn.
  pose proof (categories_nodup a W) as Hnd.
  destruct (list_elem_of_split _ _ Hc) as (l1 & l2 & Hsplit).
  rewrite Hsplit in Hnd. apply NoDup_app in Hnd as (_ & Hd & Hnd2).
  apply NoDup_cons in Hnd2 as [Hc2 _].
  assert (Hc1 : c ∉ l1) by (intros H; apply (Hd c H); now left).
  exists l1, l2. split; [exact Hsplit|]. split.
  { intros H. apply elem_of_app in H as [H|H]; contradiction. }
  unfold AnalysisResult.removeCategory. rewrite getCategoryByName_lower.
  destruct (getCategoryByName_wf n a W) as (_ & Hsame & Hres).
  unfold AnalysisResult.getCategoryByName in *.
  destruct (AnalysisResult.cache a !! toLowerCase n) as [c'|] eqn:Hk; simpl in *.
  - destruct Hres as (Hin' & cat' & Hcat' & Hn').
    assert (c' = c) as ->.
    { apply (names_unique a); try assumption. unfold lowerNameOf.
      rewrite Hcat, Hcat'. congruence. }
    unfold AnalysisResult.categoryHintsCount. rewrite Hcat, Hsplit.
    now rewrite splice1_indexOf.
  - destruct (List.find _ _) as [c'|] eqn:Hf; simpl in *.
    + destruct Hres as (Hin' & cat' & Hcat' & Hn').
      assert (c' = c) as ->.
      { apply (names_unique a); try assumption. unfold lowerNameOf.
        rewrite Hcat, Hcat'. congruence. }
      unfold AnalysisResult.categoryHintsCount. simpl. rewrite Hcat, Hsplit.
      rewrite splice1_indexOf by assumption.
      unfold AnalysisResult.set_cache. simpl. now rewrite delete_insert_eq.
    + destruct Hres as [_ Habs]. exfalso. apply (Habs c Hc).
      unfold lowerNameOf. now rewrite Hcat.
Qed.

Lemma removeCategory_absent (n : string) (a : AnalysisResult.t) :
  AnalysisWf a -> categoryAbsent n a -> AnalysisResult.removeCategory n a = a.
Proof.
  intros W Habs. unfold AnalysisResult.removeCategory.
  rewrite getCategoryByName_lower.
  now rewrite (getCategoryByName_absent n a W Habs).
Qed.

(** Either a name is absent or a live category of [categories] answers
    to it. *)
Lemma absent_or_present (n : string) (a : AnalysisResult.t) :
  AnalysisWf a ->
  categoryAbsent n a \/
  exists c cat, c ∈ AnalysisResult.categories a /\
                AnalysisResult.heap a !! c = Some cat /\
                toLowerCase (CategoryResult.name cat) = toLowerCase n.
Proof.
  intros W. destruct (getCategoryByName_wf n a W) as (_ & _ & Hres).
  destruct (fst (AnalysisResult.getCategoryByName n a)) as [c|].
  - right. destruct Hres as (Hin & cat & Hcat & Hn). eauto.
  - left. tauto.
Qed.

Lemma removeCategory_wf (n : string) (a : AnalysisResult.t) :
  AnalysisWf a -> AnalysisWf (AnalysisResult.removeCategory n a).
Proof.
  intros W. destruct (absent_or_present n a W) as [Habs|(c & cat & Hc & Hcat & Hn)].
  { now rewrite removeCategory_absent. }
  destruct (removeCategory_present n a c cat W Hc Hcat Hn)
    as (l1 & l2 & Hsplit & Hnot & ->).
  pose proof (awf_names a W) as Hnames.
  pose proof (awf_total a W) as Htot.
  unfold AnalysisResult.categoriesTotal in Htot.
  rewrite Hsplit in Hnames, Htot.
  assert (Hsub : forall x, x ∈ l1 ++ l2 -> x ∈ AnalysisResult.categories a).
  { intros x Hx. rewrite Hsplit. apply elem_of_app.
    apply elem_of_app in Hx as [Hx|Hx]; [now left|right; now right]. }
  constructor; simpl.
  - intros x Hx. apply (awf_live a W), Hsub, Hx.
  - change (map _ (l1 ++ l2)) with (map (lowerNameOf a) (l1 ++ l2)).
    rewrite map_app in *. simpl in Hnames.
    apply NoDup_app in Hnames as (N1 & Nd & N2).
    apply NoDup_cons in N2 as [_ N2].
    apply NoDup_app. split; [exact N1|]. split; [|exact N2].
    intros x Hx Hx'. apply (Nd x Hx). now right.
  - intros k x Hk. apply lookup_delete_Some in Hk as [Hne Hk].
    destruct (awf_cache a W k x Hk) as (Hin & cx & Hcx & Hnm).
    split; [|eauto].
    rewrite Hsplit in Hin. apply elem_of_app in Hin as [Hin|Hin];
      [apply elem_of_app; now left|].
    apply elem_of_cons in Hin as [->|Hin]; [|apply elem_of_app; now right].
    congruence.
  - unfold AnalysisResult.categoriesTotal. simpl.
    change (map _ (l1 ++ l2))
      with (map (AnalysisResult.categoryHintsCount a) (l1 ++ l2)).
    rewrite Htot, !map_app, !sum_app. simpl.
    unfold AnalysisResult.categoryHintsCount at 2. rewrite Hcat. lia.
  - exact (awf_cats a W).
Qed.

Lemma AnalysisResult_step_wf env (a : AnalysisResult.t) (k : AnalysisResult.call) :
  AnalysisWf a -> AnalysisWf (AnalysisResult.step env a k).
Proof.
  intros W. destruct k as [n|p l|n l|n]; simpl.
  - now apply getCategoryByName_wf.
  - now apply AnalysisResult_addProblem_wf.
  - now apply addCategory_wf.
  - now apply removeCategory_wf.
Qed.

Lemma AnalysisResult_run_wf env (ks : list AnalysisResult.call)
    (a : AnalysisResult.t) :
  AnalysisWf a -> AnalysisWf (AnalysisResult.run env ks a).
Proof.
  revert a. induction ks as [|k ks IH]; intros a W; simpl; [exact W|].
  apply IH. now apply AnalysisResult_step_wf.
Qed.

Lemma AnalysisResult_reachable_wf env (ks : list AnalysisResult.call)
    (target : string) (options : FormatterOptions) :
  AnalysisWf (AnalysisResult.run env ks (AnalysisResult.new target options)).
Proof. apply AnalysisResult_run_wf, AnalysisResult_new_wf. Qed.
(** ** The elapsed time *)

Lemma Qfloor_div_pos (x : Q) (m : positive) :
  Qfloor (x / inject_Z (Z.pos m)) = Qfloor x / Z.pos m.
Proof.
  destruct x as [n d].
  assert (E : ((n # d) / inject_Z (Z.pos m) == n # (d * m))%Q).
  { unfold Qeq, Qdiv, Qmult, Qinv, inject_Z. simpl. lia. }
  rewrite E. simpl. rewrite Pos2Z.inj_mul. now rewrite Z.div_div by lia.
Qed.

Lemma Qfloor_sub_Z (x : Q) (k : Z) :
  Qfloor (x - inject_Z k) = Qfloor x - k.
Proof.
  destruct x as [n d].
  assert (E : ((n # d) - inject_Z k == (n + (- k) * Z.pos d) # d)%Q).
  { unfold Qeq, Qminus, Qplus, Qopp, inject_Z. simpl. lia. }
  rewrite E. simpl. rewrite Z.div_add by lia. lia.
Qed.

Lemma Qtrunc_nonneg (x : Q) : (0 <= x)%Q -> AnalysisResult.Qtrunc x = Qfloor x.
Proof.
  intros H. unfold AnalysisResult.Qtrunc.
  apply Qle_bool_iff in H. now rewrite H.
Qed.

Lemma Qdiv_pos_nonneg (x : Q) (m : positive) :
  (0 <= x)%Q -> (0 <= x / inject_Z (Z.pos m))%Q.
Proof.
  intros H. apply Qle_shift_div_l; [reflexivity|]. now rewrite Qmult_0_l.
Qed.

(** [Math.floor(x % m)] is the floor of [x] modulo [m]. *)
Lemma floor_jsRem (x : Q) (m : positive) :
  (0 <= x)%Q ->
  Qfloor (AnalysisResult.jsRem x (inject_Z (Z.pos m))) = Qfloor x mod Z.pos m.
Proof.
  intros H. unfold AnalysisResult.jsRem.
  rewrite Qtrunc_nonneg by now apply Qdiv_pos_nonneg.
  rewrite Qfloor_div_pos.
  assert (E : (inject_Z (Z.pos m) * inject_Z (Qfloor x / Z.pos m)
               == inject_Z (Z.pos m * (Qfloor x / Z.pos m)))%Q)
    by now rewrite inject_Z_mult.
  rewrite E, Qfloor_sub_Z. rewrite Z.mod_eq by lia. reflexivity.
Qed.

Lemma one_digit (u : Decimal.uint) :
  String.length (NilZero.string_of_uint u) = 1%nat -> (Pos.of_uint u < 10)%N.
Proof.
  destruct u as [|u|u|u|u|u|u|u|u|u|u];
    try (destruct u; simpl; intros H; try discriminate H; reflexivity).
  intros _. reflexivity.
Qed.

Lemma numberToString_one_char (z : Z) :
  0 <= z -> String.length (AnalysisResult.numberToString z) = 1%nat -> z < 10.
Proof.
  intros Hz H. destruct z as [|p|p]; [lia| |lia].
  unfold AnalysisResult.numberToString in H. simpl in H.
  apply one_digit in H. rewrite DecimalPos.Unsigned.of_to in H. lia.
Qed.

(** Padding the decimal form is putting a zero before the numbers below
    ten. *)
Lemma pad_numberToString (z : Z) :
  0 <= z -> AnalysisResult.pad (AnalysisResult.numberToString z) = twoDigits z.
Proof.
  intros Hz. unfold twoDigits. destruct (Z.ltb_spec z 10) as [Hlt|Hge].
  - assert (z = 0 \/ z = 1 \/ z = 2 \/ z = 3 \/ z = 4 \/ z = 5 \/ z = 6 \/
            z = 7 \/ z = 8 \/ z = 9) as H by lia.
    repeat (destruct H as [->|H]; [reflexivity|]). now subst.
  - unfold AnalysisResult.pad.
    destruct (Nat.eqb_spec (String.length (AnalysisResult.numberToString z)) 1)
      as [H1|_]; [|now rewrite andb_false_r].
    apply numberToString_one_char in H1; [lia|assumption].
Qed.

Lemma parseScanTime_elapsedFormat (q : Q) :
  (0 <= q)%Q -> AnalysisResult.parseScanTime q = elapsedFormat (Qfloor q).
Proof.
  intros Hq. unfold AnalysisResult.parseScanTime, elapsedFormat.
  change 1000%Q with (inject_Z (Z.pos 1000)).
  change 60%Q with (inject_Z (Z.pos 60)).
  change 3600%Q with (inject_Z (Z.pos 3600)).
  pose proof (Qdiv_pos_nonneg q 1000 Hq) as H1.
  pose proof (Qdiv_pos_nonneg _ 60 H1) as H2.
  rewrite !floor_jsRem, !Qfloor_div_pos by assumption.
  assert (0 <= Qfloor q).
  { change 0 with (Qfloor 0). now apply Qfloor_resp_le. }
  rewrite !pad_numberToString; [reflexivity|..];
    first [ apply Z.div_pos; [apply Z.div_pos|]; lia
          | apply Z.mod_pos; lia ].
Qed.
(** ** Lookups of absent names *)

Lemma getHintByName_absent (n : string) (c : CategoryResult.t) :
  CategoryWf c ->
  (forall (l : loc) (h : HintResult.t),
     l ∈ CategoryResult.hints c -> CategoryResult.heap c !! l = Some h ->
     toLowerCase (HintResult.name h) <> toLowerCase n) ->
  CategoryResult.getHintByName n c = (None, c).
Proof.
  intros W Habs. destruct (getHintByName_wf n c W) as (_ & _ & Hres).
  destruct (CategoryResult.getHintByName n c) as [[l|] c1]; simpl in *.
  - destruct Hres as (Hin & h & Hh & Hn). exfalso. exact (Habs l h Hin Hh Hn).
  - now destruct Hres as [-> _].
Qed.

(** ** What [addProblem] does to the hint and to the category it resolves *)

Lemma CategoryResult_addProblem_appends env (p : Problem.t)
    (c : CategoryResult.t) :
  CategoryWf c ->
  CategoryResult.problemsAt
    (CategoryResult.heap (CategoryResult.addProblem env p c))
    (fst (CategoryResult.resolveHint env p c))
  = CategoryResult.problemsAt
      (CategoryResult.heap (snd (CategoryResult.resolveHint env p c)))
      (fst (CategoryResult.resolveHint env p c)) ++ [p] /\
  fst (CategoryResult.resolveHint env p c)
    ∈ CategoryResult.hints (CategoryResult.addProblem env p c) /\
  is_Some (CategoryResult.heap (CategoryResult.addProblem env p c)
             !! fst (CategoryResult.resolveHint env p c)).
Proof.
  intros W. unfold CategoryResult.addProblem.
  destruct (resolveHint_wf env p c W) as [W1 Hin].
  destruct (CategoryResult.resolveHint env p c) as [l c1]. simpl in *.
  assert (Hlt : (l < length (CategoryResult.heap c1))%nat).
  { apply (cwf_live c1 W1), elem_of_app. now left. }
  destruct (CategoryResult.counted (Problem.severity p)); simpl;
    (split; [now apply problemsAt_alter_eq|]; split; [exact Hin|];
     apply lookup_lt_is_Some_2; now rewrite length_alter).
Qed.

Lemma AnalysisResult_addProblem_hintsCount env (p : Problem.t)
    (language : option string) (a : AnalysisResult.t) :
  AnalysisResult.hintsCount (AnalysisResult.addProblem env p language a)
  = AnalysisResult.hintsCount a
    + (if AnalysisResult.counted (Problem.severity p) then 1 else 0).
Proof.
  unfold AnalysisResult.addProblem, AnalysisResult.resolveCategory,
    AnalysisResult.getCategoryByName, AnalysisResult.pushNewCategory.
  destruct (AnalysisResult.cache a !! _); [|destruct (List.find _ _)];
    destruct (AnalysisResult.counted _); simpl; lia.
Qed.

Lemma AnalysisResult_addProblem_forwards env (p : Problem.t)
    (language : option string) (a : AnalysisResult.t) :
  AnalysisWf a ->
  exists cat,
    AnalysisResult.heap (snd (AnalysisResult.resolveCategory env p language a))
      !! fst (AnalysisResult.resolveCategory env p language a) = Some cat /\
    AnalysisResult.heap (AnalysisResult.addProblem env p language a)
      !! fst (AnalysisResult.resolveCategory env p language a)
    = Some (CategoryResult.addProblem env p cat) /\
    fst (AnalysisResult.resolveCategory env p language a)
      ∈ AnalysisResult.categories (AnalysisResult.addProblem env p language a).
Proof.
  intros W. unfold AnalysisResult.addProblem.
  destruct (resolveCategory_wf env p language a W) as (W1 & Hin & _).
  destruct (AnalysisResult.resolveCategory env p language a) as [c a1].
  simpl in *.
  destruct (lookup_lt_is_Some_2 _ _ (awf_live a1 W1 c Hin)) as [cat Hcat].
  exists cat. split; [exact Hcat|].
  destruct (AnalysisResult.counted (Problem.severity p)); simpl;
    rewrite list_lookup_alter_eq, Hcat; split; auto.
Qed.

(** ** Adding a category and removing it again *)

Lemma split_unique (c : loc) (l1 l2 l1' l2' : list loc) :
  l1 ++ c :: l2 = l1' ++ c :: l2' -> c ∉ l1 -> c ∉ l1' ->
  l1 = l1' /\ l2 = l2'.
Proof.
  revert l1'. induction l1 as [|x r IH]; intros [|y r']; simpl; intros He H1 H1'.
  - injection He as <-. auto.
  - injection He as <- _. exfalso. apply H1'. now left.
  - injection He as -> _. exfalso. apply H1. now left.
  - injection He as <- He. apply not_elem_of_cons in H1 as [_ H1].
    apply not_elem_of_cons in H1' as [_ H1'].
    destruct (IH r' He H1 H1') as [-> ->]. auto.
Qed.

Lemma removeCategory_then_absent (n : string) (a : AnalysisResult.t) :
  AnalysisWf a -> categoryAbsent n (AnalysisResult.removeCategory n a).
Proof.
  intros W. destruct (absent_or_present n a W) as [Habs|(c & cat & Hc & Hcat & Hn)].
  { now rewrite removeCategory_absent. }
  destruct (removeCategory_present n a c cat W Hc Hcat Hn)
    as (l1 & l2 & Hsplit & Hnot & ->).
  intros x Hx He. simpl in Hx. apply Hnot.
  assert (x = c) as ->; [|exact Hx].
  apply (names_unique a); [assumption| |assumption|].
  - rewrite Hsplit. apply elem_of_app.
    apply elem_of_app in Hx as [Hx|Hx]; [now left|right; now right].
  - change (lowerNameOf a x = toLowerCase n) in He. rewrite He.
    unfold lowerNameOf. now rewrite Hcat.
Qed.

Lemma grownBy_cache (n : string) (cats0 : list loc) (total0 : Z)
    (m : gmap string loc) (a : AnalysisResult.t) :
  grownBy n cats0 total0 a -> grownBy n cats0 total0 (AnalysisResult.set_cache m a).
Proof. intros [H|H]; [left|right]; exact H. Qed.

(** Finding the category of [name], or creating it, leaves the result grown
    by that one category. *)
Lemma find_or_push_grown env (n m : string) (language : option string)
    (cats0 : list loc) (total0 : Z) (a : AnalysisResult.t) :
  AnalysisWf a -> grownBy n cats0 total0 a ->
  toLowerCase m = toLowerCase n ->
  let r := match fst (AnalysisResult.getCategoryByName m a) with
           | Some c => (c, snd (AnalysisResult.getCategoryByName m a))
           | None => AnalysisResult.pushNewCategory env m language
                       (snd (AnalysisResult.getCategoryByName m a))
           end in
  exists cat,
    AnalysisResult.categories (snd r) = cats0 ++ [fst r] /\
    AnalysisResult.heap (snd r) !! fst r = Some cat /\
    toLowerCase (CategoryResult.name cat) = toLowerCase n /\
    AnalysisResult.hintsCount (snd r) = total0 + CategoryResult.hintsCount cat.
Proof.
  intros W G Hm.
  destruct (getCategoryByName_wf m a W) as (_ & Hsame & Hres).
  destruct (AnalysisResult.getCategoryByName m a) as [[c|] a1]; simpl in *.
  - destruct Hres as (Hin & cat & Hcat & Hn).
    destruct G as [(_ & _ & Habs)|(c' & cat' & Hcats & Hcat' & Hn' & Htot)].
    + exfalso. apply (Habs c Hin). unfold lowerNameOf. rewrite Hcat. congruence.
    + assert (c = c') as <-.
      { apply (names_unique a); try assumption.
        - rewrite Hcats. apply elem_of_app. right. now left.
        - unfold lowerNameOf. rewrite Hcat, Hcat'. congruence. }
      rewrite Hsame. simpl. exists cat'. auto.
  - destruct Hres as [-> Habs].
    destruct G as [(Hcats & Htot & _)|(c' & cat' & Hcats & Hcat' & Hn' & _)].
    + eexists. rewrite Hcats. split; [reflexivity|]. split.
      * now rewrite lookup_app_r, Nat.sub_diag by lia.
      * simpl. split; [exact Hm|lia].
    + exfalso. apply (Habs c').
      * rewrite Hcats. apply elem_of_app. right. now left.
      * unfold lowerNameOf. rewrite Hcat'. congruence.
Qed.

Lemma resolveCategory_eq env (p : Problem.t) (language : option string)
    (a : AnalysisResult.t) :
  AnalysisResult.resolveCategory env p language a
  = match fst (AnalysisResult.getCategoryByName (Problem.category p) a) with
    | Some c => (c, snd (AnalysisResult.getCategoryByName (Problem.category p) a))
    | None => AnalysisResult.pushNewCategory env (Problem.category p) language
                (snd (AnalysisResult.getCategoryByName (Problem.category p) a))
    end.
Proof.
  unfold AnalysisResult.resolveCategory.
  now destruct (AnalysisResult.getCategoryByName (Problem.category p) a) as [[c|] a1].
Qed.

Lemma addCategory_eq env (m : string) (language : option string)
    (a : AnalysisResult.t) :
  AnalysisResult.addCategory env m language a
  = snd match fst (AnalysisResult.getCategoryByName m a) with
        | Some c => (c, snd (AnalysisResult.getCategoryByName m a))
        | None => AnalysisResult.pushNewCategory env m language
                    (snd (AnalysisResult.getCategoryByName m a))
        end.
Proof.
  unfold AnalysisResult.addCategory.
  now destruct (AnalysisResult.getCategoryByName m a) as [[c|] a1].
Qed.

Lemma AnalysisResult_addProblem_categories env (p : Problem.t)
    (language : option string) (a : AnalysisResult.t) :
  AnalysisResult.categories (AnalysisResult.addProblem env p language a)
  = AnalysisResult.categories
      (snd (AnalysisResult.resolveCategory env p language a)).
Proof.
  unfold AnalysisResult.addProblem.
  destruct (AnalysisResult.resolveCategory env p language a) as [c a1].
  now destruct (AnalysisResult.counted (Problem.severity p)).
Qed.

Lemma grownBy_step env (n : string) (cats0 : list loc) (total0 : Z)
    (a : AnalysisResult.t) (k : AnalysisResult.call) :
  AnalysisWf a -> grownBy n cats0 total0 a -> targets n k ->
  grownBy n cats0 total0 (AnalysisResult.step env a k).
Proof.
  intros W G T. destruct k as [m|p l|m l|m]; simpl in *; [| | |contradiction].
  - destruct (getCategoryByName_wf m a W) as (_ & -> & _).
    now apply grownBy_cache.
  - pose proof (find_or_push_grown env n (Problem.category p) l cats0 total0 a
                  W G T) as H.
    cbv zeta in H. rewrite <- resolveCategory_eq in H.
    destruct H as (cat & Hcats & Hcat & Hn & Htot).
    destruct (AnalysisResult_addProblem_forwards env p l a W)
      as (cat' & Hcat' & Hnew & _).
    rewrite Hcat in Hcat'. injection Hcat' as <-.
    pose proof (resolveCategory_wf env p l a W) as (_ & _ & Hsame).
    right. exists (fst (AnalysisResult.resolveCategory env p l a)),
             (CategoryResult.addProblem env p cat).
    split; [|split; [exact Hnew|split]].
    + now rewrite AnalysisResult_addProblem_categories.
    + now rewrite addProblem_name.
    + rewrite AnalysisResult_addProblem_hintsCount, addProblem_hintsCount,
        <- counted_agree. lia.
  - pose proof (find_or_push_grown env n m l cats0 total0 a W G T) as H.
    cbv zeta in H. rewrite addCategory_eq.
    destruct H as (cat & Hcats & Hcat & Hn & Htot).
    right. eexists _, cat. repeat split; eassumption.
Qed.

Lemma grownBy_run env (n : string) (cats0 : list loc) (total0 : Z)
    (ks : list AnalysisResult.call) (a : AnalysisResult.t) :
  AnalysisWf a -> grownBy n cats0 total0 a -> Forall (targets n) ks ->
  AnalysisWf (AnalysisResult.run env ks a) /\
  grownBy n cats0 total0 (AnalysisResult.run env ks a).
Proof.
  revert a. induction ks as [|k ks IH]; intros a W G F; simpl; [auto|].
  apply Forall_cons in F as [Tk F].
  apply IH; [now apply AnalysisResult_step_wf|now apply grownBy_step|exact F].
Qed.

(** Removing the category a result has grown by gives back the categories
    and the total it had. *)
Lemma removeCategory_grown (n : string) (cats0 : list loc) (total0 : Z)
    (a : AnalysisResult.t) :
  AnalysisWf a -> grownBy n cats0 total0 a ->
  AnalysisResult.categories (AnalysisResult.removeCategory n a) = cats0 /\
  AnalysisResult.hintsCount (AnalysisResult.removeCategory n a) = total0.
Proof.
  intros W [(Hcats & Htot & Habs)|(c & cat & Hcats & Hcat & Hn & Htot)].
  - now rewrite removeCategory_absent.
  - assert (Hc : c ∈ AnalysisResult.categories a).
    { rewrite Hcats. apply elem_of_app. right. now left. }
    destruct (removeCategory_present n a c cat W Hc Hcat Hn)
      as (l1 & l2 & Hsplit & Hnot & ->). simpl.
    pose proof (categories_nodup a W) as Hnd. rewrite Hcats in Hnd.
    apply NoDup_app in Hnd as (_ & Hd & _).
    rewrite Hcats in Hsplit.
    destruct (split_unique c cats0 [] l1 l2 Hsplit) as [-> <-].
    + intros H. apply (Hd c H). now left.
    + intros H. apply Hnot, elem_of_app. now left.
    + rewrite app_nil_r. split; [reflexivity|lia].
Qed.
(** * Main results *)

Lemma counted_neitherOffNorDefault (ps : list Problem.t) :
  countWhere CategoryResult.counted ps
  = Z.of_nat (length (List.filter neitherOffNorDefault ps)).
Proof.
  unfold countWhere. do 2 f_equal. apply List.filter_ext.
  intros p. unfold neitherOffNorDefault.
  now destruct (Problem.severity p).
Qed.

(** C1. After any sequence of [addProblem] calls followed by any sequence of
    [removeCategory] calls on a new result, the total [hintsCount] is the
    sum of the [hintsCount] of the categories still in [categories], and
    the [hintsCount] of each of them is the number of the problems it holds
    whose severity is neither [off] nor [default]. *)
Theorem C1_count_consistency env (target : string) (options : FormatterOptions)
    (ps : list (Problem.t * option string)) (names : list string) :
  let a :=
    AnalysisResult.run env
      (map (fun pl => AnalysisResult.AddProblem (fst pl) (snd pl)) ps
       ++ map AnalysisResult.RemoveCategory names)
      (AnalysisResult.new target options) in
  AnalysisResult.hintsCount a
    = foldr Z.add 0
        (map (AnalysisResult.categoryHintsCount a) (AnalysisResult.categories a)) /\
  forall c : loc, c ∈ AnalysisResult.categories a ->
    exists cat,
      AnalysisResult.heap a !! c = Some cat /\
      CategoryResult.hintsCount cat
      = Z.of_nat (length (List.filter neitherOffNorDefault
                            (CategoryResult.heldProblems cat))).
Proof.
  intros a.
  assert (W : AnalysisWf a) by apply AnalysisResult_reachable_wf.
  split; [exact (awf_total a W)|].
  intros c Hc.
  destruct (lookup_lt_is_Some_2 _ _ (awf_live a W c Hc)) as [cat Hcat].
  exists cat. split; [exact Hcat|].
  rewrite <- counted_neitherOffNorDefault.
  exact (cwf_count cat (awf_cats a W c cat Hcat)).
Qed.

Lemma C1_witness :
  let a :=
    AnalysisResult.run sampleEnv
      [AnalysisResult.AddProblem problemA None;
       AnalysisResult.AddProblem problemA None;
       AnalysisResult.RemoveCategory "other"]
      (AnalysisResult.new "https://example.com" sampleOptions) in
  AnalysisResult.hintsCount a = 2 /\
  exists cat,
    AnalysisResult.heap a !! 0%nat = Some cat /\
    CategoryResult.hintsCount cat
    = Z.of_nat (length (List.filter neitherOffNorDefault
                          (CategoryResult.heldProblems cat))).
Proof.
  intros a.
  destruct (C1_count_consistency sampleEnv "https://example.com" sampleOptions
              [(problemA, None); (problemA, None)] ["other"]) as [Htot Hcat].
  split; [exact Htot|].
  apply Hcat. vm_compute. left.
Defined.

(** C8. For a hint and any sequence of [addProblem] calls on it, [problems]
    is the sequence of the problems added, in call order, and [count] is
    its length; one more call appends its problem and leaves the earlier
    ones in place.  The same equation between [count] and the length of
    [problems] holds for every hint a category has created, after any
    sequence of calls on the category. *)
Theorem C8_count_is_length env (name status url : string) (isScanner : bool)
    (ps : list Problem.t) :
  let h :=
    fold_left (fun h p => HintResult.addProblem p h) ps
      (HintResult.new env name status url isScanner) in
  HintResult.problems h = ps /\
  HintResult.count h = Z.of_nat (length ps) /\
  (forall p : Problem.t,
     HintResult.problems (HintResult.addProblem p h) = ps ++ [p] /\
     HintResult.count (HintResult.addProblem p h) = Z.of_nat (length (ps ++ [p]))) /\
  (forall (ks : list CategoryResult.call) (cname curl : string) (cscan : bool)
          (lang : option string) (l : loc) (hr : HintResult.t),
     CategoryResult.heap
       (CategoryResult.run env ks (CategoryResult.new env cname curl cscan lang))
       !! l = Some hr ->
     HintResult.count hr = Z.of_nat (length (HintResult.problems hr))).
Proof.
  intros h.
  destruct (HintResult_addProblems ps (HintResult.new env name status url isScanner))
    as [Hp Hc].
  fold h in Hp, Hc. simpl in Hp, Hc.
  split; [exact Hp|]. split; [lia|]. split.
  - intros p. simpl. rewrite Hp, Hc, length_app. simpl. split; [reflexivity|lia].
  - intros ks cname curl cscan lang l hr Hl.
    eapply cwf_hint_count; [|exact Hl].
    apply CategoryResult_run_wf, CategoryResult_new_wf.
Qed.

Lemma C8_witness :
  let c :=
    CategoryResult.run sampleEnv
      [CategoryResult.AddProblem problemA; CategoryResult.AddProblem problemB;
       CategoryResult.AddProblem problemD]
      (CategoryResult.new sampleEnv "Security" "https://example.com" false None) in
  exists hr,
    CategoryResult.heap c !! 0%nat = Some hr /\
    HintResult.problems hr = [problemA; problemB; problemD] /\
    HintResult.count hr = 3.
Proof.
  intros c. eexists. split; [reflexivity|]. split; [reflexivity|].
  exact (proj2 (proj2 (proj2
           (C8_count_is_length sampleEnv "x" "error" "https://example.com" false [])))
           [CategoryResult.AddProblem problemA; CategoryResult.AddProblem problemB;
            CategoryResult.AddProblem problemD]
           "Security" "https://example.com" false None 0%nat _ eq_refl).
Defined.

(** C7. [CategoryResult.addProblem] raises the count of the category by one
    exactly when the severity is neither [off] nor [default], and in every
    case appends the problem to the hint it resolves;
    [AnalysisResult.addProblem] raises the total by one exactly when the
    severity is [error] or [warning], and in every case passes the problem
    to [addProblem] of the category it resolves. *)
Theorem C7_addProblem_counts env (p : Problem.t) :
  (forall (ks : list CategoryResult.call) (cname curl : string) (cscan : bool)
          (lang : option string),
     let c := CategoryResult.run env ks
                (CategoryResult.new env cname curl cscan lang) in
     let c' := CategoryResult.addProblem env p c in
     let hint := fst (CategoryResult.resolveHint env p c) in
     (CategoryResult.hintsCount c' = CategoryResult.hintsCount c + 1
      <-> Problem.severity p <> off /\ Problem.severity p <> default) /\
     (CategoryResult.hintsCount c' = CategoryResult.hintsCount c
      <-> Problem.severity p = off \/ Problem.severity p = default) /\
     hint ∈ CategoryResult.hints c' /\
     CategoryResult.problemsAt (CategoryResult.heap c') hint
     = CategoryResult.problemsAt
         (CategoryResult.heap (snd (CategoryResult.resolveHint env p c))) hint
       ++ [p]) /\
  (forall (ks : list AnalysisResult.call) (target : string)
          (options : FormatterOptions) (language : option string),
     let a := AnalysisResult.run env ks (AnalysisResult.new target options) in
     let a' := AnalysisResult.addProblem env p language a in
     let category := fst (AnalysisResult.resolveCategory env p language a) in
     (AnalysisResult.hintsCount a' = AnalysisResult.hintsCount a + 1
      <-> Problem.severity p = error \/ Problem.severity p = warning) /\
     (AnalysisResult.hintsCount a' = AnalysisResult.hintsCount a
      <-> Problem.severity p <> error /\ Problem.severity p <> warning) /\
     category ∈ AnalysisResult.categories a' /\
     exists cat,
       AnalysisResult.heap (snd (AnalysisResult.resolveCategory env p language a))
         !! category = Some cat /\
       AnalysisResult.heap a' !! category
       = Some (CategoryResult.addProblem env p cat)).
Proof.
  split.
  - intros ks cname curl cscan lang c c' hint.
    assert (W : CategoryWf c)
      by apply CategoryResult_run_wf, CategoryResult_new_wf.
    destruct (CategoryResult_addProblem_appends env p c W) as (Happ & Hin & _).
    pose proof (addProblem_hintsCount env p c) as Hc. fold c' in Hc.
    split; [|split; [|split; [exact Hin|exact Happ]]];
      rewrite Hc; destruct (Problem.severity p); simpl;
      (split; [intros; first [lia | split; discriminate | auto]
              |intros H; first [lia | destruct H as [H|H]; discriminate H
                               | destruct H as [H1 H2]; congruence]]).
  - intros ks target options language a a' category.
    assert (W : AnalysisWf a) by apply AnalysisResult_reachable_wf.
    destruct (AnalysisResult_addProblem_forwards env p language a W)
      as (cat & Hcat & Hnew & Hin).
    pose proof (AnalysisResult_addProblem_hintsCount env p language a) as Hc.
    fold a' in Hc.
    split; [|split; [|split; [exact Hin|exists cat; split; assumption]]];
      rewrite Hc; destruct (Problem.severity p); simpl;
      (split; [intros; first [lia | split; discriminate | auto]
              |intros H; first [lia | destruct H as [H|H]; discriminate H
                               | destruct H as [H1 H2]; congruence]]).
Qed.

(** C10. After any sequence of [getCategoryByName], [addProblem],
    [addCategory] and [removeCategory] calls on a new result, every entry
    of the cache has a lower-cased key and refers to a category that is in
    [categories] and whose lower-cased name is the key; so
    [getCategoryByName] only returns categories that are in [categories],
    never one that was removed. *)
Theorem C10_cache_coherence env (ks : list AnalysisResult.call)
    (target : string) (options : FormatterOptions) :
  let a := AnalysisResult.run env ks (AnalysisResult.new target options) in
  (forall (k : string) (c : loc),
     AnalysisResult.cache a !! k = Some c ->
     toLowerCase k = k /\
     c ∈ AnalysisResult.categories a /\
     exists cat, AnalysisResult.heap a !! c = Some cat /\
                 toLowerCase (CategoryResult.name cat) = k) /\
  (forall (n : string) (c : loc),
     fst (AnalysisResult.getCategoryByName n a) = Some c ->
     c ∈ AnalysisResult.categories a).
Proof.
  intros a.
  assert (W : AnalysisWf a) by apply AnalysisResult_reachable_wf.
  split.
  - intros k c Hk. destruct (awf_cache a W k c Hk) as (Hin & cat & Hcat & Hn).
    split; [|split; [exact Hin|eauto]].
    rewrite <- Hn. apply toLowerCase_idem.
  - intros n c Hn. destruct (getCategoryByName_wf n a W) as (_ & _ & Hres).
    rewrite Hn in Hres. tauto.
Qed.

Lemma C10_witness :
  let a :=
    AnalysisResult.run sampleEnv
      [AnalysisResult.AddProblem problemA None;
       AnalysisResult.AddCategory "Performance" None;
       AnalysisResult.GetCategoryByName "SECURITY";
       AnalysisResult.GetCategoryByName "performance";
       AnalysisResult.RemoveCategory "Security"]
      (AnalysisResult.new "https://example.com" sampleOptions) in
  AnalysisResult.cache a !! "performance" = Some 1%nat /\
  1%nat ∈ AnalysisResult.categories a /\
  AnalysisResult.cache a !! "security" = None.
Proof.
  intros a. split; [reflexivity|]. split; [|reflexivity].
  exact (proj1 (proj2 (proj1
           (C10_cache_coherence sampleEnv
              [AnalysisResult.AddProblem problemA None;
               AnalysisResult.AddCategory "Performance" None;
               AnalysisResult.GetCategoryByName "SECURITY";
               AnalysisResult.GetCategoryByName "performance";
               AnalysisResult.RemoveCategory "Security"]
              "https://example.com" sampleOptions)
           "performance" 1%nat eq_refl))).
Defined.

(** C9. On a result reached by any sequence of calls, [getCategoryByName]
    for a name that no category of [categories] answers to returns nothing
    and leaves the result as it was; on a category reached by any sequence
    of calls, [getHintByName] for a name that no hint of [hints] or
    [passed] answers to returns nothing and leaves the category as it was.
    Both are total functions: no call raises. *)
Theorem C9_absent_lookups env :
  (forall (ks : list AnalysisResult.call) (target : string)
          (options : FormatterOptions) (n : string),
     let a := AnalysisResult.run env ks (AnalysisResult.new target options) in
     categoryAbsent n a ->
     AnalysisResult.getCategoryByName n a = (None, a)) /\
  (forall (ks : list CategoryResult.call) (cname curl : string) (cscan : bool)
          (lang : option string) (n : string),
     let c := CategoryResult.run env ks
                (CategoryResult.new env cname curl cscan lang) in
     hintAbsent n c ->
     CategoryResult.getHintByName n c = (None, c)).
Proof.
  split.
  - intros ks target options n a Habs.
    apply getCategoryByName_absent; [apply AnalysisResult_reachable_wf|exact Habs].
  - intros ks cname curl cscan lang n c Habs.
    apply getHintByName_absent.
    + apply CategoryResult_run_wf, CategoryResult_new_wf.
    + intros l h Hl. apply Habs, elem_of_app. now left.
Qed.

Lemma C9_witness :
  let a :=
    AnalysisResult.run sampleEnv [AnalysisResult.AddProblem problemA None]
      (AnalysisResult.new "https://example.com" sampleOptions) in
  let c :=
    CategoryResult.run sampleEnv
      [CategoryResult.AddProblem problemA; CategoryResult.AddHint "manifest" "pass"]
      (CategoryResult.new sampleEnv "Security" "https://example.com" false None) in
  AnalysisResult.getCategoryByName "Performance" a = (None, a) /\
  CategoryResult.getHintByName "sri" c = (None, c).
Proof.
  intros a c. split.
  - apply (proj1 (C9_absent_lookups sampleEnv)
             [AnalysisResult.AddProblem problemA None]
             "https://example.com" sampleOptions "Performance").
    intros x Hx.
    assert (E : AnalysisResult.categories a = [0%nat]) by reflexivity.
    fold a in Hx. rewrite E in Hx.
    apply list_elem_of_singleton in Hx. subst x. vm_compute. discriminate.
  - apply (proj2 (C9_absent_lookups sampleEnv)
             [CategoryResult.AddProblem problemA;
              CategoryResult.AddHint "manifest" "pass"]
             "Security" "https://example.com" false None "sri").
    intros l h Hl Hh. fold c in Hl, Hh.
    assert (E : CategoryResult.hints c ++ CategoryResult.passed c = [0%nat; 1%nat])
      by reflexivity.
    rewrite E in Hl.
    apply elem_of_cons in Hl as [->|Hl];
      [|apply list_elem_of_singleton in Hl; subst l];
      vm_compute in Hh; injection Hh as <-; vm_compute; discriminate.
Defined.

(** C4. On a result reached by any sequence of calls: [removeCategory] for
    a name that no category answers to changes nothing; for the name of a
    category it takes that category's [hintsCount] off the total, takes the
    category (and nothing else) out of [categories] and its key out of the
    cache, after which [getCategoryByName] for the name returns nothing;
    and when the name was absent, registering the category, looking it up
    and reporting problems in it, then removing it, gives back the total
    and the categories there were before. *)
Theorem C4_removeCategory env (ks : list AnalysisResult.call)
    (target : string) (options : FormatterOptions) (n : string) :
  let a := AnalysisResult.run env ks (AnalysisResult.new target options) in
  (categoryAbsent n a -> AnalysisResult.removeCategory n a = a) /\
  (forall (c : loc) (cat : CategoryResult.t),
     c ∈ AnalysisResult.categories a ->
     AnalysisResult.heap a !! c = Some cat ->
     toLowerCase (CategoryResult.name cat) = toLowerCase n ->
     let a' := AnalysisResult.removeCategory n a in
     AnalysisResult.hintsCount a'
       = AnalysisResult.hintsCount a - CategoryResult.hintsCount cat /\
     (forall x : loc, x ∈ AnalysisResult.categories a'
                      <-> x ∈ AnalysisResult.categories a /\ x <> c) /\
     AnalysisResult.cache a' !! toLowerCase n = None /\
     AnalysisResult.getCategoryByName n a' = (None, a')) /\
  (forall adds : list AnalysisResult.call,
     categoryAbsent n a -> Forall (targets n) adds ->
     let a' := AnalysisResult.removeCategory n (AnalysisResult.run env adds a) in
     AnalysisResult.hintsCount a' = AnalysisResult.hintsCount a /\
     AnalysisResult.categories a' = AnalysisResult.categories a /\
     AnalysisResult.getCategoryByName n a' = (None, a')).
Proof.
  intros a.
  assert (W : AnalysisWf a) by apply AnalysisResult_reachable_wf.
  split; [now apply removeCategory_absent|]. split.
  - intros c cat Hc Hcat Hn a'.
    assert (Hget : AnalysisResult.getCategoryByName n a' = (None, a')).
    { apply getCategoryByName_absent;
        [now apply removeCategory_wf|now apply removeCategory_then_absent]. }
    destruct (removeCategory_present n a c cat W Hc Hcat Hn)
      as (l1 & l2 & Hsplit & Hnot & He).
    fold a' in He. rewrite He in *. simpl.
    split; [reflexivity|]. split; [|split; [apply lookup_delete_eq|exact Hget]].
    intros x. rewrite Hsplit, !elem_of_app, elem_of_cons. split.
    + intros Hx. split; [tauto|]. intros ->. apply Hnot, elem_of_app. exact Hx.
    + intros [[Hx|[Hx|Hx]] Hne]; [now left|contradiction|now right].
  - intros adds Habs F a'.
    assert (G : grownBy n (AnalysisResult.categories a)
                  (AnalysisResult.hintsCount a) a) by (left; auto).
    destruct (grownBy_run env n _ _ adds a W G F) as [W1 G1].
    destruct (removeCategory_grown n _ _ _ W1 G1) as [Hcats Htot].
    split; [exact Htot|]. split; [exact Hcats|].
    apply getCategoryByName_absent;
      [now apply removeCategory_wf|now apply removeCategory_then_absent].
Qed.

Lemma C4_witness :
  let a := AnalysisResult.run sampleEnv
             [AnalysisResult.AddCategory "Performance" None]
             (AnalysisResult.new "https://example.com" sampleOptions) in
  let grown := AnalysisResult.run sampleEnv
                 [AnalysisResult.AddProblem problemA None;
                  AnalysisResult.AddProblem problemB None;
                  AnalysisResult.AddProblem problemC None] a in
  let a' := AnalysisResult.removeCategory "security" grown in
  AnalysisResult.hintsCount grown = AnalysisResult.hintsCount a + 3 /\
  AnalysisResult.hintsCount a' = AnalysisResult.hintsCount a /\
  AnalysisResult.categories a' = AnalysisResult.categories a /\
  AnalysisResult.getCategoryByName "security" a' = (None, a').
Proof.
  intros a grown a'. split; [reflexivity|].
  apply (proj2 (proj2
           (C4_removeCategory sampleEnv
              [AnalysisResult.AddCategory "Performance" None]
              "https://example.com" sampleOptions "security"))
           [AnalysisResult.AddProblem problemA None;
            AnalysisResult.AddProblem problemB None;
            AnalysisResult.AddProblem problemC None]).
  - intros x Hx. fold a in Hx.
    assert (E : AnalysisResult.categories a = [0%nat]) by reflexivity.
    rewrite E in Hx. apply list_elem_of_singleton in Hx. subst x.
    vm_compute. discriminate.
  - repeat constructor.
Defined.

Lemma twoDigits_length (z : Z) :
  0 <= z < 60 -> String.length (twoDigits z) = 2%nat.
Proof.
  intros Hz. assert (exists k, z = Z.of_nat k /\ (k < 60)%nat) as (k & -> & Hk).
  { exists (Z.to_nat z). lia. }
  do 60 (destruct k as [|k]; [reflexivity|]). lia.
Qed.

Lemma twoDigits_length_ge (z : Z) :
  0 <= z -> (2 <= String.length (twoDigits z))%nat.
Proof.
  intros Hz. destruct (Z.ltb_spec z 10) as [Hlt|Hge].
  - rewrite twoDigits_length; lia.
  - unfold twoDigits. destruct (Z.ltb_spec z 10) as [?|_]; [lia|].
    pose proof (numberToString_one_char z Hz) as H1.
    destruct z as [|p|p]; [lia| |lia].
    unfold AnalysisResult.numberToString in *. simpl in *.
    destruct (Pos.to_uint p) as [|u|u|u|u|u|u|u|u|u|u]; simpl in *; lia.
Qed.

(** C5. The elapsed time of a result built with a scan time of [q]
    milliseconds, [q] not negative, is [[hh:]mm:ss] for the whole
    milliseconds of [q]: seconds and minutes modulo 60 on two digits, the
    hours not reduced, on two digits or more, and left out when zero.  A
    missing scan time counts as [0], and [0], [65000], [3725000] and
    [90000000] give ["00:00"], ["01:05"], ["01:02:05"] and ["25:00:00"]. *)
Theorem C5_elapsedDisplay :
  (forall (target : string) (options : FormatterOptions) (q : Q),
     opt_scanTime options = Some q -> (0 <= q)%Q ->
     AnalysisResult.scanTime (AnalysisResult.new target options)
     = elapsedFormat (Qfloor q)) /\
  (forall ms : Z, 0 <= ms ->
     AnalysisResult.parseScanTime (inject_Z ms) = elapsedFormat ms) /\
  (forall z : Z, 0 <= z < 60 -> String.length (twoDigits z) = 2%nat) /\
  (forall z : Z, 0 <= z -> (2 <= String.length (twoDigits z))%nat) /\
  (forall (target : string) (options : FormatterOptions),
     opt_scanTime options = None ->
     AnalysisResult.scanTime (AnalysisResult.new target options) = "00:00") /\
  AnalysisResult.parseScanTime 0 = "00:00" /\
  AnalysisResult.parseScanTime 65000 = "01:05" /\
  AnalysisResult.parseScanTime 3725000 = "01:02:05" /\
  AnalysisResult.parseScanTime 90000000 = "25:00:00".
Proof.
  split; [|split; [|split; [|split; [|split; [|repeat split]]]]].
  - intros target options q Hq Hpos. simpl. rewrite Hq. simpl.
    now apply parseScanTime_elapsedFormat.
  - intros ms Hms. rewrite parseScanTime_elapsedFormat.
    + now rewrite Qfloor_Z.
    + change 0%Q with (inject_Z 0). now rewrite <- Zle_Qle.
  - exact twoDigits_length.
  - exact twoDigits_length_ge.
  - intros target options Hq. simpl. now rewrite Hq.
Qed.

Lemma C5_witness :
  AnalysisResult.scanTime
    (AnalysisResult.new "https://example.com" (optionsWithScanTime 7325500))
  = "02:02:05".
Proof.
  apply (proj1 C5_elapsedDisplay "https://example.com"
           (optionsWithScanTime 7325500) 7325500%Q eq_refl).
  unfold Qle. simpl. lia.
Defined.

(** ** Registering a category twice *)

(** A lookup for a name a category answers to returns that category and
    changes at most the cache. *)
Lemma lookup_present (m : string) (a : AnalysisResult.t) (c : loc)
    (cat : CategoryResult.t) :
  AnalysisWf a ->
  c ∈ AnalysisResult.categories a ->
  AnalysisResult.heap a !! c = Some cat ->
  toLowerCase (CategoryResult.name cat) = toLowerCase m ->
  fst (AnalysisResult.getCategoryByName m a) = Some c /\
  snd (AnalysisResult.getCategoryByName m a)
    = AnalysisResult.set_cache
        (AnalysisResult.cache (snd (AnalysisResult.getCategoryByName m a))) a.
Proof.
  intros W Hc Hcat Hn.
  destruct (getCategoryByName_wf m a W) as (_ & Hsame & Hres).
  split; [|exact Hsame].
  destruct (fst (AnalysisResult.getCategoryByName m a)) as [c'|].
  - destruct Hres as (Hc' & cat' & Hcat' & Hn'). f_equal.
    apply (names_unique a); try assumption.
    unfold lowerNameOf. rewrite Hcat, Hcat'. congruence.
  - destruct Hres as [_ Habs]. exfalso. apply (Habs c Hc).
    unfold lowerNameOf. now rewrite Hcat.
Qed.

Lemma addCategory_present env (n : string) (language : option string)
    (a : AnalysisResult.t) (c : loc) (cat : CategoryResult.t) :
  AnalysisWf a ->
  c ∈ AnalysisResult.categories a ->
  AnalysisResult.heap a !! c = Some cat ->
  toLowerCase (CategoryResult.name cat) = toLowerCase n ->
  AnalysisResult.addCategory env n language a
  = AnalysisResult.set_cache
      (AnalysisResult.cache (AnalysisResult.addCategory env n language a)) a.
Proof.
  intros W Hc Hcat Hn.
  destruct (lookup_present n a c cat W Hc Hcat Hn) as [Hfst Hsnd].
  unfold AnalysisResult.addCategory.
  destruct (AnalysisResult.getCategoryByName n a) as [found a1]. simpl in *.
  now rewrite Hfst.
Qed.

Lemma addCategory_absent env (n : string) (language : option string)
    (a : AnalysisResult.t) :
  AnalysisWf a -> categoryAbsent n a ->
  AnalysisResult.addCategory env n language a
  = snd (AnalysisResult.pushNewCategory env n language a).
Proof.
  intros W Habs. unfold AnalysisResult.addCategory.
  now rewrite (getCategoryByName_absent n a W Habs).
Qed.

(** C6. Calling [addCategory] twice with one name, on a result reached by
    any sequence of calls, leaves exactly one category answering to the
    name in [categories]; when there was none before, the two calls create
    one category, stored under the name as given (lower-casing is applied
    to the keys of the cache and to the names compared, not to the name
    stored); and [getCategoryByName] returns that same category for every
    spelling of the name that differs only in case, also after an earlier
    lookup. *)
Theorem C6_addCategory_idempotent env (ks : list AnalysisResult.call)
    (target : string) (options : FormatterOptions) (l1 l2 : option string)
    (n : string) :
  let a0 := AnalysisResult.run env ks (AnalysisResult.new target options) in
  let a := AnalysisResult.run env
             [AnalysisResult.AddCategory n l1; AnalysisResult.AddCategory n l2]
             a0 in
  exists (c : loc) (cat : CategoryResult.t),
    c ∈ AnalysisResult.categories a /\
    AnalysisResult.heap a !! c = Some cat /\
    toLowerCase (CategoryResult.name cat) = toLowerCase n /\
    (forall x : loc, x ∈ AnalysisResult.categories a ->
                     lowerNameOf a x = toLowerCase n -> x = c) /\
    (categoryAbsent n a0 ->
     AnalysisResult.categories a = AnalysisResult.categories a0 ++ [c] /\
     AnalysisResult.heap a = AnalysisResult.heap a0 ++ [cat] /\
     CategoryResult.name cat = n) /\
    (forall m m' : string,
       toLowerCase m = toLowerCase n -> toLowerCase m' = toLowerCase n ->
       fst (AnalysisResult.getCategoryByName m a) = Some c /\
       fst (AnalysisResult.getCategoryByName m'
              (snd (AnalysisResult.getCategoryByName m a))) = Some c).
Proof.
  intros a0 a.
  assert (W0 : AnalysisWf a0) by apply AnalysisResult_reachable_wf.
  set (a1 := AnalysisResult.addCategory env n l1 a0).
  assert (W1 : AnalysisWf a1) by now apply addCategory_wf.
  assert (W : AnalysisWf a) by now apply addCategory_wf.
  assert (Hfound : exists c cat,
            c ∈ AnalysisResult.categories a /\
            AnalysisResult.heap a !! c = Some cat /\
            toLowerCase (CategoryResult.name cat) = toLowerCase n /\
            (categoryAbsent n a0 ->
             AnalysisResult.categories a = AnalysisResult.categories a0 ++ [c] /\
             AnalysisResult.heap a = AnalysisResult.heap a0 ++ [cat] /\
             CategoryResult.name cat = n)).
  { destruct (absent_or_present n a0 W0) as [Habs|(c & cat & Hc & Hcat & Hn)].
    - pose proof (addCategory_absent env n l1 a0 W0 Habs) as E1. fold a1 in E1.
      set (c := length (AnalysisResult.heap a0)).
      set (cat := CategoryResult.new env n (AnalysisResult.url a0)
                    (AnalysisResult.isScanner a0) l1).
      assert (Hc1 : c ∈ AnalysisResult.categories a1).
      { rewrite E1. simpl. apply elem_of_app. right. now left. }
      assert (Hcat1 : AnalysisResult.heap a1 !! c = Some cat).
      { rewrite E1. simpl. subst c. now rewrite lookup_app_r, Nat.sub_diag by lia. }
      pose proof (addCategory_present env n l2 a1 c cat W1 Hc1 Hcat1 eq_refl) as E.
      change (AnalysisResult.addCategory env n l2 a1) with a in E.
      exists c, cat. rewrite E. simpl. rewrite E1. simpl.
      split; [apply elem_of_app; right; now left|].
      split; [subst c; now rewrite lookup_app_r, Nat.sub_diag by lia|].
      split; [reflexivity|]. intros _. repeat split.
    - pose proof (addCategory_present env n l1 a0 c cat W0 Hc Hcat Hn) as E1.
      fold a1 in E1.
      assert (Hc1 : c ∈ AnalysisResult.categories a1) by now rewrite E1.
      assert (Hcat1 : AnalysisResult.heap a1 !! c = Some cat) by now rewrite E1.
      pose proof (addCategory_present env n l2 a1 c cat W1 Hc1 Hcat1 Hn) as E.
      change (AnalysisResult.addCategory env n l2 a1) with a in E.
      exists c, cat. rewrite E. simpl.
      split; [exact Hc1|]. split; [exact Hcat1|]. split; [exact Hn|].
      intros Habs. exfalso. apply (Habs c Hc). unfold lowerNameOf. now rewrite Hcat. }
  destruct Hfound as (c & cat & Hc & Hcat & Hn & Hnew).
  exists c, cat. split; [exact Hc|]. split; [exact Hcat|]. split; [exact Hn|].
  split; [|split; [exact Hnew|]].
  - intros x Hx Hname. apply (names_unique a); try assumption.
    rewrite Hname. unfold lowerNameOf. now rewrite Hcat.
  - intros m m' Hm Hm'.
    destruct (lookup_present m a c cat W Hc Hcat) as [Hfst Hsnd]; [congruence|].
    split; [exact Hfst|].
    assert (W' : AnalysisWf (snd (AnalysisResult.getCategoryByName m a)))
      by now apply getCategoryByName_wf.
    apply (lookup_present m' _ c cat W').
    + now rewrite Hsnd.
    + now rewrite Hsnd.
    + congruence.
Qed.

Lemma C6_witness :
  let a := AnalysisResult.run sampleEnv
             [AnalysisResult.AddCategory "Security" None;
              AnalysisResult.AddCategory "Security" None]
             (AnalysisResult.new "https://example.com" sampleOptions) in
  exists (c : loc) (cat : CategoryResult.t),
    AnalysisResult.categories a = [c] /\
    CategoryResult.name cat = "Security" /\
    AnalysisResult.heap a !! c = Some cat /\
    fst (AnalysisResult.getCategoryByName "Security" a) = Some c /\
    fst (AnalysisResult.getCategoryByName "security" a) = Some c /\
    fst (AnalysisResult.getCategoryByName "SECURITY" a) = Some c.
Proof.
  intros a.
  destruct (C6_addCategory_idempotent sampleEnv [] "https://example.com"
              sampleOptions None None "Security")
    as (c & cat & _ & Hcat & _ & _ & Hnew & Hget).
  destruct Hnew as (Hcats & _ & Hn).
  { intros x Hx. inversion Hx. }
  exists c, cat. split; [exact Hcats|]. split; [exact Hn|]. split; [exact Hcat|].
  split; [exact (proj1 (Hget "Security" "Security" eq_refl eq_refl))|].
  split; [exact (proj1 (Hget "security" "Security" eq_refl eq_refl))|].
  exact (proj1 (Hget "SECURITY" "Security" eq_refl eq_refl)).
Defined.

(** C6, as first stated, fails: after two calls of [addCategory] with
    ["Security"] the one category is stored under the name ["Security"],
    not ["security"]. *)
Lemma C6_counterexample :
  let a := AnalysisResult.run sampleEnv
             [AnalysisResult.AddCategory "Security" None;
              AnalysisResult.AddCategory "Security" None]
             (AnalysisResult.new "https://example.com" sampleOptions) in
  ~ exists (c : loc) (cat : CategoryResult.t),
      AnalysisResult.categories a = [c] /\
      AnalysisResult.heap a !! c = Some cat /\
      CategoryResult.name cat = "security" /\
      fst (AnalysisResult.getCategoryByName "Security" a) = Some c /\
      fst (AnalysisResult.getCategoryByName "security" a) = Some c /\
      fst (AnalysisResult.getCategoryByName "SECURITY" a) = Some c.
Proof.
  intros a (c & cat & Hc & Hcat & Hn & _).
  assert (E : AnalysisResult.categories a = [0%nat]) by reflexivity.
  rewrite E in Hc. injection Hc as <-.
  vm_compute in Hcat. injection Hcat as <-. discriminate Hn.
Qed.

Lemma hint_names_unique (c : CategoryResult.t) (l l' : loc) :
  CategoryWf c ->
  l ∈ CategoryResult.hints c -> l' ∈ CategoryResult.hints c ->
  hintLowerNameAt (CategoryResult.heap c) l
    = hintLowerNameAt (CategoryResult.heap c) l' ->
  l = l'.
Proof.
  intros W. pose proof (cwf_names c W) as H. revert H.
  induction (CategoryResult.hints c) as [|x r IH]; intros H Hl Hl' He;
    [inversion Hl|].
  simpl in H. apply NoDup_cons in H as [Hx Hr].
  assert (Hmem : forall y, y ∈ r ->
            hintLowerNameAt (CategoryResult.heap c) y
              ∈ map (hintLowerNameAt (CategoryResult.heap c)) r).
  { intros y Hy. apply list_elem_of_In, in_map, list_elem_of_In. exact Hy. }
  apply elem_of_cons in Hl as [->|Hl]; apply elem_of_cons in Hl' as [->|Hl'].
  - reflexivity.
  - exfalso. apply Hx. rewrite He. auto.
  - exfalso. apply Hx. rewrite <- He. auto.
  - auto.
Qed.

(** The hint [addHint] returns answers to the name asked for. *)
Lemma addHint_result env (n s : string) (c : CategoryResult.t) :
  CategoryWf c ->
  exists h,
    CategoryResult.heap (snd (CategoryResult.addHint env n s c))
      !! fst (CategoryResult.addHint env n s c) = Some h /\
    toLowerCase (HintResult.name h) = toLowerCase n /\
    (s <> "pass" ->
     fst (CategoryResult.addHint env n s c)
       ∈ CategoryResult.hints (snd (CategoryResult.addHint env n s c))).
Proof.
  intros W. unfold CategoryResult.addHint.
  destruct (getHintByName_wf n c W) as (_ & Hsame & Hres).
  destruct (CategoryResult.getHintByName n c) as [[l|] c1]; simpl in *.
  - destruct Hres as (Hin & h & Hh & Hn). rewrite Hsame. simpl. eauto.
  - destruct Hres as [-> _]. unfold CategoryResult.allocHint.
    destruct (String.eqb_spec s "pass") as [->|Hs]; simpl;
      rewrite lookup_app_r, Nat.sub_diag by lia; simpl;
      eexists; (split; [reflexivity|]); (split; [reflexivity|]).
    + congruence.
    + intros _. apply elem_of_app. right. now left.
Qed.

(** [addHint] is idempotent for the hints of [hints]: when a call returned
    a hint of [hints] (found there, or filed there because the status was
    not ["pass"]), the next call with the same name, whatever the status,
    returns the same hint and changes at most the cache, so that the hint
    and its status stay as they were. *)
Lemma addHint_again env (n s s' : string) (c : CategoryResult.t) :
  CategoryWf c ->
  let r1 := CategoryResult.addHint env n s c in
  fst r1 ∈ CategoryResult.hints (snd r1) ->
  let r2 := CategoryResult.addHint env n s' (snd r1) in
  fst r2 = fst r1 /\
  snd r2 = CategoryResult.set_cache (CategoryResult.cache (snd r2)) (snd r1).
Proof.
  intros W r1 Hin r2.
  destruct (addHint_result env n s c W) as (h & Hh & Hn & _).
  fold r1 in Hh.
  assert (W1 : CategoryWf (snd r1)) by now apply addHint_wf.
  destruct (getHintByName_wf n (snd r1) W1) as (_ & Hsame & Hres).
  unfold r2, CategoryResult.addHint.
  destruct (CategoryResult.getHintByName n (snd r1)) as [[l|] c2]; simpl in *.
  - destruct Hres as (Hin' & h' & Hh' & Hn'). split; [|exact Hsame].
    apply (hint_names_unique (snd r1)); try assumption.
    unfold hintLowerNameAt. rewrite Hh, Hh'. congruence.
  - destruct Hres as [_ Hres]. exfalso.
    apply (nameMatches_false (snd r1) (toLowerCase n) (fst r1) W1 Hin);
      [now apply Hres|].
    unfold hintLowerNameAt. now rewrite Hh.
Qed.

(** C2.  [addHint] does not find a hint it has filed into [passed]:
    [getHintByName] searches the cache and [hints] only.  On a new category,
    two calls of [addHint] with one name and the status ["pass"] create two
    hints, both in [passed], and [getHintByName] for the name returns
    nothing in between. *)
Theorem C2_addHint_pass_twice env (cname curl : string) (cscan : bool)
    (lang : option string) (n : string) :
  let c0 := CategoryResult.new env cname curl cscan lang in
  let r1 := CategoryResult.addHint env n "pass" c0 in
  let r2 := CategoryResult.addHint env n "pass" (snd r1) in
  fst r1 = 0%nat /\ fst r2 = 1%nat /\
  CategoryResult.passed (snd r2) = [0%nat; 1%nat] /\
  CategoryResult.heap (snd r2)
  = [HintResult.new env n "pass" curl cscan; HintResult.new env n "pass" curl cscan] /\
  fst (CategoryResult.getHintByName n (snd r1)) = None.
Proof.
  intros c0 r1 r2.
  assert (E1 : r1 = (0%nat,
                     CategoryResult.set_passed [0%nat]
                       (CategoryResult.set_heap
                          [HintResult.new env n "pass" curl cscan] c0))).
  { unfold r1, CategoryResult.addHint, CategoryResult.getHintByName. simpl.
    rewrite lookup_empty. reflexivity. }
  assert (E2 : r2 = (1%nat,
                     CategoryResult.set_passed [0%nat; 1%nat]
                       (CategoryResult.set_heap
                          [HintResult.new env n "pass" curl cscan;
                           HintResult.new env n "pass" curl cscan] c0))).
  { unfold r2. rewrite E1.
    unfold CategoryResult.addHint, CategoryResult.getHintByName. simpl.
    rewrite lookup_empty. reflexivity. }
  rewrite E2, E1. repeat split.
Qed.

Lemma HintResult_new_thirdPartyInfo env (name status url : string)
    (isScanner : bool) :
  match thirdPartyServices env !! splitSlashHead name with
  | Some info =>
      exists info',
        HintResult.thirdPartyInfo (HintResult.new env name status url isScanner)
          = Some info' /\
        link info' = link info /\
        details info' = details info /\
        logo_name (logo info') = logo_name (logo info) /\
        logo_alt (logo info') = logo_alt (logo info) /\
        logo_url (logo info')
          = (if isScanner then logo_url (logo info)
             else substr1 (logo_url (logo info)))
  | None =>
      HintResult.thirdPartyInfo (HintResult.new env name status url isScanner)
        = None
  end.
Proof.
  unfold HintResult.new. simpl.
  destruct (thirdPartyServices env !! splitSlashHead name) as [info|];
    [|reflexivity].
  eexists. split; [reflexivity|].
  unfold HintResult.adjustThirdPartyInfo. now destruct isScanner.
Qed.

(** C3.  The link of the third-party information of a new hint still has
    its [%URL%] placeholder: the constructor computes the link with the
    target in place of the placeholder and does not store it.  The first
    character of the address of the logo is dropped outside scanner mode,
    and a name whose prefix has no entry gets no information. *)
Theorem C3_link_keeps_placeholder :
  let h := HintResult.new sampleEnv "axe/aria" "error" "https://example.com" false in
  exists info,
    HintResult.thirdPartyInfo h = Some info /\
    link info = "https://axe.example/check?url=%URL%" /\
    occurs "%URL%" (link info) = true /\
    replaceFirst "%URL%" "https://example.com" "https://axe.example/check?url=%URL%"
      = "https://axe.example/check?url=https://example.com" /\
    logo_url (logo info) = "images/axe.png" /\
    HintResult.thirdPartyInfo
      (HintResult.new sampleEnv "sri" "error" "https://example.com" false) = None.
Proof.
  intros h. eexists. split; [reflexivity|]. repeat split.
Qed.
(** * Further properties *)

(** ** Lookups and the cache *)

Lemma find_unique_match (f : loc -> bool) (ls : list loc) (c : loc) :
  c ∈ ls -> f c = true ->
  (forall x : loc, x ∈ ls -> f x = true -> x = c) ->
  List.find f ls = Some c.
Proof.
  intros Hc Hf Huniq. destruct (List.find f ls) as [x|] eqn:E.
  - apply List.find_some in E as [Hx Hfx]. f_equal.
    apply Huniq; [now apply list_elem_of_In|exact Hfx].
  - apply list_elem_of_In in Hc.
    pose proof (List.find_none _ _ E c Hc) as H. congruence.
Qed.

Lemma category_nameMatches_true (a : AnalysisResult.t) (k : string) (c : loc) :
  AnalysisResult.nameMatches a k c = true ->
  exists cat, AnalysisResult.heap a !! c = Some cat /\
              toLowerCase (CategoryResult.name cat) = k.
Proof.
  unfold AnalysisResult.nameMatches.
  destruct (AnalysisResult.heap a !! c) as [cat|]; [|discriminate].
  intros H. apply String.eqb_eq in H. eauto.
Qed.

Lemma hint_nameMatches_true (c : CategoryResult.t) (k : string) (l : loc) :
  CategoryResult.nameMatches c k l = true ->
  exists h, CategoryResult.heap c !! l = Some h /\
            toLowerCase (HintResult.name h) = k.
Proof.
  unfold CategoryResult.nameMatches.
  destruct (CategoryResult.heap c !! l) as [h|]; [|discriminate].
  intros H. apply String.eqb_eq in H. eauto.
Qed.

(** X1. On a result reached by any sequence of calls, [getCategoryByName]
    returns what the linear search of [categories] alone returns, whatever
    the cache holds, and it changes nothing but the cache. *)
Theorem X1_getCategoryByName_is_scan env (ks : list AnalysisResult.call)
    (target : string) (options : FormatterOptions) (n : string) :
  let a := AnalysisResult.run env ks (AnalysisResult.new target options) in
  let r := AnalysisResult.getCategoryByName n a in
  fst r = List.find (AnalysisResult.nameMatches a (toLowerCase n))
            (AnalysisResult.categories a) /\
  AnalysisResult.categories (snd r) = AnalysisResult.categories a /\
  AnalysisResult.heap (snd r) = AnalysisResult.heap a /\
  AnalysisResult.hintsCount (snd r) = AnalysisResult.hintsCount a.
Proof.
  intros a r.
  assert (W : AnalysisWf a) by apply AnalysisResult_reachable_wf.
  destruct (getCategoryByName_wf n a W) as (_ & Hsame & Hres). fold r in Hsame, Hres.
  split; [|rewrite Hsame; repeat split].
  destruct (fst r) as [c|].
  - destruct Hres as (Hc & cat & Hcat & Hn). symmetry.
    apply find_unique_match; [exact Hc| |].
    + unfold AnalysisResult.nameMatches. rewrite Hcat. now apply String.eqb_eq.
    + intros x Hx Hm. apply category_nameMatches_true in Hm as (cx & Hcx & Hnx).
      apply (names_unique a); try assumption.
      unfold lowerNameOf. rewrite Hcx, Hcat. congruence.
  - destruct Hres as [_ Habs]. symmetry.
    destruct (List.find _ _) as [x|] eqn:E; [|reflexivity].
    apply List.find_some in E as [Hx Hm]. apply list_elem_of_In in Hx.
    apply category_nameMatches_true in Hm as (cx & Hcx & Hnx).
    exfalso. apply (Habs x Hx). unfold lowerNameOf. now rewrite Hcx.
Qed.

(** X2. On a category reached by any sequence of calls, [getHintByName]
    returns what the linear search of [hints] alone returns, whatever the
    cache holds, and it changes nothing but the cache; hints of [passed]
    are never returned. *)
Theorem X2_getHintByName_is_scan env (ks : list CategoryResult.call)
    (cname curl : string) (cscan : bool) (lang : option string) (n : string) :
  let c := CategoryResult.run env ks
             (CategoryResult.new env cname curl cscan lang) in
  let r := CategoryResult.getHintByName n c in
  fst r = List.find (CategoryResult.nameMatches c (toLowerCase n))
            (CategoryResult.hints c) /\
  (forall l : loc, fst r = Some l -> l ∉ CategoryResult.passed c) /\
  CategoryResult.hints (snd r) = CategoryResult.hints c /\
  CategoryResult.passed (snd r) = CategoryResult.passed c /\
  CategoryResult.heap (snd r) = CategoryResult.heap c /\
  CategoryResult.hintsCount (snd r) = CategoryResult.hintsCount c.
Proof.
  intros c r.
  assert (W : CategoryWf c) by apply CategoryResult_run_wf, CategoryResult_new_wf.
  destruct (getHintByName_wf n c W) as (_ & Hsame & Hres). fold r in Hsame, Hres.
  split; [|split; [|rewrite Hsame; repeat split]].
  - destruct (fst r) as [l|].
    + destruct Hres as (Hl & h & Hh & Hn). symmetry.
      apply find_unique_match; [exact Hl| |].
      * unfold CategoryResult.nameMatches. rewrite Hh. now apply String.eqb_eq.
      * intros x Hx Hm. apply hint_nameMatches_true in Hm as (hx & Hhx & Hnx).
        apply (hint_names_unique c); try assumption.
        unfold hintLowerNameAt. rewrite Hhx, Hh. congruence.
    + destruct Hres as [_ Habs]. symmetry.
      destruct (List.find _ _) as [x|] eqn:E; [|reflexivity].
      apply List.find_some in E as [Hx Hm]. apply list_elem_of_In in Hx.
      rewrite (Habs x Hx) in Hm. discriminate.
  - intros l Hl. rewrite Hl in Hres. destruct Hres as [Hin _].
    pose proof (cwf_nodup c W) as Hnd. apply NoDup_app in Hnd as (_ & Hd & _).
    now apply Hd.
Qed.

Lemma X2_witness :
  let c := CategoryResult.run sampleEnv
             [CategoryResult.AddHint "manifest" "pass";
              CategoryResult.AddProblem problemA]
             (CategoryResult.new sampleEnv "Security" "https://example.com" false None) in
  fst (CategoryResult.getHintByName "AXE/ARIA" c) = Some 1%nat /\
  (1%nat ∉ CategoryResult.passed c).
Proof.
  intros c. split; [reflexivity|].
  exact (proj1 (proj2
           (X2_getHintByName_is_scan sampleEnv
              [CategoryResult.AddHint "manifest" "pass";
               CategoryResult.AddProblem problemA]
              "Security" "https://example.com" false None "AXE/ARIA"))
           1%nat eq_refl).
Defined.

(** X3. Removing a category twice is removing it once: on a result reached
    by any sequence of calls, a second [removeCategory] for the same name,
    in any spelling that differs only in case, changes nothing. *)
Theorem X3_removeCategory_twice env (ks : list AnalysisResult.call)
    (target : string) (options : FormatterOptions) (n m : string) :
  toLowerCase m = toLowerCase n ->
  let a := AnalysisResult.run env ks (AnalysisResult.new target options) in
  AnalysisResult.removeCategory m (AnalysisResult.removeCategory n a)
  = AnalysisResult.removeCategory n a.
Proof.
  intros Hm a.
  assert (W : AnalysisWf a) by apply AnalysisResult_reachable_wf.
  apply removeCategory_absent; [now apply removeCategory_wf|].
  intros x Hx. rewrite Hm. now apply removeCategory_then_absent.
Qed.

Lemma X3_witness :
  let a := AnalysisResult.run sampleEnv
             [AnalysisResult.AddProblem problemA None;
              AnalysisResult.AddCategory "Performance" None]
             (AnalysisResult.new "https://example.com" sampleOptions) in
  AnalysisResult.removeCategory "SECURITY" (AnalysisResult.removeCategory "security" a)
  = AnalysisResult.removeCategory "security" a.
Proof.
  exact (X3_removeCategory_twice sampleEnv
           [AnalysisResult.AddProblem problemA None;
            AnalysisResult.AddCategory "Performance" None]
           "https://example.com" sampleOptions "security" "SECURITY" eq_refl).
Defined.

(** ** Names are unique *)

(** X4. On a result reached by any sequence of calls no two categories of
    [categories] have names that differ at most in case; on a category
    reached by any sequence of calls no two hints of [hints] have names
    that differ at most in case, and no hint is both in [hints] and in
    [passed]. *)
Theorem X4_names_unique env :
  (forall (ks : list AnalysisResult.call) (target : string)
          (options : FormatterOptions) (c c' : loc) (cat cat' : CategoryResult.t),
     let a := AnalysisResult.run env ks (AnalysisResult.new target options) in
     c ∈ AnalysisResult.categories a -> c' ∈ AnalysisResult.categories a ->
     AnalysisResult.heap a !! c = Some cat ->
     AnalysisResult.heap a !! c' = Some cat' ->
     toLowerCase (CategoryResult.name cat) = toLowerCase (CategoryResult.name cat') ->
     c = c') /\
  (forall (ks : list CategoryResult.call) (cname curl : string) (cscan : bool)
          (lang : option string) (l l' : loc) (h h' : HintResult.t),
     let c := CategoryResult.run env ks
                (CategoryResult.new env cname curl cscan lang) in
     l ∈ CategoryResult.hints c -> l' ∈ CategoryResult.hints c ->
     CategoryResult.heap c !! l = Some h ->
     CategoryResult.heap c !! l' = Some h' ->
     toLowerCase (HintResult.name h) = toLowerCase (HintResult.name h') ->
     l = l' /\ (l ∉ CategoryResult.passed c)).
Proof.
  split.
  - intros ks target options c c' cat cat' a Hc Hc' Hcat Hcat' Hn.
    apply (names_unique a); [apply AnalysisResult_reachable_wf|assumption..|].
    unfold lowerNameOf. now rewrite Hcat, Hcat'.
  - intros ks cname curl cscan lang l l' h h' c Hl Hl' Hh Hh' Hn.
    assert (W : CategoryWf c) by apply CategoryResult_run_wf, CategoryResult_new_wf.
    split.
    + apply (hint_names_unique c); try assumption.
      unfold hintLowerNameAt. now rewrite Hh, Hh'.
    + pose proof (cwf_nodup c W) as Hnd. apply NoDup_app in Hnd as (_ & Hd & _).
      now apply Hd.
Qed.

Lemma X4_witness :
  let c := CategoryResult.run sampleEnv
             [CategoryResult.AddProblem problemA; CategoryResult.AddProblem problemB;
              CategoryResult.AddHint "manifest" "pass"]
             (CategoryResult.new sampleEnv "Security" "https://example.com" false None) in
  CategoryResult.hints c = [0%nat] /\ 0%nat ∉ CategoryResult.passed c.
Proof.
  intros c. split; [reflexivity|].
  refine (proj2 (proj2 (X4_names_unique sampleEnv)
            [CategoryResult.AddProblem problemA; CategoryResult.AddProblem problemB;
             CategoryResult.AddHint "manifest" "pass"]
            "Security" "https://example.com" false None 0%nat 0%nat _ _ _ _
            eq_refl eq_refl eq_refl)); vm_compute; left.
Defined.

(** X5. On a category reached by any sequence of calls, every entry of the
    cache has a lower-cased key and refers to a hint of [hints], never of
    [passed], whose lower-cased name is the key. *)
Theorem X5_hint_cache_coherence env (ks : list CategoryResult.call)
    (cname curl : string) (cscan : bool) (lang : option string)
    (k : string) (l : loc) :
  let c := CategoryResult.run env ks
             (CategoryResult.new env cname curl cscan lang) in
  CategoryResult.cache c !! k = Some l ->
  toLowerCase k = k /\
  l ∈ CategoryResult.hints c /\
  (l ∉ CategoryResult.passed c) /\
  exists h, CategoryResult.heap c !! l = Some h /\
            toLowerCase (HintResult.name h) = k.
Proof.
  intros c Hk.
  assert (W : CategoryWf c) by apply CategoryResult_run_wf, CategoryResult_new_wf.
  destruct (cwf_cache c W k l Hk) as (Hin & h & Hh & Hn).
  split; [rewrite <- Hn; apply toLowerCase_idem|].
  split; [exact Hin|]. split; [|eauto].
  pose proof (cwf_nodup c W) as Hnd. apply NoDup_app in Hnd as (_ & Hd & _).
  now apply Hd.
Qed.

Lemma X5_witness :
  let c := CategoryResult.run sampleEnv
             [CategoryResult.AddProblem problemA; CategoryResult.AddProblem problemB]
             (CategoryResult.new sampleEnv "Security" "https://example.com" false None) in
  CategoryResult.cache c !! "axe/aria" = Some 0%nat /\
  0%nat ∈ CategoryResult.hints c.
Proof.
  intros c. split; [reflexivity|].
  exact (proj1 (proj2
           (X5_hint_cache_coherence sampleEnv
              [CategoryResult.AddProblem problemA; CategoryResult.AddProblem problemB]
              "Security" "https://example.com" false None "axe/aria" 0%nat eq_refl))).
Defined.

(** ** [addHint] again *)

Lemma getHintByName_lower (n m : string) (c : CategoryResult.t) :
  toLowerCase m = toLowerCase n ->
  CategoryResult.getHintByName m c = CategoryResult.getHintByName n c.
Proof.
  intros H. unfold CategoryResult.getHintByName. now rewrite H.
Qed.

(** X6. On a category reached by any sequence of calls, [addHint] with a
    status other than ["pass"] followed by [addHint] with any status and the
    same name, in any spelling that differs only in case, returns the same
    hint both times; the second call creates nothing and leaves the hints,
    their status included, and the count as they were. *)
Theorem X6_addHint_idempotent env (ks : list CategoryResult.call)
    (cname curl : string) (cscan : bool) (lang : option string)
    (n m s s' : string) :
  s <> "pass" -> toLowerCase m = toLowerCase n ->
  let c := CategoryResult.run env ks
             (CategoryResult.new env cname curl cscan lang) in
  let r1 := CategoryResult.addHint env n s c in
  let r2 := CategoryResult.addHint env m s' (snd r1) in
  fst r2 = fst r1 /\
  CategoryResult.heap (snd r2) = CategoryResult.heap (snd r1) /\
  CategoryResult.hints (snd r2) = CategoryResult.hints (snd r1) /\
  CategoryResult.passed (snd r2) = CategoryResult.passed (snd r1) /\
  CategoryResult.hintsCount (snd r2) = CategoryResult.hintsCount (snd r1).
Proof.
  intros Hs Hm c r1 r2.
  assert (W : CategoryWf c) by apply CategoryResult_run_wf, CategoryResult_new_wf.
  destruct (addHint_result env n s c W) as (h & Hh & Hn & Hin).
  specialize (Hin Hs). fold r1 in Hh, Hin.
  assert (W1 : CategoryWf (snd r1)) by now apply addHint_wf.
  destruct (getHintByName_wf n (snd r1) W1) as (_ & Hsame & Hres).
  unfold r2, CategoryResult.addHint. rewrite (getHintByName_lower n m _ Hm).
  destruct (CategoryResult.getHintByName n (snd r1)) as [[l|] c2]; simpl in *.
  - destruct Hres as (Hin' & h' & Hh' & Hn'). rewrite Hsame. simpl.
    split; [|repeat split].
    apply (hint_names_unique (snd r1)); try assumption.
    unfold hintLowerNameAt. rewrite Hh, Hh'. congruence.
  - destruct Hres as [_ Hres]. exfalso.
    apply (nameMatches_false (snd r1) (toLowerCase n) (fst r1) W1 Hin);
      [now apply Hres|].
    unfold hintLowerNameAt. now rewrite Hh.
Qed.

Lemma X6_witness :
  let c := CategoryResult.new sampleEnv "Security" "https://example.com" false None in
  let r1 := CategoryResult.addHint sampleEnv "Axe/Aria" "warning" c in
  let r2 := CategoryResult.addHint sampleEnv "axe/aria" "pass" (snd r1) in
  fst r2 = fst r1 /\
  CategoryResult.heap (snd r2) = CategoryResult.heap (snd r1).
Proof.
  intros c r1 r2.
  assert (Hs : "warning" <> "pass") by discriminate.
  destruct (X6_addHint_idempotent sampleEnv [] "Security" "https://example.com"
              false None "Axe/Aria" "axe/aria" "warning" "pass" Hs eq_refl)
    as (H1 & H2 & _).
  split; [exact H1|exact H2].
Defined.
(** ** Hints only grow *)

Lemma hintExtends_refl (h : HintResult.t) : hintExtends h h.
Proof.
  repeat split. exists []. rewrite app_nil_r. split; [reflexivity|simpl; lia].
Qed.

Lemma hintExtends_trans (h1 h2 h3 : HintResult.t) :
  hintExtends h1 h2 -> hintExtends h2 h3 -> hintExtends h1 h3.
Proof.
  intros (A1 & A2 & A3 & A4 & m1 & A5 & A6) (B1 & B2 & B3 & B4 & m2 & B5 & B6).
  repeat split; try congruence.
  exists (m1 ++ m2). rewrite B5, A5, B6, A6, <- app_assoc, length_app.
  split; [reflexivity|lia].
Qed.

Lemma hintExtends_addProblem (p : Problem.t) (h : HintResult.t) :
  hintExtends h (HintResult.addProblem p h).
Proof. repeat split. exists [p]. simpl. split; [reflexivity|lia]. Qed.

Lemma hintsExtend_refl (hp : list HintResult.t) : hintsExtend hp hp.
Proof. intros l h Hl. eauto using hintExtends_refl. Qed.

Lemma hintsExtend_trans (hp1 hp2 hp3 : list HintResult.t) :
  hintsExtend hp1 hp2 -> hintsExtend hp2 hp3 -> hintsExtend hp1 hp3.
Proof.
  intros H12 H23 l h Hl. destruct (H12 l h Hl) as (h2 & Hl2 & E12).
  destruct (H23 l h2 Hl2) as (h3 & Hl3 & E23).
  eauto using hintExtends_trans.
Qed.

Lemma hintsExtend_alloc (hp : list HintResult.t) (h0 : HintResult.t) :
  hintsExtend hp (hp ++ [h0]).
Proof.
  intros l h Hl. exists h. split; [now apply lookup_app_l_Some|].
  apply hintExtends_refl.
Qed.

Lemma hintsExtend_alter (p : Problem.t) (l : loc) (hp : list HintResult.t) :
  hintsExtend hp (alter (HintResult.addProblem p) l hp).
Proof.
  intros x h Hx. destruct (decide (l = x)) as [<-|Hne].
  - rewrite list_lookup_alter_eq, Hx. simpl.
    eauto using hintExtends_addProblem.
  - rewrite list_lookup_alter_ne by assumption. eauto using hintExtends_refl.
Qed.

Lemma CategoryResult_step_extends env (c : CategoryResult.t)
    (k : CategoryResult.call) :
  hintsExtend (CategoryResult.heap c) (CategoryResult.heap (CategoryResult.step env c k)).
Proof.
  destruct k as [n|n s|p]; simpl.
  - unfold CategoryResult.getHintByName.
    destruct (CategoryResult.cache c !! _); [|destruct (List.find _ _)];
      apply hintsExtend_refl.
  - unfold CategoryResult.addHint, CategoryResult.getHintByName,
      CategoryResult.allocHint.
    destruct (CategoryResult.cache c !! _); [|destruct (List.find _ _)];
      simpl; try apply hintsExtend_refl.
    destruct (String.eqb s "pass"); simpl; apply hintsExtend_alloc.
  - unfold CategoryResult.addProblem, CategoryResult.resolveHint,
      CategoryResult.getHintByName, CategoryResult.allocHint.
    destruct (CategoryResult.cache c !! _); [|destruct (List.find _ _)];
      destruct (CategoryResult.counted _); simpl;
      try apply hintsExtend_alter;
      (eapply hintsExtend_trans; [apply hintsExtend_alloc|apply hintsExtend_alter]).
Qed.

Lemma CategoryResult_run_extends env (ks : list CategoryResult.call)
    (c : CategoryResult.t) :
  hintsExtend (CategoryResult.heap c) (CategoryResult.heap (CategoryResult.run env ks c)).
Proof.
  revert c. induction ks as [|k ks IH]; intros c; simpl; [apply hintsExtend_refl|].
  eapply hintsExtend_trans; [apply CategoryResult_step_extends|apply IH].
Qed.

(** X7. A hint, once created, keeps its name, status, third-party
    information and documentation flag through every later call on the
    category, whatever the severities of the problems reported later; its
    problems are only ever appended to, and its count grows by the number
    appended. *)
Theorem X7_hints_only_grow env (ks0 ks : list CategoryResult.call)
    (cname curl : string) (cscan : bool) (lang : option string)
    (l : loc) (h : HintResult.t) :
  let c0 := CategoryResult.run env ks0
              (CategoryResult.new env cname curl cscan lang) in
  let c := CategoryResult.run env ks c0 in
  CategoryResult.heap c0 !! l = Some h ->
  exists (h' : HintResult.t) (more : list Problem.t),
    CategoryResult.heap c !! l = Some h' /\
    HintResult.name h' = HintResult.name h /\
    HintResult.status h' = HintResult.status h /\
    HintResult.thirdPartyInfo h' = HintResult.thirdPartyInfo h /\
    HintResult.hasDoc h' = HintResult.hasDoc h /\
    HintResult.problems h' = HintResult.problems h ++ more /\
    HintResult.count h' = HintResult.count h + Z.of_nat (length more).
Proof.
  intros c0 c Hl.
  destruct (CategoryResult_run_extends env ks c0 l h Hl)
    as (h' & Hl' & H1 & H2 & H3 & H4 & more & H5 & H6).
  exists h', more. repeat split; assumption.
Qed.

Lemma X7_witness :
  let c0 := CategoryResult.run sampleEnv [CategoryResult.AddProblem problemB]
              (CategoryResult.new sampleEnv "Security" "https://example.com" false None) in
  let c := CategoryResult.run sampleEnv
             [CategoryResult.AddProblem problemA; CategoryResult.AddHint "axe/aria" "pass"]
             c0 in
  exists (h' : HintResult.t),
    CategoryResult.heap c !! 0%nat = Some h' /\
    HintResult.status h' = "warning" /\
    HintResult.name h' = "AXE/ARIA".
Proof.
  intros c0 c.
  destruct (X7_hints_only_grow sampleEnv [CategoryResult.AddProblem problemB]
              [CategoryResult.AddProblem problemA; CategoryResult.AddHint "axe/aria" "pass"]
              "Security" "https://example.com" false None 0%nat _ eq_refl)
    as (h' & more & Hl & Hn & Hs & _).
  exists h'. split; [exact Hl|]. split; [exact Hs|exact Hn].
Defined.

(** ** Categories keep what they were created with *)

Lemma categoryKeeps_refl (cat : CategoryResult.t) : categoryKeeps cat cat.
Proof. repeat split; try apply hintsExtend_refl. lia. Qed.

Lemma categoryKeeps_trans (c1 c2 c3 : CategoryResult.t) :
  categoryKeeps c1 c2 -> categoryKeeps c2 c3 -> categoryKeeps c1 c3.
Proof.
  intros (A1 & A2 & A3 & A4 & A5 & A6 & A7 & A8)
         (B1 & B2 & B3 & B4 & B5 & B6 & B7 & B8).
  repeat split; try congruence; [eauto using hintsExtend_trans|lia].
Qed.

Lemma categoryKeeps_step env (c : CategoryResult.t) (k : CategoryResult.call) :
  categoryKeeps c (CategoryResult.step env c k).
Proof.
  pose proof (CategoryResult_step_extends env c k) as Hext.
  destruct k as [n|n s|p]; simpl in *.
  - unfold CategoryResult.getHintByName in *.
    destruct (CategoryResult.cache c !! _); [|destruct (List.find _ _)];
      repeat split; simpl; try exact Hext; lia.
  - unfold CategoryResult.addHint, CategoryResult.getHintByName,
      CategoryResult.allocHint in *.
    destruct (CategoryResult.cache c !! _); [|destruct (List.find _ _)];
      simpl in *; try destruct (String.eqb s "pass");
      repeat split; simpl; try exact Hext; lia.
  - unfold CategoryResult.addProblem, CategoryResult.resolveHint,
      CategoryResult.getHintByName, CategoryResult.allocHint in *.
    destruct (CategoryResult.cache c !! _); [|destruct (List.find _ _)];
      destruct (CategoryResult.counted _); simpl in *;
      repeat split; simpl; try exact Hext; lia.
Qed.

Lemma categoriesKeep_refl (hp : list CategoryResult.t) : categoriesKeep hp hp.
Proof. intros c cat Hc. eauto using categoryKeeps_refl. Qed.

Lemma categoriesKeep_trans (hp1 hp2 hp3 : list CategoryResult.t) :
  categoriesKeep hp1 hp2 -> categoriesKeep hp2 hp3 -> categoriesKeep hp1 hp3.
Proof.
  intros H12 H23 c cat Hc. destruct (H12 c cat Hc) as (c2 & Hc2 & E12).
  destruct (H23 c c2 Hc2) as (c3 & Hc3 & E23).
  eauto using categoryKeeps_trans.
Qed.

Lemma categoriesKeep_alloc (hp : list CategoryResult.t) (cat0 : CategoryResult.t) :
  categoriesKeep hp (hp ++ [cat0]).
Proof.
  intros c cat Hc. exists cat. split; [now apply lookup_app_l_Some|].
  apply categoryKeeps_refl.
Qed.

Lemma categoriesKeep_alter env (p : Problem.t) (c : loc)
    (hp : list CategoryResult.t) :
  categoriesKeep hp (alter (CategoryResult.addProblem env p) c hp).
Proof.
  intros x cat Hx. destruct (decide (c = x)) as [<-|Hne].
  - rewrite list_lookup_alter_eq, Hx. simpl. eexists. split; [reflexivity|].
    exact (categoryKeeps_step env cat (CategoryResult.AddProblem p)).
  - rewrite list_lookup_alter_ne by assumption. eauto using categoryKeeps_refl.
Qed.

Lemma configuredFor_keeps (u : string) (sc : bool) (cat cat' : CategoryResult.t) :
  categoryKeeps cat cat' -> configuredFor u sc cat -> configuredFor u sc cat'.
Proof.
  intros (_ & _ & _ & K4 & K5 & K6 & _) (C1 & C2 & C3).
  repeat split; congruence.
Qed.

(** A call changes neither the address nor the scanner flag of the result,
    keeps the categories created so far, and creates categories with the
    address and the scanner flag of the result and the status
    ["finished"]. *)
Lemma AnalysisResult_step_keeps env (a : AnalysisResult.t)
    (k : AnalysisResult.call) :
  AnalysisResult.url (AnalysisResult.step env a k) = AnalysisResult.url a /\
  AnalysisResult.isScanner (AnalysisResult.step env a k) = AnalysisResult.isScanner a /\
  categoriesKeep (AnalysisResult.heap a)
    (AnalysisResult.heap (AnalysisResult.step env a k)) /\
  (Forall (configuredFor (AnalysisResult.url a) (AnalysisResult.isScanner a))
     (AnalysisResult.heap a) ->
   Forall (configuredFor (AnalysisResult.url a) (AnalysisResult.isScanner a))
     (AnalysisResult.heap (AnalysisResult.step env a k))).
Proof.
  assert (Hnew : forall n l,
            Forall (configuredFor (AnalysisResult.url a) (AnalysisResult.isScanner a))
              (AnalysisResult.heap a) ->
            Forall (configuredFor (AnalysisResult.url a) (AnalysisResult.isScanner a))
              (AnalysisResult.heap a
                 ++ [CategoryResult.new env n (AnalysisResult.url a)
                       (AnalysisResult.isScanner a) l])).
  { intros n l H. apply Forall_app. split; [exact H|].
    apply Forall_singleton. repeat split. }
  assert (Halter : forall p x (hp : list CategoryResult.t),
            Forall (configuredFor (AnalysisResult.url a) (AnalysisResult.isScanner a)) hp ->
            Forall (configuredFor (AnalysisResult.url a) (AnalysisResult.isScanner a))
              (alter (CategoryResult.addProblem env p) x hp)).
  { intros p x hp H. apply Forall_alter; [exact H|].
    intros cat _. apply configuredFor_keeps.
    exact (categoryKeeps_step env cat (CategoryResult.AddProblem p)). }
  destruct k as [n|p l|n l|n]; simpl.
  - unfold AnalysisResult.getCategoryByName.
    destruct (AnalysisResult.cache a !! _); [|destruct (List.find _ _)];
      simpl; auto using categoriesKeep_refl.
  - unfold AnalysisResult.addProblem, AnalysisResult.resolveCategory,
      AnalysisResult.getCategoryByName, AnalysisResult.pushNewCategory.
    destruct (AnalysisResult.cache a !! _); [|destruct (List.find _ _)];
      destruct (AnalysisResult.counted _); simpl;
      (split; [reflexivity|]); (split; [reflexivity|]);
      (split; [|auto]);
      try apply categoriesKeep_alter;
      (eapply categoriesKeep_trans;
       [apply categoriesKeep_alloc|apply categoriesKeep_alter]).
  - unfold AnalysisResult.addCategory, AnalysisResult.getCategoryByName,
      AnalysisResult.pushNewCategory.
    destruct (AnalysisResult.cache a !! _); [|destruct (List.find _ _)];
      simpl; auto using categoriesKeep_refl, categoriesKeep_alloc.
  - unfold AnalysisResult.removeCategory, AnalysisResult.getCategoryByName.
    destruct (AnalysisResult.cache a !! _); [|destruct (List.find _ _)];
      simpl; auto using categoriesKeep_refl.
Qed.

Lemma AnalysisResult_run_keeps env (ks : list AnalysisResult.call)
    (a : AnalysisResult.t) :
  AnalysisResult.url (AnalysisResult.run env ks a) = AnalysisResult.url a /\
  AnalysisResult.isScanner (AnalysisResult.run env ks a) = AnalysisResult.isScanner a /\
  categoriesKeep (AnalysisResult.heap a)
    (AnalysisResult.heap (AnalysisResult.run env ks a)) /\
  (Forall (configuredFor (AnalysisResult.url a) (AnalysisResult.isScanner a))
     (AnalysisResult.heap a) ->
   Forall (configuredFor (AnalysisResult.url a) (AnalysisResult.isScanner a))
     (AnalysisResult.heap (AnalysisResult.run env ks a))).
Proof.
  revert a. induction ks as [|k ks IH]; intros a; simpl.
  - auto using categoriesKeep_refl.
  - destruct (AnalysisResult_step_keeps env a k) as (U & S & K & C).
    destruct (IH (AnalysisResult.step env a k)) as (U' & S' & K' & C').
    rewrite U, S in *. repeat split; eauto using categoriesKeep_trans.
Qed.

(** X8. A category, once created, stays in the table of the result under
    the same reference and keeps its name, localized name and image through
    every later call, also calls that name it in another spelling or with
    another language; its count never goes down and its hints only grow.
    Every category has the status ["finished"], the address the result was
    built for and its scanner flag. *)
Theorem X8_categories_keep env (ks0 ks : list AnalysisResult.call)
    (target : string) (options : FormatterOptions)
    (c : loc) (cat : CategoryResult.t) :
  let a0 := AnalysisResult.run env ks0 (AnalysisResult.new target options) in
  let a := AnalysisResult.run env ks a0 in
  AnalysisResult.heap a0 !! c = Some cat ->
  exists cat' : CategoryResult.t,
    AnalysisResult.heap a !! c = Some cat' /\
    CategoryResult.name cat' = CategoryResult.name cat /\
    CategoryResult.localizedName cat' = CategoryResult.localizedName cat /\
    CategoryResult.image cat' = CategoryResult.image cat /\
    CategoryResult.status cat' = "finished" /\
    CategoryResult.url cat' = target /\
    CategoryResult.isScanner cat'
      = AnalysisResult.isScanner (AnalysisResult.new target options) /\
    CategoryResult.hintsCount cat <= CategoryResult.hintsCount cat' /\
    hintsExtend (CategoryResult.heap cat) (CategoryResult.heap cat').
Proof.
  intros a0 a Hc.
  destruct (AnalysisResult_run_keeps env ks0 (AnalysisResult.new target options))
    as (U0 & S0 & _ & C0).
  destruct (AnalysisResult_run_keeps env ks a0) as (U & S & K & C).
  fold a0 in U0, S0, C0. fold a in U, S, K, C.
  destruct (K c cat Hc) as (cat' & Hc' & K1 & K2 & K3 & K4 & K5 & K6 & K7 & K8).
  assert (F : Forall (configuredFor (AnalysisResult.url a0) (AnalysisResult.isScanner a0))
                (AnalysisResult.heap a)).
  { apply C. rewrite U0, S0. apply C0. constructor. }
  rewrite Forall_lookup in F. destruct (F c cat' Hc') as (F1 & F2 & F3).
  exists cat'. rewrite U0 in F1. rewrite S0 in F2.
  repeat split; assumption.
Qed.

Lemma X8_witness :
  let a0 := AnalysisResult.run sampleEnv
              [AnalysisResult.AddCategory "Security" (Some "en")]
              (AnalysisResult.new "https://example.com" sampleOptions) in
  let a := AnalysisResult.run sampleEnv
             [AnalysisResult.AddProblem problemB (Some "es");
              AnalysisResult.AddCategory "SECURITY" (Some "fr")] a0 in
  exists cat' : CategoryResult.t,
    AnalysisResult.heap a !! 0%nat = Some cat' /\
    CategoryResult.name cat' = "Security" /\
    CategoryResult.url cat' = "https://example.com".
Proof.
  intros a0 a.
  destruct (X8_categories_keep sampleEnv
              [AnalysisResult.AddCategory "Security" (Some "en")]
              [AnalysisResult.AddProblem problemB (Some "es");
               AnalysisResult.AddCategory "SECURITY" (Some "fr")]
              "https://example.com" sampleOptions 0%nat _ eq_refl)
    as (cat' & Hc & Hn & _ & _ & _ & Hu & _).
  exists cat'. split; [exact Hc|]. split; [exact Hn|exact Hu].
Defined.
(** ** Hints that passed *)

Lemma passedClean_step env (c : CategoryResult.t) (k : CategoryResult.call) :
  CategoryWf c -> passedClean c -> passedClean (CategoryResult.step env c k).
Proof.
  intros W P. destruct k as [n|n s|p]; simpl.
  - destruct (getHintByName_wf n c W) as (_ & -> & _). exact P.
  - unfold CategoryResult.addHint.
    destruct (getHintByName_wf n c W) as (_ & Hsame & Hres).
    destruct (CategoryResult.getHintByName n c) as [[l|] c1]; simpl in *.
    + rewrite Hsame. exact P.
    + destruct Hres as [-> _]. unfold CategoryResult.allocHint.
      destruct (String.eqb_spec s "pass") as [->|Hs]; simpl; intros l Hl; simpl in *.
      * apply elem_of_app in Hl as [Hl|Hl].
        -- destruct (P l Hl) as (h & Hh & Hp). exists h.
           split; [now apply lookup_app_l_Some|exact Hp].
        -- apply list_elem_of_singleton in Hl as ->.
           rewrite lookup_app_r, Nat.sub_diag by lia. simpl.
           eexists. split; [reflexivity|]. repeat split.
      * destruct (P l Hl) as (h & Hh & Hp). exists h.
        split; [now apply lookup_app_l_Some|exact Hp].
  - unfold CategoryResult.addProblem.
    destruct (resolveHint_wf env p c W) as [W1 Hin].
    assert (P1 : passedClean (snd (CategoryResult.resolveHint env p c))).
    { unfold CategoryResult.resolveHint in *.
      destruct (getHintByName_wf (Problem.hintId p) c W) as (_ & Hsame & Hres).
      destruct (CategoryResult.getHintByName (Problem.hintId p) c) as [[l|] c1];
        simpl in *.
      - rewrite Hsame. exact P.
      - destruct Hres as [-> _]. intros l Hl. simpl in *.
        destruct (P l Hl) as (h & Hh & Hp). exists h.
        split; [now apply lookup_app_l_Some|exact Hp]. }
    destruct (CategoryResult.resolveHint env p c) as [l c1]. simpl in *.
    pose proof (cwf_nodup c1 W1) as Hnd. apply NoDup_app in Hnd as (_ & Hd & _).
    intros x Hx.
    assert (Hx1 : x ∈ CategoryResult.passed c1)
      by now destruct (CategoryResult.counted (Problem.severity p)).
    destruct (P1 x Hx1) as (h & Hh & Hp). exists h. split; [|exact Hp].
    assert (l <> x) by (intros ->; exact (Hd x Hin Hx1)).
    destruct (CategoryResult.counted (Problem.severity p)); simpl;
      now rewrite list_lookup_alter_ne.
Qed.

Lemma passedClean_run env (ks : list CategoryResult.call) (c : CategoryResult.t) :
  CategoryWf c -> passedClean c -> passedClean (CategoryResult.run env ks c).
Proof.
  revert c. induction ks as [|k ks IH]; intros c W P; simpl; [exact P|].
  apply IH; [now apply CategoryResult_step_wf|now apply passedClean_step].
Qed.

(** X9. On a category reached by any sequence of calls, every hint of
    [passed] has the status ["pass"], no problem and the count [0]: a
    problem is never stored in a hint of [passed], even one reported under
    the name of such a hint. *)
Theorem X9_passed_hold_no_problem env (ks : list CategoryResult.call)
    (cname curl : string) (cscan : bool) (lang : option string) (l : loc) :
  let c := CategoryResult.run env ks
             (CategoryResult.new env cname curl cscan lang) in
  l ∈ CategoryResult.passed c ->
  exists h, CategoryResult.heap c !! l = Some h /\
            HintResult.status h = "pass" /\
            HintResult.problems h = [] /\
            HintResult.count h = 0.
Proof.
  intros c. apply passedClean_run.
  - apply CategoryResult_new_wf.
  - intros x Hx. inversion Hx.
Qed.

Lemma X9_witness :
  let c := CategoryResult.run sampleEnv
             [CategoryResult.AddHint "axe/aria" "pass";
              CategoryResult.AddProblem problemA]
             (CategoryResult.new sampleEnv "Security" "https://example.com" false None) in
  CategoryResult.passed c = [0%nat] /\
  CategoryResult.hints c = [1%nat] /\
  exists h, CategoryResult.heap c !! 0%nat = Some h /\
            HintResult.name h = "axe/aria" /\
            HintResult.problems h = [].
Proof.
  intros c. split; [reflexivity|]. split; [reflexivity|].
  destruct (X9_passed_hold_no_problem sampleEnv
              [CategoryResult.AddHint "axe/aria" "pass";
               CategoryResult.AddProblem problemA]
              "Security" "https://example.com" false None 0%nat)
    as (h & Hh & _ & Hp & _).
  - vm_compute. left.
  - exists h. split; [exact Hh|]. split; [|exact Hp].
    vm_compute in Hh. injection Hh as <-. reflexivity.
Defined.

(** ** One [addProblem], whatever the cache holds *)

Lemma alter_fresh {A : Type} (f : A -> A) (hp : list A) (x : A) :
  alter f (length hp) (hp ++ [x]) = hp ++ [f x].
Proof.
  induction hp as [|y r IH]; simpl; [reflexivity|]. now f_equal.
Qed.

Lemma categoryKeeps_run env (ks : list CategoryResult.call) (c : CategoryResult.t) :
  categoryKeeps c (CategoryResult.run env ks c).
Proof.
  revert c. induction ks as [|k ks IH]; intros c; simpl; [apply categoryKeeps_refl|].
  eapply categoryKeeps_trans; [apply categoryKeeps_step|apply IH].
Qed.

Lemma hint_lookup_present (m : string) (c : CategoryResult.t) (l : loc)
    (h : HintResult.t) :
  CategoryWf c ->
  l ∈ CategoryResult.hints c ->
  CategoryResult.heap c !! l = Some h ->
  toLowerCase (HintResult.name h) = toLowerCase m ->
  CategoryResult.getHintByName m c
  = (Some l, CategoryResult.set_cache (<[toLowerCase m := l]> (CategoryResult.cache c)) c).
Proof.
  intros W Hl Hh Hn.
  destruct (getHintByName_wf m c W) as (_ & _ & Hres).
  assert (Hfst : fst (CategoryResult.getHintByName m c) = Some l).
  { destruct (fst (CategoryResult.getHintByName m c)) as [l'|].
    - destruct Hres as (Hl' & h' & Hh' & Hn'). f_equal.
      apply (hint_names_unique c); try assumption.
      unfold hintLowerNameAt. rewrite Hh, Hh'. congruence.
    - destruct Hres as [_ Habs]. exfalso.
      apply (nameMatches_false c (toLowerCase m) l W Hl (Habs l Hl)).
      unfold hintLowerNameAt. now rewrite Hh. }
  clear Hres. unfold CategoryResult.getHintByName in *.
  destruct (CategoryResult.cache c !! toLowerCase m) as [l'|] eqn:Hk; simpl in *.
  - injection Hfst as ->. rewrite insert_id by assumption. now destruct c.
  - destruct (List.find _ _) as [l'|]; simpl in *; [|discriminate].
    now injection Hfst as ->.
Qed.

Lemma category_addProblem_absent env (p : Problem.t) (c : CategoryResult.t) :
  CategoryWf c ->
  (forall (l : loc) (h : HintResult.t),
     l ∈ CategoryResult.hints c -> CategoryResult.heap c !! l = Some h ->
     toLowerCase (HintResult.name h) <> toLowerCase (Problem.hintId p)) ->
  let c' := CategoryResult.addProblem env p c in
  CategoryResult.hints c' = CategoryResult.hints c ++ [length (CategoryResult.heap c)] /\
  CategoryResult.passed c' = CategoryResult.passed c /\
  CategoryResult.heap c'
  = CategoryResult.heap c
    ++ [HintResult.addProblem p
          (HintResult.new env (Problem.hintId p)
             (Severity_name (Problem.severity p))
             (CategoryResult.url c) (CategoryResult.isScanner c))] /\
  CategoryResult.cache c' = CategoryResult.cache c.
Proof.
  intros W Habs c'. unfold c', CategoryResult.addProblem, CategoryResult.resolveHint.
  rewrite (getHintByName_absent _ c W Habs). unfold CategoryResult.allocHint.
  destruct (CategoryResult.counted (Problem.severity p)); simpl;
    now rewrite alter_fresh.
Qed.

Lemma category_addProblem_present env (p : Problem.t) (c : CategoryResult.t)
    (l : loc) (h : HintResult.t) :
  CategoryWf c ->
  l ∈ CategoryResult.hints c -> CategoryResult.heap c !! l = Some h ->
  toLowerCase (HintResult.name h) = toLowerCase (Problem.hintId p) ->
  let c' := CategoryResult.addProblem env p c in
  CategoryResult.hints c' = CategoryResult.hints c /\
  CategoryResult.passed c' = CategoryResult.passed c /\
  CategoryResult.heap c'
  = alter (HintResult.addProblem p) l (CategoryResult.heap c) /\
  CategoryResult.cache c'
  = <[toLowerCase (Problem.hintId p) := l]> (CategoryResult.cache c).
Proof.
  intros W Hl Hh Hn c'.
  unfold c', CategoryResult.addProblem, CategoryResult.resolveHint.
  rewrite (hint_lookup_present _ c l h W Hl Hh Hn).
  destruct (CategoryResult.counted (Problem.severity p)); repeat split.
Qed.

(** X10. What one [addProblem] does to a category reached by any sequence
    of calls does not depend on the cache: when no hint of [hints] answers
    to the problem's hint id, whatever [passed] holds, a new hint named by
    the id as given, with the severity's name as its status and the problem
    as its only problem, is appended to [hints]; when a hint of [hints]
    answers to the id in any case, the problem is appended to that hint and
    nothing else of the table of hints, of [hints] and of [passed]
    changes. *)
Theorem X10_category_addProblem env (ks : list CategoryResult.call)
    (cname curl : string) (cscan : bool) (lang : option string)
    (p : Problem.t) :
  let c := CategoryResult.run env ks
             (CategoryResult.new env cname curl cscan lang) in
  let c' := CategoryResult.addProblem env p c in
  ((forall (l : loc) (h : HintResult.t),
      l ∈ CategoryResult.hints c -> CategoryResult.heap c !! l = Some h ->
      toLowerCase (HintResult.name h) <> toLowerCase (Problem.hintId p)) ->
   CategoryResult.hints c' = CategoryResult.hints c ++ [length (CategoryResult.heap c)] /\
   CategoryResult.passed c' = CategoryResult.passed c /\
   CategoryResult.heap c'
   = CategoryResult.heap c
     ++ [HintResult.addProblem p
           (HintResult.new env (Problem.hintId p)
              (Severity_name (Problem.severity p)) curl cscan)] /\
   CategoryResult.cache c' = CategoryResult.cache c) /\
  (forall (l : loc) (h : HintResult.t),
     l ∈ CategoryResult.hints c -> CategoryResult.heap c !! l = Some h ->
     toLowerCase (HintResult.name h) = toLowerCase (Problem.hintId p) ->
     CategoryResult.hints c' = CategoryResult.hints c /\
     CategoryResult.passed c' = CategoryResult.passed c /\
     CategoryResult.heap c'
     = alter (HintResult.addProblem p) l (CategoryResult.heap c) /\
     CategoryResult.cache c'
     = <[toLowerCase (Problem.hintId p) := l]> (CategoryResult.cache c)).
Proof.
  intros c c'.
  assert (W : CategoryWf c) by apply CategoryResult_run_wf, CategoryResult_new_wf.
  destruct (categoryKeeps_run env ks (CategoryResult.new env cname curl cscan lang))
    as (_ & _ & _ & _ & Hu & Hs & _).
  fold c in Hu, Hs. simpl in Hu, Hs.
  split.
  - intros Habs.
    pose proof (category_addProblem_absent env p c W Habs) as H.
    rewrite Hu, Hs in H. exact H.
  - intros l h Hl Hh Hn. now apply (category_addProblem_present env p c l h).
Qed.

Lemma X10_witness :
  let c := CategoryResult.run sampleEnv
             [CategoryResult.AddHint "axe/aria" "pass";
              CategoryResult.AddProblem problemA]
             (CategoryResult.new sampleEnv "Security" "https://example.com" false None) in
  CategoryResult.heap (CategoryResult.addProblem sampleEnv problemB c)
  = alter (HintResult.addProblem problemB) 1%nat (CategoryResult.heap c) /\
  CategoryResult.hints (CategoryResult.addProblem sampleEnv problemC c)
  = CategoryResult.hints c ++ [2%nat].
Proof.
  intros c. split.
  - refine (proj1 (proj2 (proj2
              (proj2 (X10_category_addProblem sampleEnv
                        [CategoryResult.AddHint "axe/aria" "pass";
                         CategoryResult.AddProblem problemA]
                        "Security" "https://example.com" false None problemB)
                 1%nat _ _ eq_refl eq_refl)))).
    vm_compute. left.
  - refine (proj1 (proj1 (X10_category_addProblem sampleEnv
                      [CategoryResult.AddHint "axe/aria" "pass";
                       CategoryResult.AddProblem problemA]
                      "Security" "https://example.com" false None problemC) _)).
    intros l h Hl Hh. fold c in Hl, Hh.
    assert (E : CategoryResult.hints c = [1%nat]) by reflexivity.
    rewrite E in Hl. apply list_elem_of_singleton in Hl. subst l.
    vm_compute in Hh. injection Hh as <-. vm_compute. discriminate.
Defined.

Lemma getCategoryByName_present (m : string) (a : AnalysisResult.t) (c : loc)
    (cat : CategoryResult.t) :
  AnalysisWf a ->
  c ∈ AnalysisResult.categories a ->
  AnalysisResult.heap a !! c = Some cat ->
  toLowerCase (CategoryResult.name cat) = toLowerCase m ->
  AnalysisResult.getCategoryByName m a
  = (Some c, AnalysisResult.set_cache (<[toLowerCase m := c]> (AnalysisResult.cache a)) a).
Proof.
  intros W Hc Hcat Hn.
  destruct (lookup_present m a c cat W Hc Hcat Hn) as [Hfst _].
  unfold AnalysisResult.getCategoryByName in *.
  destruct (AnalysisResult.cache a !! toLowerCase m) as [c'|] eqn:Hk; simpl in *.
  - injection Hfst as ->. rewrite insert_id by assumption. now destruct a.
  - destruct (List.find _ _) as [c'|]; simpl in *; [|discriminate].
    now injection Hfst as ->.
Qed.

Lemma analysis_addProblem_absent env (p : Problem.t) (language : option string)
    (a : AnalysisResult.t) :
  AnalysisWf a -> categoryAbsent (Problem.category p) a ->
  let a' := AnalysisResult.addProblem env p language a in
  AnalysisResult.categories a'
    = AnalysisResult.categories a ++ [length (AnalysisResult.heap a)] /\
  AnalysisResult.heap a'
    = AnalysisResult.heap a
      ++ [CategoryResult.addProblem env p
            (CategoryResult.new env (Problem.category p) (AnalysisResult.url a)
               (AnalysisResult.isScanner a) language)] /\
  AnalysisResult.cache a' = AnalysisResult.cache a.
Proof.
  intros W Habs a'.
  unfold a', AnalysisResult.addProblem, AnalysisResult.resolveCategory.
  rewrite (getCategoryByName_absent _ a W Habs).
  unfold AnalysisResult.pushNewCategory.
  destruct (AnalysisResult.counted (Problem.severity p)); simpl;
    now rewrite alter_fresh.
Qed.

Lemma analysis_addProblem_present env (p : Problem.t) (language : option string)
    (a : AnalysisResult.t) (c : loc) (cat : CategoryResult.t) :
  AnalysisWf a ->
  c ∈ AnalysisResult.categories a -> AnalysisResult.heap a !! c = Some cat ->
  toLowerCase (CategoryResult.name cat) = toLowerCase (Problem.category p) ->
  let a' := AnalysisResult.addProblem env p language a in
  AnalysisResult.categories a' = AnalysisResult.categories a /\
  AnalysisResult.heap a'
    = alter (CategoryResult.addProblem env p) c (AnalysisResult.heap a) /\
  AnalysisResult.cache a'
    = <[toLowerCase (Problem.category p) := c]> (AnalysisResult.cache a).
Proof.
  intros W Hc Hcat Hn a'.
  unfold a', AnalysisResult.addProblem, AnalysisResult.resolveCategory.
  rewrite (getCategoryByName_present _ a c cat W Hc Hcat Hn).
  destruct (AnalysisResult.counted (Problem.severity p)); repeat split.
Qed.

(** X11. What one [addProblem] does to a result reached by any sequence of
    calls does not depend on the cache: when no category answers to the
    problem's category, a new category is created under the spelling of
    the problem, with the language of the call, appended to [categories]
    and given the problem; when a category answers to it in any case, the
    problem is given to that category, the language of the call is not
    used, and nothing else of the table of categories and of [categories]
    changes.  In both cases the total is raised by one exactly for the
    severities [error] and [warning]. *)
Theorem X11_analysis_addProblem env (ks : list AnalysisResult.call)
    (target : string) (options : FormatterOptions)
    (p : Problem.t) (language : option string) :
  let a := AnalysisResult.run env ks (AnalysisResult.new target options) in
  let a' := AnalysisResult.addProblem env p language a in
  AnalysisResult.hintsCount a'
    = AnalysisResult.hintsCount a
      + (if AnalysisResult.counted (Problem.severity p) then 1 else 0) /\
  (categoryAbsent (Problem.category p) a ->
   AnalysisResult.categories a'
     = AnalysisResult.categories a ++ [length (AnalysisResult.heap a)] /\
   AnalysisResult.heap a'
     = AnalysisResult.heap a
       ++ [CategoryResult.addProblem env p
             (CategoryResult.new env (Problem.category p) target
                (AnalysisResult.isScanner (AnalysisResult.new target options))
                language)] /\
   AnalysisResult.cache a' = AnalysisResult.cache a) /\
  (forall (c : loc) (cat : CategoryResult.t),
     c ∈ AnalysisResult.categories a -> AnalysisResult.heap a !! c = Some cat ->
     toLowerCase (CategoryResult.name cat) = toLowerCase (Problem.category p) ->
     AnalysisResult.categories a' = AnalysisResult.categories a /\
     AnalysisResult.heap a'
       = alter (CategoryResult.addProblem env p) c (AnalysisResult.heap a) /\
     AnalysisResult.cache a'
       = <[toLowerCase (Problem.category p) := c]> (AnalysisResult.cache a)).
Proof.
  intros a a'.
  assert (W : AnalysisWf a) by apply AnalysisResult_reachable_wf.
  destruct (AnalysisResult_run_keeps env ks (AnalysisResult.new target options))
    as (Hu & Hs & _). fold a in Hu, Hs. simpl in Hu.
  split; [apply AnalysisResult_addProblem_hintsCount|]. split.
  - intros Habs.
    pose proof (analysis_addProblem_absent env p language a W Habs) as H.
    rewrite Hu, Hs in H. exact H.
  - intros c cat Hc Hcat Hn.
    now apply (analysis_addProblem_present env p language a c cat).
Qed.

Lemma X11_witness :
  let a := AnalysisResult.run sampleEnv [AnalysisResult.AddProblem problemA (Some "en")]
             (AnalysisResult.new "https://example.com" sampleOptions) in
  AnalysisResult.categories
    (AnalysisResult.addProblem sampleEnv problemB (Some "es") a)
  = AnalysisResult.categories a /\
  AnalysisResult.heap (AnalysisResult.addProblem sampleEnv problemB (Some "es") a)
  = alter (CategoryResult.addProblem sampleEnv problemB) 0%nat (AnalysisResult.heap a).
Proof.
  intros a.
  destruct (proj2 (proj2 (X11_analysis_addProblem sampleEnv
                            [AnalysisResult.AddProblem problemA (Some "en")]
                            "https://example.com" sampleOptions problemB (Some "es")))
              0%nat _ (list_elem_of_here 0%nat []) eq_refl eq_refl) as (H1 & H2 & _).
  split; [exact H1|exact H2].
Defined.
(** ** Problems grouped by hint *)

Lemma find_app {A : Type} (f : A -> bool) (xs ys : list A) :
  List.find f (xs ++ ys)
  = match List.find f xs with
    | Some x => Some x
    | None => List.find f ys
    end.
Proof.
  induction xs as [|x r IH]; simpl; [reflexivity|]. now destruct (f x).
Qed.

Lemma find_none_filter {A : Type} (f : A -> bool) (xs : list A) :
  (forall x, x ∈ xs -> f x = false) ->
  List.find f xs = None /\ List.filter f xs = [].
Proof.
  induction xs as [|x r IH]; intros H; simpl; [auto|].
  rewrite (H x) by now left.
  apply IH. intros y Hy. apply H. now right.
Qed.

Lemma hintIdIs_true (k : string) (p : Problem.t) :
  hintIdIs k p = true <-> toLowerCase (Problem.hintId p) = k.
Proof. unfold hintIdIs. apply String.eqb_eq. Qed.

Lemma hintIdIs_false (k : string) (p : Problem.t) :
  hintIdIs k p = false <-> toLowerCase (Problem.hintId p) <> k.
Proof. unfold hintIdIs. apply String.eqb_neq. Qed.

Lemma hintsGrouped_addProblem env (ps : list Problem.t) (p : Problem.t)
    (c : CategoryResult.t) :
  CategoryWf c -> hintsGrouped ps c ->
  hintsGrouped (ps ++ [p]) (CategoryResult.addProblem env p c).
Proof.
  intros W (Gp & Ghas & Gh).
  assert (Hlive : forall l, l ∈ CategoryResult.hints c ->
                    exists h, CategoryResult.heap c !! l = Some h).
  { intros l Hl. apply lookup_lt_is_Some_2, (cwf_live c W), elem_of_app. now left. }
  destruct (List.find (CategoryResult.nameMatches c (toLowerCase (Problem.hintId p))) (CategoryResult.hints c))
    as [l|] eqn:Hfind.
  - (* a hint of [hints] answers to the id *)
    apply List.find_some in Hfind as [Hl Hm]. apply list_elem_of_In in Hl.
    apply hint_nameMatches_true in Hm as (h & Hh & Hn).
    destruct (category_addProblem_present env p c l h W Hl Hh Hn)
      as (Eh & Ep & Eheap & _).
    split; [congruence|]. split.
    + intros q Hq. rewrite Eh, Eheap.
      assert (Hnames : forall x, hintLowerNameAt
                         (alter (HintResult.addProblem p) l (CategoryResult.heap c)) x
                       = hintLowerNameAt (CategoryResult.heap c) x).
      { intros x. unfold hintLowerNameAt. destruct (decide (l = x)) as [<-|Hne].
        - rewrite list_lookup_alter_eq, Hh. reflexivity.
        - now rewrite list_lookup_alter_ne. }
      apply elem_of_app in Hq as [Hq|Hq].
      * destruct (Ghas q Hq) as (x & Hx & Hxn). exists x. now rewrite Hnames.
      * apply list_elem_of_singleton in Hq as ->. exists l. split; [exact Hl|].
        rewrite Hnames. unfold hintLowerNameAt. now rewrite Hh.
    + intros x hx Hx Hhx. rewrite Eh in Hx. rewrite Eheap in Hhx.
      destruct (decide (l = x)) as [<-|Hne].
      * rewrite list_lookup_alter_eq, Hh in Hhx. simpl in Hhx. injection Hhx as <-.
        destruct (Gh l h Hl Hh) as (p0 & Hf & Hname & Hstat & Hprob).
        exists p0. simpl. rewrite find_app, Hf, List.filter_app, Hprob. simpl.
        replace (hintIdIs (toLowerCase (HintResult.name h)) p) with true
          by (symmetry; now apply hintIdIs_true).
        auto.
      * rewrite list_lookup_alter_ne in Hhx by assumption.
        destruct (Gh x hx Hx Hhx) as (p0 & Hf & Hname & Hstat & Hprob).
        exists p0. rewrite find_app, Hf, List.filter_app, Hprob. simpl.
        replace (hintIdIs (toLowerCase (HintResult.name hx)) p) with false.
        { rewrite app_nil_r. auto. }
        symmetry. apply hintIdIs_false. intros E. apply Hne.
        apply (hint_names_unique c); try assumption.
        unfold hintLowerNameAt. rewrite Hh, Hhx. congruence.
  - (* no hint of [hints] answers to the id *)
    assert (Habs : forall l h, l ∈ CategoryResult.hints c ->
                     CategoryResult.heap c !! l = Some h ->
                     toLowerCase (HintResult.name h) <> toLowerCase (Problem.hintId p)).
    { intros l h Hl Hh E. apply list_elem_of_In in Hl.
      pose proof (List.find_none _ _ Hfind l Hl) as Hm.
      unfold CategoryResult.nameMatches in Hm. rewrite Hh in Hm.
      apply String.eqb_neq in Hm. contradiction. }
    destruct (category_addProblem_absent env p c W Habs) as (Eh & Ep & Eheap & _).
    assert (Hnone : forall q, q ∈ ps -> hintIdIs (toLowerCase (Problem.hintId p)) q = false).
    { intros q Hq. apply hintIdIs_false. intros E.
      destruct (Ghas q Hq) as (x & Hx & Hxn). destruct (Hlive x Hx) as [hx Hhx].
      apply (Habs x hx Hx Hhx). unfold hintLowerNameAt in Hxn. rewrite Hhx in Hxn.
      congruence. }
    destruct (find_none_filter _ _ Hnone) as [Hf0 Hfil0].
    split; [congruence|]. split.
    + intros q Hq. rewrite Eh, Eheap. apply elem_of_app in Hq as [Hq|Hq].
      * destruct (Ghas q Hq) as (x & Hx & Hxn). exists x.
        split; [apply elem_of_app; now left|].
        destruct (Hlive x Hx) as [hx Hhx]. unfold hintLowerNameAt in *.
        now rewrite (lookup_app_l_Some _ _ _ _ Hhx), <- Hxn, Hhx.
      * apply list_elem_of_singleton in Hq as ->.
        exists (length (CategoryResult.heap c)).
        split; [apply elem_of_app; right; now left|].
        unfold hintLowerNameAt. now rewrite lookup_app_r, Nat.sub_diag by lia.
    + intros x hx Hx Hhx. rewrite Eh in Hx. rewrite Eheap in Hhx.
      apply elem_of_app in Hx as [Hx|Hx].
      * destruct (Hlive x Hx) as [hx' Hhx'].
        rewrite (lookup_app_l_Some _ _ _ _ Hhx') in Hhx. injection Hhx as <-.
        destruct (Gh x hx' Hx Hhx') as (p0 & Hf & Hname & Hstat & Hprob).
        exists p0. rewrite find_app, Hf, List.filter_app, Hprob. simpl.
        replace (hintIdIs (toLowerCase (HintResult.name hx')) p) with false.
        { rewrite app_nil_r. auto. }
        symmetry. apply hintIdIs_false. intros E. now apply (Habs x hx' Hx Hhx').
      * apply list_elem_of_singleton in Hx as ->.
        rewrite lookup_app_r, Nat.sub_diag in Hhx by lia. simpl in Hhx.
        injection Hhx as <-. exists p. simpl.
        rewrite find_app, Hf0, List.filter_app, Hfil0. simpl.
        replace (hintIdIs (toLowerCase (Problem.hintId p)) p) with true
          by (symmetry; now apply hintIdIs_true).
        auto.
Qed.

Lemma run_reportToCategory_snoc env (ps : list Problem.t) (p : Problem.t)
    (c : CategoryResult.t) :
  CategoryResult.run env (reportToCategory (ps ++ [p])) c
  = CategoryResult.addProblem env p (CategoryResult.run env (reportToCategory ps) c).
Proof.
  unfold CategoryResult.run, reportToCategory.
  now rewrite map_app, fold_left_app.
Qed.

Lemma hintsGrouped_report env (ps : list Problem.t) (cname curl : string)
    (cscan : bool) (lang : option string) :
  hintsGrouped ps
    (CategoryResult.run env (reportToCategory ps)
       (CategoryResult.new env cname curl cscan lang)).
Proof.
  induction ps as [|p ps IH] using rev_ind.
  - split; [reflexivity|]. split.
    + intros p Hp. inversion Hp.
    + intros l h Hl. inversion Hl.
  - rewrite run_reportToCategory_snoc. apply hintsGrouped_addProblem; [|exact IH].
    apply CategoryResult_run_wf, CategoryResult_new_wf.
Qed.

Lemma CategoryResult_step_hintsCount env (c : CategoryResult.t)
    (k : CategoryResult.call) :
  CategoryResult.hintsCount (CategoryResult.step env c k)
  = CategoryResult.hintsCount c
    + countWhere CategoryResult.counted (categoryReported [k]).
Proof.
  destruct k as [n|n s|p]; simpl.
  - unfold CategoryResult.getHintByName, countWhere.
    destruct (CategoryResult.cache c !! _); [|destruct (List.find _ _)];
      simpl; lia.
  - unfold CategoryResult.addHint, CategoryResult.getHintByName,
      CategoryResult.allocHint, countWhere.
    destruct (CategoryResult.cache c !! _); [|destruct (List.find _ _)];
      simpl; try destruct (String.eqb s "pass"); simpl; lia.
  - rewrite addProblem_hintsCount, countWhere_one. reflexivity.
Qed.

Lemma categoryReported_app (ks1 ks2 : list CategoryResult.call) :
  categoryReported (ks1 ++ ks2) = categoryReported ks1 ++ categoryReported ks2.
Proof. unfold categoryReported. apply flat_map_app. Qed.

Lemma CategoryResult_run_hintsCount env (ks : list CategoryResult.call)
    (c : CategoryResult.t) :
  CategoryResult.hintsCount (CategoryResult.run env ks c)
  = CategoryResult.hintsCount c
    + countWhere CategoryResult.counted (categoryReported ks).
Proof.
  revert c. induction ks as [|k ks IH]; intros c.
  - unfold countWhere. simpl. lia.
  - change (CategoryResult.run env (k :: ks) c)
      with (CategoryResult.run env ks (CategoryResult.step env c k)).
    rewrite IH, CategoryResult_step_hintsCount.
    change (k :: ks) with ([k] ++ ks).
    rewrite categoryReported_app, countWhere_app. lia.
Qed.

Lemma categoryReported_report (ps : list Problem.t) :
  categoryReported (reportToCategory ps) = ps.
Proof.
  induction ps as [|p ps IH]; simpl; [reflexivity|]. now rewrite IH.
Qed.

(** X12. Reporting the problems [ps] to a new category groups them by hint
    id without regard to case: nothing is filed in [passed]; every problem
    has a hint in [hints] answering to its id; and each hint of [hints] has
    the id and the severity's name of the first problem reported for it as
    its name and status, and exactly the problems reported for it, in the
    order reported, as its problems.  The count of the category is the
    number of the problems that are neither [off] nor [default]. *)
Theorem X12_problems_grouped_by_hint env (ps : list Problem.t)
    (cname curl : string) (cscan : bool) (lang : option string) :
  let c := CategoryResult.run env (reportToCategory ps)
             (CategoryResult.new env cname curl cscan lang) in
  CategoryResult.passed c = [] /\
  CategoryResult.hintsCount c
    = Z.of_nat (length (List.filter neitherOffNorDefault ps)) /\
  (forall p : Problem.t, p ∈ ps ->
     exists (l : loc) (h : HintResult.t),
       l ∈ CategoryResult.hints c /\
       CategoryResult.heap c !! l = Some h /\
       toLowerCase (HintResult.name h) = toLowerCase (Problem.hintId p)) /\
  (forall (l : loc) (h : HintResult.t),
     l ∈ CategoryResult.hints c -> CategoryResult.heap c !! l = Some h ->
     exists p0 : Problem.t,
       List.find (hintIdIs (toLowerCase (HintResult.name h))) ps = Some p0 /\
       HintResult.name h = Problem.hintId p0 /\
       HintResult.status h = Severity_name (Problem.severity p0) /\
       HintResult.problems h
       = List.filter (hintIdIs (toLowerCase (HintResult.name h))) ps /\
       HintResult.count h
       = Z.of_nat (length (List.filter
                             (hintIdIs (toLowerCase (HintResult.name h))) ps))).
Proof.
  intros c.
  assert (W : CategoryWf c) by apply CategoryResult_run_wf, CategoryResult_new_wf.
  destruct (hintsGrouped_report env ps cname curl cscan lang) as (Gp & Ghas & Gh).
  fold c in Gp, Ghas, Gh.
  split; [exact Gp|]. split; [|split].
  - unfold c. rewrite CategoryResult_run_hintsCount, categoryReported_report.
    simpl. now rewrite counted_neitherOffNorDefault.
  - intros p Hp. destruct (Ghas p Hp) as (l & Hl & Hn).
    assert (Hlt : (l < length (CategoryResult.heap c))%nat).
    { apply (cwf_live c W), elem_of_app. now left. }
    destruct (lookup_lt_is_Some_2 _ _ Hlt) as [h Hh].
    exists l, h. split; [exact Hl|]. split; [exact Hh|].
    unfold hintLowerNameAt in Hn. now rewrite Hh in Hn.
  - intros l h Hl Hh. destruct (Gh l h Hl Hh) as (p0 & Hf & Hname & Hstat & Hprob).
    exists p0. split; [exact Hf|]. split; [exact Hname|]. split; [exact Hstat|].
    split; [exact Hprob|]. rewrite <- Hprob. exact (cwf_hint_count c W l h Hh).
Qed.

Lemma X12_witness :
  let c := CategoryResult.run sampleEnv
             (reportToCategory [problemB; problemC; problemA; problemD])
             (CategoryResult.new sampleEnv "Security" "https://example.com" false None) in
  exists h : HintResult.t,
    CategoryResult.heap c !! 0%nat = Some h /\
    HintResult.name h = "AXE/ARIA" /\
    HintResult.status h = "warning" /\
    HintResult.problems h = [problemB; problemA; problemD].
Proof.
  intros c.
  destruct (proj2 (proj2 (proj2
              (X12_problems_grouped_by_hint sampleEnv
                 [problemB; problemC; problemA; problemD]
                 "Security" "https://example.com" false None)))
              0%nat _ (list_elem_of_here 0%nat [1%nat]) eq_refl)
    as (p0 & Hf & Hn & Hs & Hp & _).
  eexists. split; [reflexivity|].
  vm_compute in Hf. injection Hf as <-.
  split; [exact Hn|]. split; [exact Hs|exact Hp].
Defined.
(** ** Problems grouped by category *)

Lemma categoryIs_true (k : string) (pl : Problem.t * option string) :
  categoryIs k pl = true <-> toLowerCase (Problem.category (fst pl)) = k.
Proof. unfold categoryIs. apply String.eqb_eq. Qed.

Lemma categoryIs_false (k : string) (pl : Problem.t * option string) :
  categoryIs k pl = false <-> toLowerCase (Problem.category (fst pl)) <> k.
Proof. unfold categoryIs. apply String.eqb_neq. Qed.

Lemma CategoryResult_run_name env (ks : list CategoryResult.call)
    (c : CategoryResult.t) :
  CategoryResult.name (CategoryResult.run env ks c) = CategoryResult.name c.
Proof. now destruct (categoryKeeps_run env ks c) as (H & _). Qed.

Lemma categoriesGrouped_addProblem env (target : string) (sc : bool)
    (pls : list (Problem.t * option string)) (p : Problem.t)
    (language : option string) (a : AnalysisResult.t) :
  AnalysisWf a ->
  AnalysisResult.url a = target -> AnalysisResult.isScanner a = sc ->
  categoriesGrouped env target sc pls a ->
  categoriesGrouped env target sc (pls ++ [(p, language)])
    (AnalysisResult.addProblem env p language a).
Proof.
  intros W Hu Hs (Ghas & Gc).
  assert (Hlive : forall c, c ∈ AnalysisResult.categories a ->
                    exists cat, AnalysisResult.heap a !! c = Some cat).
  { intros c Hc. apply lookup_lt_is_Some_2, (awf_live a W), Hc. }
  destruct (absent_or_present (Problem.category p) a W)
    as [Habs|(c & cat & Hc & Hcat & Hn)].
  - (* no category answers to the problem's category *)
    destruct (analysis_addProblem_absent env p language a W Habs)
      as (Ec & Eheap & _).
    rewrite Hu, Hs in Eheap.
    assert (Hnone : forall q, q ∈ pls ->
              categoryIs (toLowerCase (Problem.category p)) q = false).
    { intros q Hq. apply categoryIs_false. intros E.
      destruct (Ghas q Hq) as (x & Hx & Hxn). apply (Habs x Hx). congruence. }
    destruct (find_none_filter _ _ Hnone) as [Hf0 Hfil0].
    split.
    + intros q Hq. apply elem_of_app in Hq as [Hq|Hq].
      * destruct (Ghas q Hq) as (x & Hx & Hxn). exists x.
        rewrite Ec. split; [apply elem_of_app; now left|].
        destruct (Hlive x Hx) as [cx Hcx]. unfold lowerNameOf in *.
        now rewrite Eheap, (lookup_app_l_Some _ _ _ _ Hcx), <- Hxn, Hcx.
      * apply list_elem_of_singleton in Hq as ->.
        exists (length (AnalysisResult.heap a)). rewrite Ec.
        split; [apply elem_of_app; right; now left|].
        unfold lowerNameOf. rewrite Eheap, lookup_app_r, Nat.sub_diag by lia.
        simpl. now rewrite addProblem_name.
    + intros x cx Hx Hcx. rewrite Ec in Hx. rewrite Eheap in Hcx.
      apply elem_of_app in Hx as [Hx|Hx].
      * destruct (Hlive x Hx) as [cx' Hcx'].
        rewrite (lookup_app_l_Some _ _ _ _ Hcx') in Hcx. injection Hcx as <-.
        destruct (Gc x cx' Hx Hcx') as (pl0 & Hf & Hrun).
        exists pl0. rewrite find_app, Hf, List.filter_app. simpl.
        replace (categoryIs (toLowerCase (CategoryResult.name cx')) (p, language))
          with false.
        { rewrite app_nil_r. auto. }
        symmetry. apply categoryIs_false. simpl. intros E.
        apply (Habs x Hx). unfold lowerNameOf. now rewrite Hcx'.
      * apply list_elem_of_singleton in Hx as ->.
        rewrite lookup_app_r, Nat.sub_diag in Hcx by lia. simpl in Hcx.
        injection Hcx as <-. rewrite addProblem_name. simpl.
        exists (p, language).
        rewrite find_app, Hf0, List.filter_app, Hfil0. simpl.
        replace (categoryIs (toLowerCase (Problem.category p)) (p, language))
          with true by (symmetry; now apply categoryIs_true).
        auto.
  - (* a category answers to it *)
    destruct (analysis_addProblem_present env p language a c cat W Hc Hcat Hn)
      as (Ec & Eheap & _).
    assert (Hnames : forall x, lowerNameOf (AnalysisResult.addProblem env p language a) x
                              = lowerNameOf a x).
    { intros x. unfold lowerNameOf. rewrite Eheap.
      destruct (decide (c = x)) as [<-|Hne].
      - rewrite list_lookup_alter_eq, Hcat. simpl. now rewrite addProblem_name.
      - now rewrite list_lookup_alter_ne. }
    split.
    + intros q Hq. rewrite Ec. apply elem_of_app in Hq as [Hq|Hq].
      * destruct (Ghas q Hq) as (x & Hx & Hxn). exists x. now rewrite Hnames.
      * apply list_elem_of_singleton in Hq as ->. exists c. split; [exact Hc|].
        rewrite Hnames. unfold lowerNameOf. now rewrite Hcat.
    + intros x cx Hx Hcx. rewrite Ec in Hx. rewrite Eheap in Hcx.
      destruct (decide (c = x)) as [<-|Hne].
      * rewrite list_lookup_alter_eq, Hcat in Hcx. simpl in Hcx. injection Hcx as <-.
        destruct (Gc c cat Hc Hcat) as (pl0 & Hf & Hrun).
        exists pl0. rewrite addProblem_name, find_app, Hf, List.filter_app. simpl.
        replace (categoryIs (toLowerCase (CategoryResult.name cat)) (p, language))
          with true by (symmetry; now apply categoryIs_true).
        split; [reflexivity|].
        rewrite map_app. simpl. rewrite run_reportToCategory_snoc. now rewrite <- Hrun.
      * rewrite list_lookup_alter_ne in Hcx by assumption.
        destruct (Gc x cx Hx Hcx) as (pl0 & Hf & Hrun).
        exists pl0. rewrite find_app, Hf, List.filter_app. simpl.
        replace (categoryIs (toLowerCase (CategoryResult.name cx)) (p, language))
          with false.
        { rewrite app_nil_r. auto. }
        symmetry. apply categoryIs_false. simpl. intros E. apply Hne.
        apply (names_unique a); try assumption.
        unfold lowerNameOf. rewrite Hcat, Hcx. congruence.
Qed.

Lemma run_reportToAnalysis_snoc env (pls : list (Problem.t * option string))
    (p : Problem.t) (language : option string) (a : AnalysisResult.t) :
  AnalysisResult.run env (reportToAnalysis (pls ++ [(p, language)])) a
  = AnalysisResult.addProblem env p language
      (AnalysisResult.run env (reportToAnalysis pls) a).
Proof.
  unfold AnalysisResult.run, reportToAnalysis.
  now rewrite map_app, fold_left_app.
Qed.

Lemma categoriesGrouped_report env (pls : list (Problem.t * option string))
    (target : string) (options : FormatterOptions) :
  categoriesGrouped env target
    (AnalysisResult.isScanner (AnalysisResult.new target options)) pls
    (AnalysisResult.run env (reportToAnalysis pls)
       (AnalysisResult.new target options)).
Proof.
  induction pls as [|[p l] pls IH] using rev_ind.
  - split.
    + intros pl Hpl. inversion Hpl.
    + intros c cat Hc. inversion Hc.
  - rewrite run_reportToAnalysis_snoc.
    destruct (AnalysisResult_run_keeps env (reportToAnalysis pls)
                (AnalysisResult.new target options)) as (U & S & _).
    apply categoriesGrouped_addProblem; try assumption.
    apply AnalysisResult_reachable_wf.
Qed.

Lemma analysisReported_app (ks1 ks2 : list AnalysisResult.call) :
  analysisReported (ks1 ++ ks2) = analysisReported ks1 ++ analysisReported ks2.
Proof. unfold analysisReported. apply flat_map_app. Qed.

Lemma AnalysisResult_step_hintsCount env (a : AnalysisResult.t)
    (k : AnalysisResult.call) :
  removesNothing k ->
  AnalysisResult.hintsCount (AnalysisResult.step env a k)
  = AnalysisResult.hintsCount a
    + countWhere AnalysisResult.counted (analysisReported [k]).
Proof.
  intros Hk. destruct k as [n|p l|n l|n]; simpl in *; [| | |contradiction].
  - unfold AnalysisResult.getCategoryByName, countWhere.
    destruct (AnalysisResult.cache a !! _); [|destruct (List.find _ _)];
      simpl; lia.
  - rewrite AnalysisResult_addProblem_hintsCount, countWhere_one. reflexivity.
  - unfold AnalysisResult.addCategory, AnalysisResult.getCategoryByName,
      AnalysisResult.pushNewCategory, countWhere.
    destruct (AnalysisResult.cache a !! _); [|destruct (List.find _ _)];
      simpl; lia.
Qed.

Lemma AnalysisResult_run_hintsCount env (ks : list AnalysisResult.call)
    (a : AnalysisResult.t) :
  Forall removesNothing ks ->
  AnalysisResult.hintsCount (AnalysisResult.run env ks a)
  = AnalysisResult.hintsCount a
    + countWhere AnalysisResult.counted (analysisReported ks).
Proof.
  revert a. induction ks as [|k ks IH]; intros a F.
  - unfold countWhere. simpl. lia.
  - apply Forall_cons in F as [Hk F].
    change (AnalysisResult.run env (k :: ks) a)
      with (AnalysisResult.run env ks (AnalysisResult.step env a k)).
    rewrite IH, AnalysisResult_step_hintsCount by assumption.
    change (k :: ks) with ([k] ++ ks).
    rewrite analysisReported_app, countWhere_app. lia.
Qed.

Lemma analysisReported_report (pls : list (Problem.t * option string)) :
  analysisReported (reportToAnalysis pls) = map fst pls /\
  Forall removesNothing (reportToAnalysis pls).
Proof.
  induction pls as [|pl pls [IH1 IH2]]; simpl; [auto|].
  split; [now rewrite IH1|]. now constructor.
Qed.

(** X13. Reporting problems to a new result groups them by category without
    regard to case: every problem has a category in [categories] answering
    to its category, and each category of [categories] is named as the
    first problem reported in it spells the category, was created with the
    language of that call, and is what reporting the problems of that
    category, in the order reported, to a new [CategoryResult] gives.  The
    total is the number of the problems that are [error] or [warning]. *)
Theorem X13_problems_grouped_by_category env
    (pls : list (Problem.t * option string))
    (target : string) (options : FormatterOptions) :
  let a := AnalysisResult.run env (reportToAnalysis pls)
             (AnalysisResult.new target options) in
  AnalysisResult.hintsCount a
    = countWhere AnalysisResult.counted (map fst pls) /\
  (forall pl : Problem.t * option string, pl ∈ pls ->
     exists (c : loc) (cat : CategoryResult.t),
       c ∈ AnalysisResult.categories a /\
       AnalysisResult.heap a !! c = Some cat /\
       toLowerCase (CategoryResult.name cat)
       = toLowerCase (Problem.category (fst pl))) /\
  (forall (c : loc) (cat : CategoryResult.t),
     c ∈ AnalysisResult.categories a -> AnalysisResult.heap a !! c = Some cat ->
     exists pl0 : Problem.t * option string,
       List.find (categoryIs (toLowerCase (CategoryResult.name cat))) pls = Some pl0 /\
       CategoryResult.name cat = Problem.category (fst pl0) /\
       cat = CategoryResult.run env
               (reportToCategory
                  (map fst (List.filter
                              (categoryIs (toLowerCase (CategoryResult.name cat))) pls)))
               (CategoryResult.new env (Problem.category (fst pl0)) target
                  (AnalysisResult.isScanner (AnalysisResult.new target options))
                  (snd pl0))).
Proof.
  intros a.
  assert (W : AnalysisWf a) by apply AnalysisResult_reachable_wf.
  destruct (categoriesGrouped_report env pls target options) as (Ghas & Gc).
  fold a in Ghas, Gc.
  split; [|split].
  - destruct (analysisReported_report pls) as [E F].
    unfold a. rewrite AnalysisResult_run_hintsCount by assumption.
    rewrite E. simpl. lia.
  - intros pl Hpl. destruct (Ghas pl Hpl) as (c & Hc & Hn).
    destruct (lookup_lt_is_Some_2 _ _ (awf_live a W c Hc)) as [cat Hcat].
    exists c, cat. split; [exact Hc|]. split; [exact Hcat|].
    unfold lowerNameOf in Hn. now rewrite Hcat in Hn.
  - intros c cat Hc Hcat. destruct (Gc c cat Hc Hcat) as (pl0 & Hf & Hrun).
    exists pl0. split; [exact Hf|]. split; [|exact Hrun].
    rewrite Hrun at 1. now rewrite CategoryResult_run_name.
Qed.

Lemma X13_witness :
  let a := AnalysisResult.run sampleEnv
             (reportToAnalysis [(problemB, Some "es"); (problemA, None);
                                (problemC, Some "fr")])
             (AnalysisResult.new "https://example.com" sampleOptions) in
  exists cat : CategoryResult.t,
    AnalysisResult.categories a = [0%nat] /\
    AnalysisResult.heap a !! 0%nat = Some cat /\
    CategoryResult.name cat = "security" /\
    CategoryResult.heldProblems cat = [problemB; problemA; problemC].
Proof.
  intros a.
  destruct (proj2 (proj2
              (X13_problems_grouped_by_category sampleEnv
                 [(problemB, Some "es"); (problemA, None); (problemC, Some "fr")]
                 "https://example.com" sampleOptions))
              0%nat _ (list_elem_of_here 0%nat []) eq_refl)
    as (pl0 & Hf & Hn & _).
  eexists. split; [reflexivity|]. split; [reflexivity|].
  vm_compute in Hf. injection Hf as <-. split; [exact Hn|reflexivity].
Defined.

(** X14. As long as no category is removed, the total of a result is the
    number of the problems reported to it whose severity is [error] or
    [warning], whatever categories were registered or looked up in
    between. *)
Theorem X14_total_without_removal env (ks : list AnalysisResult.call)
    (target : string) (options : FormatterOptions) :
  Forall removesNothing ks ->
  AnalysisResult.hintsCount
    (AnalysisResult.run env ks (AnalysisResult.new target options))
  = countWhere AnalysisResult.counted (analysisReported ks).
Proof.
  intros F. rewrite AnalysisResult_run_hintsCount by assumption. simpl. lia.
Qed.

Lemma X14_witness :
  AnalysisResult.hintsCount
    (AnalysisResult.run sampleEnv
       [AnalysisResult.AddCategory "Performance" None;
        AnalysisResult.AddProblem problemA None;
        AnalysisResult.GetCategoryByName "security";
        AnalysisResult.AddProblem problemD None;
        AnalysisResult.AddProblem problemB None]
       (AnalysisResult.new "https://example.com" sampleOptions))
  = 2.
Proof.
  refine (X14_total_without_removal sampleEnv
            [AnalysisResult.AddCategory "Performance" None;
             AnalysisResult.AddProblem problemA None;
             AnalysisResult.GetCategoryByName "security";
             AnalysisResult.AddProblem problemD None;
             AnalysisResult.AddProblem problemB None]
            "https://example.com" sampleOptions _).
  repeat constructor.
Defined.
(** ** Nothing is lost, nothing is held twice *)

Lemma held_alter_perm (p : Problem.t) (hp : list HintResult.t) (l : loc)
    (ls : list loc) :
  NoDup ls -> l ∈ ls -> (l < length hp)%nat ->
  concat (map (CategoryResult.problemsAt (alter (HintResult.addProblem p) l hp)) ls)
  ≡ₚ concat (map (CategoryResult.problemsAt hp) ls) ++ [p].
Proof.
  intros Hnd Hin Hlt. induction ls as [|x r IH]; [inversion Hin|].
  apply NoDup_cons in Hnd as [Hx Hr]. simpl.
  destruct (decide (x = l)) as [->|Hne].
  - rewrite (problemsAt_ext (alter (HintResult.addProblem p) l hp) hp r).
    + rewrite problemsAt_alter_eq by assumption.
      rewrite <- !app_assoc. apply Permutation_app_head, Permutation_app_comm.
    + intros l' Hl'. apply list_lookup_alter_ne. intros ->. contradiction.
  - apply elem_of_cons in Hin as [->|Hin]; [contradiction|].
    rewrite (IH Hr Hin), problemsAt_alter_ne by congruence.
    now rewrite app_assoc.
Qed.

Lemma held_alloc (hp : list HintResult.t) (h0 : HintResult.t) (xs ys : list loc) :
  (forall l, l ∈ xs ++ ys -> (l < length hp)%nat) ->
  concat (map (CategoryResult.problemsAt (hp ++ [h0])) (xs ++ [length hp] ++ ys))
  = concat (map (CategoryResult.problemsAt hp) xs)
    ++ HintResult.problems h0
    ++ concat (map (CategoryResult.problemsAt hp) ys).
Proof.
  intros Hsub. rewrite !map_app, !concat_app. simpl.
  rewrite problemsAt_fresh, app_nil_r.
  rewrite !held_after_alloc; [reflexivity| |].
  - intros l Hl. apply Hsub, elem_of_app. now right.
  - intros l Hl. apply Hsub, elem_of_app. now left.
Qed.

Lemma held_step env (c : CategoryResult.t) (k : CategoryResult.call) :
  CategoryWf c ->
  CategoryResult.heldProblems (CategoryResult.step env c k)
  ≡ₚ CategoryResult.heldProblems c ++ categoryReported [k].
Proof.
  intros W. pose proof (cwf_live c W) as Hlive.
  destruct k as [n|n s|p]; simpl; rewrite ?app_nil_r.
  - destruct (getHintByName_wf n c W) as (_ & -> & _). reflexivity.
  - unfold CategoryResult.addHint.
    destruct (getHintByName_wf n c W) as (_ & Hsame & Hres).
    destruct (CategoryResult.getHintByName n c) as [[l|] c1]; simpl in *.
    + now rewrite Hsame.
    + destruct Hres as [-> _]. unfold CategoryResult.allocHint.
      unfold CategoryResult.heldProblems.
      destruct (String.eqb s "pass"); simpl.
      * rewrite app_assoc.
        replace ((CategoryResult.hints c ++ CategoryResult.passed c)
                 ++ [length (CategoryResult.heap c)])
          with ((CategoryResult.hints c ++ CategoryResult.passed c)
                ++ [length (CategoryResult.heap c)] ++ []) by reflexivity.
        rewrite held_alloc; simpl; [now rewrite !app_nil_r|].
        intros l Hl. rewrite app_nil_r in Hl. auto.
      * rewrite <- app_assoc, held_alloc by assumption. simpl.
        now rewrite map_app, concat_app.
  - destruct (List.find (CategoryResult.nameMatches c (toLowerCase (Problem.hintId p)))
                (CategoryResult.hints c)) as [l|] eqn:Hfind.
    + apply List.find_some in Hfind as [Hl Hm]. apply list_elem_of_In in Hl.
      apply hint_nameMatches_true in Hm as (h & Hh & Hn).
      destruct (category_addProblem_present env p c l h W Hl Hh Hn)
        as (Eh & Ep & Eheap & _).
      unfold CategoryResult.heldProblems. rewrite Eh, Ep, Eheap.
      apply held_alter_perm; [exact (cwf_nodup c W)| |].
      * apply elem_of_app. now left.
      * apply Hlive, elem_of_app. now left.
    + assert (Habs : forall l h, l ∈ CategoryResult.hints c ->
                       CategoryResult.heap c !! l = Some h ->
                       toLowerCase (HintResult.name h)
                       <> toLowerCase (Problem.hintId p)).
      { intros l h Hl Hh E. apply list_elem_of_In in Hl.
        pose proof (List.find_none _ _ Hfind l Hl) as Hm.
        unfold CategoryResult.nameMatches in Hm. rewrite Hh in Hm.
        apply String.eqb_neq in Hm. contradiction. }
      destruct (category_addProblem_absent env p c W Habs) as (Eh & Ep & Eheap & _).
      unfold CategoryResult.heldProblems. rewrite Eh, Ep, Eheap.
      rewrite <- app_assoc, held_alloc by assumption. simpl.
      rewrite map_app, concat_app, <- app_assoc.
      apply Permutation_app_head.
      change (p :: concat (map (CategoryResult.problemsAt (CategoryResult.heap c))
                             (CategoryResult.passed c)))
        with ([p] ++ concat (map (CategoryResult.problemsAt (CategoryResult.heap c))
                               (CategoryResult.passed c))).
      apply Permutation_app_comm.
Qed.

(** X15. On a category reached by any sequence of calls, the problems held
    by the hints of [hints] and [passed] together are the problems reported
    by the [addProblem] calls, each one exactly once, and the count is the
    number of them that are neither [off] nor [default]. *)
Theorem X15_every_problem_held_once env (ks : list CategoryResult.call)
    (cname curl : string) (cscan : bool) (lang : option string) :
  let c := CategoryResult.run env ks
             (CategoryResult.new env cname curl cscan lang) in
  CategoryResult.heldProblems c ≡ₚ categoryReported ks /\
  CategoryResult.hintsCount c
  = Z.of_nat (length (List.filter neitherOffNorDefault (categoryReported ks))).
Proof.
  intros c. split.
  - unfold c.
    assert (H : forall c0, CategoryWf c0 ->
              CategoryResult.heldProblems (CategoryResult.run env ks c0)
              ≡ₚ CategoryResult.heldProblems c0 ++ categoryReported ks).
    { induction ks as [|k ks IH]; intros c0 W.
      - simpl. now rewrite app_nil_r.
      - change (CategoryResult.run env (k :: ks) c0)
          with (CategoryResult.run env ks (CategoryResult.step env c0 k)).
        rewrite IH by now apply CategoryResult_step_wf.
        rewrite held_step by assumption.
        change (k :: ks) with ([k] ++ ks).
        now rewrite categoryReported_app, app_assoc. }
    now rewrite H by apply CategoryResult_new_wf.
  - unfold c. rewrite CategoryResult_run_hintsCount. simpl.
    now rewrite counted_neitherOffNorDefault.
Qed.
(** ** Removing, then reporting again *)

Lemma removeCategory_heap (n : string) (a : AnalysisResult.t) :
  AnalysisResult.heap (AnalysisResult.removeCategory n a) = AnalysisResult.heap a /\
  AnalysisResult.url (AnalysisResult.removeCategory n a) = AnalysisResult.url a /\
  AnalysisResult.isScanner (AnalysisResult.removeCategory n a)
  = AnalysisResult.isScanner a.
Proof.
  unfold AnalysisResult.removeCategory, AnalysisResult.getCategoryByName.
  destruct (AnalysisResult.cache a !! _); [|destruct (List.find _ _)];
    repeat split.
Qed.

(** X16. A removed category does not come back: on a result reached by any
    sequence of calls, a problem reported after [removeCategory] in the
    category removed, in any spelling, is given to a new category, created
    under the spelling and the language of this call and appended to
    [categories], that holds only this problem. *)
Theorem X16_removed_category_starts_afresh env (ks : list AnalysisResult.call)
    (target : string) (options : FormatterOptions) (n : string)
    (p : Problem.t) (language : option string) :
  toLowerCase (Problem.category p) = toLowerCase n ->
  let a := AnalysisResult.run env ks (AnalysisResult.new target options) in
  let a1 := AnalysisResult.removeCategory n a in
  let a2 := AnalysisResult.addProblem env p language a1 in
  AnalysisResult.categories a2
    = AnalysisResult.categories a1 ++ [length (AnalysisResult.heap a)] /\
  AnalysisResult.heap a2
    = AnalysisResult.heap a
      ++ [CategoryResult.addProblem env p
            (CategoryResult.new env (Problem.category p) target
               (AnalysisResult.isScanner (AnalysisResult.new target options))
               language)] /\
  AnalysisResult.hintsCount a2
    = AnalysisResult.hintsCount a1
      + (if AnalysisResult.counted (Problem.severity p) then 1 else 0).
Proof.
  intros Hn a a1 a2.
  assert (W : AnalysisWf a) by apply AnalysisResult_reachable_wf.
  assert (W1 : AnalysisWf a1) by now apply removeCategory_wf.
  assert (Habs : categoryAbsent (Problem.category p) a1).
  { intros x Hx. rewrite Hn. now apply removeCategory_then_absent. }
  destruct (removeCategory_heap n a) as (Eh & Eu & Es). fold a1 in Eh, Eu, Es.
  destruct (AnalysisResult_run_keeps env ks (AnalysisResult.new target options))
    as (Hu & Hs & _). fold a in Hu, Hs. simpl in Hu.
  destruct (analysis_addProblem_absent env p language a1 W1 Habs) as (Ec & Eheap & _).
  fold a2 in Ec, Eheap. rewrite Eh, Eu, Es, Hu, Hs in *.
  split; [exact Ec|]. split; [exact Eheap|].
  apply AnalysisResult_addProblem_hintsCount.
Qed.

Lemma X16_witness :
  let a := AnalysisResult.run sampleEnv
             [AnalysisResult.AddProblem problemA None;
              AnalysisResult.AddProblem problemB None;
              AnalysisResult.GetCategoryByName "security"]
             (AnalysisResult.new "https://example.com" sampleOptions) in
  let a2 := AnalysisResult.addProblem sampleEnv problemC None
              (AnalysisResult.removeCategory "Security" a) in
  AnalysisResult.categories a2 = [1%nat] /\
  AnalysisResult.hintsCount a2 = 1.
Proof.
  intros a a2.
  destruct (X16_removed_category_starts_afresh sampleEnv
              [AnalysisResult.AddProblem problemA None;
               AnalysisResult.AddProblem problemB None;
               AnalysisResult.GetCategoryByName "security"]
              "https://example.com" sampleOptions "Security" problemC None eq_refl)
    as (Hc & _ & Ht).
  split; [exact Hc|exact Ht].
Defined.

(** ** The order of the categories *)

Lemma step_categories_prefix env (a : AnalysisResult.t) (k : AnalysisResult.call) :
  removesNothing k ->
  AnalysisResult.categories a
    `prefix_of` AnalysisResult.categories (AnalysisResult.step env a k).
Proof.
  intros Hk. destruct k as [n|p l|n l|n]; simpl in *; [| | |contradiction].
  - unfold AnalysisResult.getCategoryByName.
    destruct (AnalysisResult.cache a !! _); [|destruct (List.find _ _)];
      reflexivity.
  - unfold AnalysisResult.addProblem, AnalysisResult.resolveCategory,
      AnalysisResult.getCategoryByName, AnalysisResult.pushNewCategory.
    destruct (AnalysisResult.cache a !! _); [|destruct (List.find _ _)];
      destruct (AnalysisResult.counted _); simpl;
      first [reflexivity | now apply prefix_app_r].
  - unfold AnalysisResult.addCategory, AnalysisResult.getCategoryByName,
      AnalysisResult.pushNewCategory.
    destruct (AnalysisResult.cache a !! _); [|destruct (List.find _ _)];
      simpl; first [reflexivity | now apply prefix_app_r].
Qed.

Lemma splice1_sublist (i : Z) (ls : list loc) :
  AnalysisResult.splice1 i ls `sublist_of` ls.
Proof.
  unfold AnalysisResult.splice1.
  set (s := Z.to_nat _).
  rewrite <- (take_drop s ls) at 3.
  apply sublist_app; [reflexivity|].
  replace (S s) with (s + 1)%nat by lia. rewrite <- drop_drop. apply sublist_drop.
Qed.

(** X17. The categories stay in the order in which they were created:
    a call other than [removeCategory] leaves [categories] as it is or
    appends one category at its end, so that the [categories] before any
    sequence of such calls is a prefix of the one after; and
    [removeCategory] takes elements out without moving the others. *)
Theorem X17_categories_keep_their_order env (ks0 : list AnalysisResult.call)
    (target : string) (options : FormatterOptions) :
  let a := AnalysisResult.run env ks0 (AnalysisResult.new target options) in
  (forall ks : list AnalysisResult.call,
     Forall removesNothing ks ->
     AnalysisResult.categories a
       `prefix_of` AnalysisResult.categories (AnalysisResult.run env ks a)) /\
  (forall n : string,
     AnalysisResult.categories (AnalysisResult.removeCategory n a)
       `sublist_of` AnalysisResult.categories a).
Proof.
  intros a. split.
  - intros ks. generalize a. clear a.
    induction ks as [|k ks IH]; intros a F; [reflexivity|].
    apply Forall_cons in F as [Hk F].
    change (AnalysisResult.run env (k :: ks) a)
      with (AnalysisResult.run env ks (AnalysisResult.step env a k)).
    transitivity (AnalysisResult.categories (AnalysisResult.step env a k));
      [now apply step_categories_prefix|now apply IH].
  - intros n. unfold AnalysisResult.removeCategory, AnalysisResult.getCategoryByName.
    destruct (AnalysisResult.cache a !! _); [|destruct (List.find _ _)];
      simpl; first [reflexivity | apply splice1_sublist].
Qed.

Lemma X17_witness :
  let a := AnalysisResult.run sampleEnv
             [AnalysisResult.AddCategory "Performance" None]
             (AnalysisResult.new "https://example.com" sampleOptions) in
  AnalysisResult.categories a
    `prefix_of` AnalysisResult.categories
                  (AnalysisResult.run sampleEnv
                     [AnalysisResult.AddProblem problemA None;
                      AnalysisResult.AddCategory "performance" None] a).
Proof.
  intros a.
  refine (proj1 (X17_categories_keep_their_order sampleEnv
                   [AnalysisResult.AddCategory "Performance" None]
                   "https://example.com" sampleOptions)
            [AnalysisResult.AddProblem problemA None;
             AnalysisResult.AddCategory "performance" None] _).
  repeat constructor.
Defined.
(** ** More on the elapsed time *)

(** X18. The elapsed time is truncated to whole seconds, never rounded: two
    scan times that are not negative and have the same number of whole
    seconds are displayed alike. *)
Theorem X18_elapsed_whole_seconds (q q' : Q) :
  (0 <= q)%Q -> (0 <= q')%Q ->
  Qfloor q / 1000 = Qfloor q' / 1000 ->
  AnalysisResult.parseScanTime q = AnalysisResult.parseScanTime q'.
Proof.
  intros Hq Hq' H. rewrite !parseScanTime_elapsedFormat by assumption.
  unfold elapsedFormat. now rewrite H.
Qed.

Lemma X18_witness :
  AnalysisResult.parseScanTime 59999 = AnalysisResult.parseScanTime 59000.
Proof.
  apply X18_elapsed_whole_seconds.
  - unfold Qle. simpl. lia.
  - unfold Qle. simpl. lia.
  - reflexivity.
Defined.

Lemma string_length_append (s1 s2 : string) :
  String.length (s1 ++ s2)%string = (String.length s1 + String.length s2)%nat.
Proof. induction s1 as [|c r IH]; simpl; [reflexivity|]. now rewrite IH. Qed.

(** X19. The display of a scan time that is not negative has five
    characters, [mm:ss], below one hour, and from one hour on the hours in
    at least two digits, a colon and those five characters. *)
Theorem X19_elapsed_length (q : Q) :
  (0 <= q)%Q ->
  (Qfloor q < 3600000 ->
   String.length (AnalysisResult.parseScanTime q) = 5%nat) /\
  (3600000 <= Qfloor q ->
   String.length (AnalysisResult.parseScanTime q)
   = (String.length (twoDigits (Qfloor q / 1000 / 3600)) + 6)%nat /\
   (8 <= String.length (AnalysisResult.parseScanTime q))%nat).
Proof.
  intros Hq. rewrite parseScanTime_elapsedFormat by assumption.
  assert (0 <= Qfloor q).
  { change 0 with (Qfloor 0). now apply Qfloor_resp_le. }
  set (ms := Qfloor q) in *.
  assert (Hs : String.length (twoDigits ((ms / 1000) mod 60)) = 2%nat).
  { apply twoDigits_length, Z.mod_pos_bound. lia. }
  assert (Hm : String.length (twoDigits ((ms / 1000 / 60) mod 60)) = 2%nat).
  { apply twoDigits_length, Z.mod_pos_bound. lia. }
  assert (Hh : ms / 1000 / 3600 = ms / 3600000)
    by (rewrite Z.div_div by lia; reflexivity).
  unfold elapsedFormat. split.
  - intros Hlt.
    assert (E : ms / 3600000 = 0) by (apply Z.div_small; lia).
    rewrite Hh, E. simpl. rewrite !string_length_append, Hs, Hm. reflexivity.
  - intros Hge.
    assert (E : 0 < ms / 3600000) by (apply Z.div_str_pos; lia).
    rewrite Hh. destruct (Z.ltb_spec 0 (ms / 3600000)) as [_|?]; [|lia].
    rewrite !string_length_append, Hs, Hm. simpl.
    pose proof (twoDigits_length_ge (ms / 3600000)). lia.
Qed.

Lemma X19_witness :
  String.length (AnalysisResult.parseScanTime 3599999) = 5%nat /\
  String.length (AnalysisResult.parseScanTime 360000000) = 9%nat.
Proof.
  split.
  - apply (X19_elapsed_length 3599999).
    + unfold Qle. simpl. lia.
    + vm_compute. reflexivity.
  - refine (proj1 (proj2 (X19_elapsed_length 360000000 _) _)).
    + unfold Qle. simpl. lia.
    + vm_compute. discriminate.
Defined.

(** ** The constructors *)

(** X20. A new result never has an empty status: a missing status and an
    empty one both count as ["finished"], any other is kept.  The result is
    finished exactly when its status is ["finished"] or ["error"], the
    error is shown exactly when it is ["error"], so that a result that
    shows the error is finished.  It has the total [0] and no category,
    and every lookup in it returns nothing. *)
Theorem X20_new_result (target : string) (options : FormatterOptions) :
  let a := AnalysisResult.new target options in
  AnalysisResult.status a <> "" /\
  (forall s : string, opt_status options = Some s -> s <> "" ->
                      AnalysisResult.status a = s) /\
  (opt_status options = None \/ opt_status options = Some "" ->
   AnalysisResult.status a = "finished") /\
  (AnalysisResult.isFinish a = true
   <-> AnalysisResult.status a = "finished" \/ AnalysisResult.status a = "error") /\
  (AnalysisResult.showError a = true <-> AnalysisResult.status a = "error") /\
  (AnalysisResult.showError a = true -> AnalysisResult.isFinish a = true) /\
  AnalysisResult.url a = target /\
  AnalysisResult.hintsCount a = 0 /\
  AnalysisResult.categories a = [] /\
  (forall n : string, AnalysisResult.getCategoryByName n a = (None, a)).
Proof.
  intros a.
  assert (Hst : AnalysisResult.status a
                = match opt_status options with
                  | Some s => if String.eqb s "" then "finished" else s
                  | None => "finished"
                  end) by reflexivity.
  assert (Hfin : AnalysisResult.isFinish a
                 = (String.eqb (AnalysisResult.status a) "finished"
                    || String.eqb (AnalysisResult.status a) "error")%bool)
    by reflexivity.
  assert (Herr : AnalysisResult.showError a
                 = String.eqb (AnalysisResult.status a) "error") by reflexivity.
  split.
  { rewrite Hst. destruct (opt_status options) as [s|]; [|discriminate].
    destruct (String.eqb_spec s ""); [discriminate|assumption]. }
  split.
  { intros s Hs Hne. rewrite Hst, Hs.
    destruct (String.eqb_spec s ""); [contradiction|reflexivity]. }
  split.
  { intros [H|H]; rewrite Hst, H; reflexivity. }
  split.
  { rewrite Hfin, orb_true_iff, !String.eqb_eq. reflexivity. }
  split.
  { rewrite Herr. apply String.eqb_eq. }
  split.
  { rewrite Hfin, Herr. intros ->. apply orb_true_r. }
  repeat split.
Qed.

Lemma X20_witness :
  AnalysisResult.status
    (AnalysisResult.new "https://example.com"
       {| opt_status := Some ""; opt_scanTime := None; opt_date := None;
          opt_version := None; opt_isScanner := None |})
  = "finished".
Proof.
  refine (proj1 (proj2 (proj2 (X20_new_result "https://example.com" _))) _).
  right. reflexivity.
Defined.
(** ** Hints of one third-party service *)

Lemma occurs_slash_cons (c : ascii) (r : string) :
  occurs "/" (String c r) = if Ascii.eqb c "/" then true else occurs "/" r.
Proof.
  change (occurs "/" (String c r))
    with (if (if Ascii.ascii_dec "/" c then String.prefix "" r else false)
          then true else occurs "/" r).
  destruct (Ascii.ascii_dec "/" c) as [<-|Hne].
  - now destruct r.
  - destruct (Ascii.eqb_spec c "/") as [->|_]; [contradiction|reflexivity].
Qed.

Lemma splitSlashHead_append (base rest : string) :
  occurs "/" base = false ->
  splitSlashHead (base ++ "/" ++ rest)%string = base /\
  splitSlashHead base = base.
Proof.
  induction base as [|c r IH]; [simpl; auto|].
  rewrite occurs_slash_cons.
  change (String c r ++ "/" ++ rest)%string
    with (String c (r ++ "/" ++ rest))%string.
  change (splitSlashHead (String c (r ++ "/" ++ rest)%string))
    with (if Ascii.eqb c "/" then EmptyString
          else String c (splitSlashHead (r ++ "/" ++ rest)%string)).
  change (splitSlashHead (String c r))
    with (if Ascii.eqb c "/" then EmptyString else String c (splitSlashHead r)).
  destruct (Ascii.eqb c "/"); [discriminate|].
  intros Hr. destruct (IH Hr) as [E1 E2]. rewrite E1, E2. auto.
Qed.

(** X21. The third-party information of a hint depends on the text before
    the first ['/'] of its name only, and on neither what follows it nor
    the status: for a prefix without ['/'], the hints named by the prefix
    alone and by the prefix, a ['/'] and anything else get the same
    information. *)
Theorem X21_thirdPartyInfo_by_prefix env (base rest status status' url : string)
    (isScanner : bool) :
  occurs "/" base = false ->
  HintResult.thirdPartyInfo
    (HintResult.new env (base ++ "/" ++ rest)%string status url isScanner)
  = HintResult.thirdPartyInfo (HintResult.new env base status' url isScanner) /\
  (thirdPartyServices env !! base = None ->
   HintResult.thirdPartyInfo
     (HintResult.new env (base ++ "/" ++ rest)%string status url isScanner) = None).
Proof.
  intros Hocc. destruct (splitSlashHead_append base rest Hocc) as [E1 E2].
  unfold HintResult.new. simpl. rewrite E1, E2. split; [reflexivity|].
  now intros ->.
Qed.

Lemma X21_witness :
  HintResult.thirdPartyInfo
    (HintResult.new sampleEnv "axe/aria" "error" "https://example.com" false)
  = HintResult.thirdPartyInfo
      (HintResult.new sampleEnv "axe" "warning" "https://example.com" false).
Proof.
  exact (proj1 (X21_thirdPartyInfo_by_prefix sampleEnv "axe" "aria" "error" "warning"
                  "https://example.com" false eq_refl)).
Defined.
